(** * graph-rec-engine: identity assignment, edge aggregation, bulk export
      and the chunked batch loader

    Shallow embedding of [database/build_bulk.py] and of
    [Neo4jDriver.execute_batch] in [database/driver.py], followed by the
    properties of the specification that concern them. *)

From Stdlib Require Import ZArith Lia Ascii.
From Stdlib Require Import DecimalString DecimalFacts DecimalPos DecimalNat DecimalZ.
From Stdlib Require QArith.
From stdpp Require Import gmap strings list fin_maps sorting.

Set Warnings "-clear-no-such-hyp".

(** ** Python values and exceptions *)

(** Identifiers as they arrive from [json.load]: JSON integers and JSON
    strings.  The specification's data model makes identifiers opaque
    comparable tokens; [generate_batch.py] emits integers, and strings are
    the other kind of token a JSON batch carries. *)
Inductive ident : Type :=
| IInt (z : Z)
| IStr (s : string).

#[global] Instance ident_eq_dec : EqDecision ident.
Proof. solve_decision. Defined.

Definition ident_to_sum (x : ident) : Z + string :=
  match x with IInt z => inl z | IStr s => inr s end.

Definition ident_of_sum (y : Z + string) : ident :=
  match y with inl z => IInt z | inr s => IStr s end.

#[global] Instance ident_countable : Countable ident.
Proof.
  apply (inj_countable' ident_to_sum ident_of_sum).
  intros []; reflexivity.
Defined.

(** The exceptions the script can raise.  [KeyError] carries the offending
    key, which is a field name ([r["item_id"]]) or an identifier
    ([id_map[x]]). *)
Inductive exn : Type :=
| KeyError (k : ident)
| TypeError.

Inductive result (A : Type) : Type :=
| Ok (a : A)
| Raise (e : exn).
Arguments Ok {A} a.
Arguments Raise {A} e.

#[global] Instance result_ret : MRet result := @Ok.
#[global] Instance result_bind : MBind result := λ A B f m,
  match m with Ok a => f a | Raise e => Raise e end.

(** [for x in l: acc = step(acc, x)] where [step] may raise. *)
Fixpoint for_each {A S : Type} (step : S → A → result S) (l : list A) (acc : S)
  : result S :=
  match l with
  | [] => Ok acc
  | x :: l' => acc' ← step acc x; for_each step l' acc'
  end.

(** A record of the input list.  A field is [None] when the key is absent
    from the JSON object or bound to [null]: [dict.get] returns [None] in
    both cases.  For [item_id], which is read with [r["item_id"]], [None]
    stands for the absent key; an [item_id] bound to [null] is outside the
    data model, which makes the field mandatory. *)
Record event : Type := Event {
  session_id : option ident;
  item_id : option ident;
  next_item_id : option ident
}.

(** [r[name]] on a field. *)
Definition subscript (name : string) (field : option ident) : result ident :=
  match field with
  | Some v => Ok v
  | None => Raise (KeyError (IStr name))
  end.

(** Truth value of [r.get(name)]: [None], [0] and the empty string are
    false. *)
Definition truthy (field : option ident) : bool :=
  match field with
  | None => false
  | Some (IInt z) => negb (z =? 0)%Z
  | Some (IStr s) => negb (String.eqb s EmptyString)
  end.

(** [str(x)]: decimal notation for an integer, the string itself for a
    string. *)
Definition str_nat (n : nat) : string := NilZero.string_of_uint (Nat.to_uint n).

Definition str (x : ident) : string :=
  match x with
  | IInt z => NilZero.string_of_int (Z.to_int z)
  | IStr s => s
  end.

(** *** [sorted] *)

Definition is_int (x : ident) : bool :=
  match x with IInt _ => true | IStr _ => false end.

Definition is_str (x : ident) : bool :=
  match x with IInt _ => false | IStr _ => true end.

(** Python orders integers among themselves and strings among themselves
    (code point order, which is byte order on UTF-8); comparing an integer
    with a string raises [TypeError]. *)
Definition homogeneous (l : list ident) : bool :=
  forallb is_int l || forallb is_str l.

Definition ident_le (a b : ident) : Prop :=
  match a, b with
  | IInt x, IInt y => (x ≤ y)%Z
  | IStr s, IStr t => String.le s t
  | IInt _, IStr _ => True
  | IStr _, IInt _ => False
  end.

#[global] Instance ident_le_dec : RelDecision ident_le.
Proof. intros [x|s] [y|t]; simpl; apply _. Defined.

Definition py_sorted (l : list ident) : result (list ident) :=
  if homogeneous l then Ok (merge_sort ident_le l) else Raise TypeError.

(** [sorted(s)] for a set [s]; the order in which the set is iterated
    does not matter (see [py_sorted_perm]). *)
Definition sorted_set (s : gset ident) : result (list ident) :=
  py_sorted (elements s).

(** [{x: i for i, x in enumerate(l)}] *)
Definition enumerate {A : Type} (l : list A) : list (nat * A) :=
  zip (seq 0 (length l)) l.

Definition dict_of_enumerate (l : list ident) : gmap ident nat :=
  foldl (λ m p, <[p.2 := p.1]> m) ∅ (enumerate l).

(** [d[k]] *)
Definition dict_get (d : gmap ident nat) (k : ident) : result nat :=
  match d !! k with
  | Some v => Ok v
  | None => Raise (KeyError k)
  end.

(** ** build_bulk.py *)

Module BuildBulk.

(** *** 1) unique items → sequential ids (lines 15-22) *)

Definition add_items (items : gset ident) (r : event) : result (gset ident) :=
  i ← subscript "item_id" (item_id r);
  let items := items ∪ {[ i ]} in
  if truthy (next_item_id r) then
    n ← subscript "next_item_id" (next_item_id r);
    Ok (items ∪ {[ n ]})
  else Ok items.

Definition collect_items (data : list event) : result (gset ident) :=
  for_each add_items data ∅.

(** *** 2) aggregate NEXT (lines 29-40) *)

Record edge : Type := Edge { weight : nat; sessions : gset string }.

#[global] Instance edge_eq_dec : EqDecision edge.
Proof. solve_decision. Defined.

(** The [defaultdict] factory. *)
Definition default_edge : edge := Edge 0 ∅.

Definition add_next (id_map : gmap ident nat)
    (next_agg : gmap (nat * nat) edge) (r : event)
  : result (gmap (nat * nat) edge) :=
  if truthy (next_item_id r) then
    x1 ← subscript "item_id" (item_id r);
    i1 ← dict_get id_map x1;
    x2 ← subscript "next_item_id" (next_item_id r);
    i2 ← dict_get id_map x2;
    let k := (i1, i2) in
    let v := default default_edge (next_agg !! k) in
    let v := Edge (weight v + 1) (sessions v) in
    if truthy (session_id r) then
      s ← subscript "session_id" (session_id r);
      Ok (<[k := Edge (weight v) (sessions v ∪ {[ str s ]})]> next_agg)
    else Ok (<[k := v]> next_agg)
  else Ok next_agg.

Definition aggregate_next (id_map : gmap ident nat) (data : list event)
  : result (gmap (nat * nat) edge) :=
  for_each (add_next id_map) data ∅.

(** *** 3) sessions + CONTAINS (lines 47-55) *)

Definition add_session (acc : gset ident) (r : event) : result (gset ident) :=
  if truthy (session_id r) then
    s ← subscript "session_id" (session_id r);
    Ok (acc ∪ {[ s ]})
  else Ok acc.

Definition collect_sessions (data : list event) : result (gset ident) :=
  for_each add_session data ∅.

Definition add_contains (session_map id_map : gmap ident nat)
    (contains : gset (nat * nat)) (r : event) : result (gset (nat * nat)) :=
  if truthy (session_id r) then
    s ← subscript "session_id" (session_id r);
    sid ← dict_get session_map s;
    x ← subscript "item_id" (item_id r);
    iid ← dict_get id_map x;
    Ok (contains ∪ {[ (sid, iid) ]})
  else Ok contains.

Definition collect_contains (session_map id_map : gmap ident nat)
    (data : list event) : result (gset (nat * nat)) :=
  for_each (add_contains session_map id_map) data ∅.

(** *** The in-memory graph built by lines 15-55 *)

Record graph : Type := Graph {
  items_list : list ident;
  id_map : gmap ident nat;
  next_agg : gmap (nat * nat) edge;
  sessions_list : list ident;
  session_map : gmap ident nat;
  contains : gset (nat * nat)
}.

(** Lines 15-22: the sorted item list and the item table. *)
Definition item_table (data : list event)
  : result (list ident * gmap ident nat) :=
  items ← collect_items data;
  items_list ← sorted_set items;
  Ok (items_list, dict_of_enumerate items_list).

Definition build (data : list event) : result graph :=
  t ← item_table data;
  let items_list := t.1 in
  let id_map := t.2 in
  next_agg ← aggregate_next id_map data;
  sess ← collect_sessions data;
  sessions ← sorted_set sess;
  let session_map := dict_of_enumerate sessions in
  contains ← collect_contains session_map id_map data;
  Ok (Graph items_list id_map next_agg sessions session_map contains).

(** *** Bulk export (lines 64-96) *)

Definition TAB : string := String "009"%char EmptyString.
Definition LF : string := String "010"%char EmptyString.

(** [f.write(s)] on a file opened with mode ["w"]: the text is appended to
    what has been written so far. *)
Definition write (f s : string) : string := f +:+ s.

(** [sep.join(l)] *)
Definition join (sep : string) (l : list string) : string := String.concat sep l.

(** Iteration order of the containers the export loops over: the
    dictionary [next_agg] (insertion order) and the sets [v["sessions"]]
    and [contains] (hash order).  None of them is a function of the
    contents alone, so the export is defined for any order that enumerates
    the container exactly once.  The evidence set of an edge is iterated
    per row, hence the key argument. *)
Class Iteration : Type := {
  next_items : gmap (nat * nat) edge → list ((nat * nat) * edge);
  sessions_iter : nat * nat → gset string → list string;
  contains_iter : gset (nat * nat) → list (nat * nat);
  next_items_perm : ∀ m, next_items m ≡ₚ map_to_list m;
  sessions_iter_perm : ∀ k s, sessions_iter k s ≡ₚ elements s;
  contains_iter_perm : ∀ s, contains_iter s ≡ₚ elements s
}.

Definition items_header : string := ":ID(Item)" +:+ TAB +:+ ":LABEL" +:+ LF.
Definition sessions_header : string := ":ID(Session)" +:+ TAB +:+ ":LABEL" +:+ LF.
Definition next_header : string :=
  ":START_ID(Item)" +:+ TAB +:+ ":END_ID(Item)" +:+ TAB +:+ "weight:int"
    +:+ TAB +:+ "sessions:string[]" +:+ LF.
Definition contains_header : string :=
  ":START_ID(Session)" +:+ TAB +:+ ":END_ID(Item)" +:+ LF.

Definition items_csv (g : graph) : string :=
  foldl (λ f i, write f (str_nat i +:+ TAB +:+ "Item" +:+ LF))
        (write EmptyString items_header)
        (seq 0 (length (items_list g))).

Definition sessions_csv (g : graph) : string :=
  foldl (λ f i, write f (str_nat i +:+ TAB +:+ "Session" +:+ LF))
        (write EmptyString sessions_header)
        (seq 0 (length (sessions_list g))).

Definition next_row `{Iteration} (kv : (nat * nat) * edge) : string :=
  let sess := join ";" (sessions_iter kv.1 (sessions kv.2)) in
  str_nat kv.1.1 +:+ TAB +:+ str_nat kv.1.2 +:+ TAB +:+ str_nat (weight kv.2)
    +:+ TAB +:+ sess +:+ LF.

Definition next_csv `{Iteration} (g : graph) : string :=
  foldl (λ f kv, write f (next_row kv))
        (write EmptyString next_header)
        (next_items (next_agg g)).

Definition contains_row (p : nat * nat) : string :=
  str_nat p.1 +:+ TAB +:+ str_nat p.2 +:+ LF.

Definition contains_csv `{Iteration} (g : graph) : string :=
  foldl (λ f p, write f (contains_row p))
        (write EmptyString contains_header)
        (contains_iter (contains g)).

(** [lookup.json].  The document is kept as the JSON value [json.dump]
    encodes, not as its text: an object whose members are listed in the
    iteration order of the dictionary, which for a [dict] is insertion
    order, here the order of the sorted list it was built from.  The
    encoder turns every key into a JSON string: an integer key becomes its
    decimal notation, a string key is kept. *)
Definition json_key (x : ident) : string := str x.

Definition json_object (l : list ident) : list (string * nat) :=
  (λ p, (json_key p.2, p.1)) <$> enumerate l.

Record lookup : Type := Lookup {
  item_to_id : list (string * nat);
  session_to_id : list (string * nat)
}.

Definition lookup_json (g : graph) : lookup :=
  Lookup (json_object (items_list g)) (json_object (sessions_list g)).

End BuildBulk.

(** ** Vocabulary of the specification *)

Module Spec.
Import BuildBulk.

Definition opt_set (o : option ident) : gset ident :=
  match o with Some x => {[ x ]} | None => ∅ end.

(** A field counts as present for the code when its value is truthy. *)
Definition present (o : option ident) : option ident :=
  if truthy o then o else None.

(** The event with its falsy optional fields removed. *)
Definition normalize (r : event) : event :=
  Event (present (session_id r)) (item_id r) (present (next_item_id r)).


(** The same sets with presence read as truthiness. *)
Definition item_identifiers (data : list event) : gset ident :=
  ⋃ ((λ r, opt_set (item_id r) ∪ opt_set (present (next_item_id r))) <$> data).

Definition session_identifiers (data : list event) : gset ident :=
  ⋃ ((λ r, opt_set (present (session_id r))) <$> data).

(** The identifiers of a set can be sorted: they are all integers or all
    strings. *)
Definition comparable (s : gset ident) : Prop :=
  (∀ x, x ∈ s → is_int x = true) ∨ (∀ x, x ∈ s → is_str x = true).

(** Sum of [weight] over all TransitionEdges. *)
Definition total_weight (m : gmap (nat * nat) edge) : nat :=
  map_fold (λ _ v n, weight v + n) 0 m.

(** The pair of dense ids an event counts towards, if any. *)
Definition edge_key (idm : gmap ident nat) (r : event) : option (nat * nat) :=
  x2 ← present (next_item_id r); x1 ← item_id r;
  i1 ← idm !! x1; i2 ← idm !! x2; Some (i1, i2).

(** The session string an event adds to the evidence of its edge. *)
Definition evidence_of (r : event) : gset string :=
  match present (session_id r) with Some s => {[ str s ]} | None => ∅ end.

Definition bump (r : event) (v : edge) : edge :=
  Edge (weight v + 1) (sessions v ∪ evidence_of r).

Definition next_step (idm : gmap ident nat) (m : gmap (nat * nat) edge)
    (r : event) : gmap (nat * nat) edge :=
  match edge_key idm r with
  | Some k => <[k := bump r (default default_edge (m !! k))]> m
  | None => m
  end.

(** The events of the list that count towards the pair [k]. *)
Definition hits (idm : gmap ident nat) (k : nat * nat) (data : list event)
  : list event :=
  filter (λ r, edge_key idm r = Some k) data.

(** The containment pair of an event, if any. *)
Definition contains_key (sm idm : gmap ident nat) (r : event)
  : option (nat * nat) :=
  s ← present (session_id r); x ← item_id r;
  sid ← sm !! s; iid ← idm !! x; Some (sid, iid).

Definition opt_pair (o : option (nat * nat)) : gset (nat * nat) :=
  match o with Some p => {[ p ]} | None => ∅ end.

Definition contains_set (sm idm : gmap ident nat) (data : list event)
  : gset (nat * nat) :=
  ⋃ ((λ r, opt_pair (contains_key sm idm r)) <$> data).

(** Every identifier the loops look up for [r] has a dense id. *)
Definition covered (idm : gmap ident nat) (r : event) : Prop :=
  is_Some (item_id r) ∧
  opt_set (item_id r) ∪ opt_set (present (next_item_id r)) ⊆ dom idm.

Definition session_covered (sm : gmap ident nat) (r : event) : Prop :=
  opt_set (present (session_id r)) ⊆ dom sm.

(** The script in closed form: what lines 15-55 compute, stage by
    stage. *)
Definition build_closed (data : list event) : result graph :=
  if decide (Forall (λ r, is_Some (item_id r)) data) then
    items_list ← sorted_set (item_identifiers data);
    let id_map := dict_of_enumerate items_list in
    sessions ← sorted_set (session_identifiers data);
    let session_map := dict_of_enumerate sessions in
    Ok (Graph items_list id_map (foldl (next_step id_map) ∅ data)
              sessions session_map (contains_set session_map id_map data))
  else Raise (KeyError (IStr "item_id")).

(** The character [c] occurs in [s]. *)
Fixpoint occurs (c : ascii) (s : string) : bool :=
  match s with
  | EmptyString => false
  | String a s' => Ascii.eqb a c || occurs c s'
  end.

(** A string that can stand in a list-valued column: it holds neither the
    list separator nor a field or line separator. *)
Definition separator_free (s : string) : Prop :=
  occurs ";"%char s = false ∧ occurs "009"%char s = false ∧
  occurs "010"%char s = false.

(** Concatenation of the pieces written to a file. *)
Definition flat (l : list string) : string := foldr String.append EmptyString l.

Definition is_digit (c : ascii) : bool :=
  existsb (λ a, Ascii.eqb a c)
    ["0"; "1"; "2"; "3"; "4"; "5"; "6"; "7"; "8"; "9"]%char.

(** A row of the [next] and [contains] files without its line feed. *)
Definition next_body `{Iteration} (kv : (nat * nat) * edge) : string :=
  str_nat kv.1.1 +:+ TAB +:+ str_nat kv.1.2 +:+ TAB +:+ str_nat (weight kv.2)
    +:+ TAB +:+ join ";" (sessions_iter kv.1 (sessions kv.2)).

Definition contains_body (p : nat * nat) : string :=
  str_nat p.1 +:+ TAB +:+ str_nat p.2.

(** The header lines without their line feed. *)
Definition items_hline : string := ":ID(Item)" +:+ TAB +:+ ":LABEL".
Definition next_hline : string :=
  ":START_ID(Item)" +:+ TAB +:+ ":END_ID(Item)" +:+ TAB +:+ "weight:int"
    +:+ TAB +:+ "sessions:string[]".
Definition contains_hline : string :=
  ":START_ID(Session)" +:+ TAB +:+ ":END_ID(Item)".

(** The headers as the specification prints them. *)
Definition spec_items_hline : string := "ID" +:+ TAB +:+ "LABEL".
Definition spec_next_hline : string :=
  "START_ID" +:+ TAB +:+ "END_ID" +:+ TAB +:+ "weight:int"
    +:+ TAB +:+ "sessions:string[]".

(** An evidence set whose strings survive the [sessions] column. *)
Definition evidence_ok (ss : gset string) : Prop :=
  ∀ s, s ∈ ss → separator_free s ∧ s ≠ EmptyString.

End Spec.

(** ** Re-parsing the interchange files *)

Module Reparse.
Import BuildBulk.

(** Modelled from the spec: the reader of the interchange files, which the
    repository does not contain.  It follows section 6: lines end with a
    line feed, fields are separated by tabs without quoting, the
    [sessions] column is a list separated by [;], numbers are decimal, and
    the lookup index is read back as JSON, whose object keys are
    strings. *)
Fixpoint split (c : ascii) (s : string) : list string :=
  match s with
  | EmptyString => [EmptyString]
  | String a s' =>
      if Ascii.eqb a c then EmptyString :: split c s'
      else match split c s' with
           | h :: t => String a h :: t
           | [] => [String a EmptyString]
           end
  end.

(** Modelled from the spec: the lines of a file, each ended by a line
    feed. *)
Definition lines (text : string) : list string :=
  let l := split "010"%char text in
  match last l with
  | Some EmptyString => removelast l
  | _ => l
  end.

(** Modelled from the spec: a decimal number. *)
Definition parse_nat (s : string) : option nat :=
  Nat.of_uint <$> NilZero.uint_of_string s.

(** Modelled from the spec: the [sessions:string[]] column. *)
Definition parse_sessions (s : string) : gset string :=
  if decide (s = EmptyString) then ∅ else list_to_set (split ";"%char s).

(** Modelled from the spec: one row of the [next] file. *)
Definition parse_next_row (row : string) : option ((nat * nat) * edge) :=
  match split "009"%char row with
  | [a; b; w; sess] =>
      i1 ← parse_nat a; i2 ← parse_nat b; n ← parse_nat w;
      Some ((i1, i2), Edge n (parse_sessions sess))
  | _ => None
  end.

(** Modelled from the spec: one row of the [contains] file. *)
Definition parse_contains_row (row : string) : option (nat * nat) :=
  match split "009"%char row with
  | [a; b] => s ← parse_nat a; i ← parse_nat b; Some (s, i)
  | _ => None
  end.

(** Modelled from the spec: a file is its header line followed by rows. *)
Definition parse_rows {A : Type} (header : string) (row : string → option A)
    (text : string) : option (list A) :=
  match lines text with
  | h :: rows => if decide (h +:+ LF = header) then mapM row rows else None
  | [] => None
  end.

(** Modelled from the spec: the TransitionEdge map read back from the
    [next] file. *)
Definition parse_next (text : string) : option (gmap (nat * nat) edge) :=
  rows ← parse_rows next_header parse_next_row text;
  Some (foldl (λ m kv, <[kv.1 := kv.2]> m) ∅ rows).

(** Modelled from the spec: the ContainmentEdge set read back from the
    [contains] file. *)
Definition parse_contains (text : string) : option (gset (nat * nat)) :=
  rows ← parse_rows contains_header parse_contains_row text;
  Some (list_to_set rows).

(** Modelled from the spec: an identity table read back from the lookup
    index.  The keys of a JSON object are strings, so every identifier
    comes back as a string. *)
Definition load_table (members : list (string * nat)) : gmap ident nat :=
  foldl (λ m kv, <[IStr kv.1 := kv.2]> m) ∅ members.

End Reparse.

(** ** driver.py: [Neo4jDriver.execute_batch] *)

Module Driver.

(** Local constants of [execute_batch] (lines 93-94). *)
#[warnings="-abstract-large-number"]
Definition CHUNK_SIZE : nat := 10000.
Definition MAX_RETRIES : nat := 3.

(** [summary.counters] of one committed write. *)
Record counters : Type := Counters {
  nodes_created : nat;
  relationships_created : nat;
  properties_set : nat
}.

(** The [overall] dictionary. *)
Record totals : Type := Totals { nodes : nat; rels : nat; props : nat }.

(** What an exception raised inside the [try] block can be: the two
    classes the inner handler names, the [ValueError] of a zero step in
    [range], or anything else the store raises. *)
Inductive fault : Type :=
| ServiceUnavailable
| SessionExpired
| ValueError
| OtherError (code : nat).

Definition transient (f : fault) : bool :=
  match f with
  | ServiceUnavailable | SessionExpired => true
  | ValueError | OtherError _ => false
  end.

Inductive outcome : Type :=
| Summary (c : counters)
| Fails (f : fault).

(** [range(start, stop, step)] for a positive step. *)
Fixpoint range_from (fuel i stop step : nat) : list nat :=
  match fuel with
  | 0 => []
  | S fuel' =>
      if i <? stop then i :: range_from fuel' (i + step) stop step else []
  end.

Definition py_range (start stop step : nat) : list nat :=
  range_from stop start stop step.

(** [l[i:j]] *)
Definition slice {A : Type} (l : list A) (i j : nat) : list A :=
  take (j - i) (drop i l).

(** The least number of windows of size [w] that cover [n] records. *)
Definition ceil_div (n w : nat) : nat := (n + w - 1) / w.

(** The chunks the loop of [execute_batch] goes through (lines 113-114). *)
Definition chunk_list {A : Type} (w : nat) (batch : list A) : list (list A) :=
  (λ i, slice batch i (i + w)) <$> py_range 0 (length batch) w.

Section execute_batch.
Context {R : Type}.

(** [session.execute_write(_batch_tx, chunk)]: the outcome of the call
    number [n] (counted from 0 within one load) on the given chunk. *)
Variable execute_write : nat → list R → outcome.

(** Window size and retry bound; the code fixes them to [CHUNK_SIZE] and
    [MAX_RETRIES]. *)
Variable chunk_size max_retries : nat.

(** State of one load: the [overall] counters, and a trace of what the
    loop did: every chunk handed to [execute_write] and every argument of
    [time.sleep], in order. *)
Record state : Type := State {
  overall : totals;
  submitted : list (list R);
  slept : list nat
}.

Definition init : state := State (Totals 0 0 0) [] [].

Definition accumulate (o : totals) (c : counters) : totals :=
  Totals (nodes o + nodes_created c) (rels o + relationships_created c)
         (props o + properties_set c).

(** [k] calls in a row, from call number [n0] on, fail with a transient
    fault. *)
Definition transient_run (n0 k : nat) (chunk : list R) : Prop :=
  ∀ j, j < k → ∃ f, execute_write (n0 + j) chunk = Fails f ∧ transient f = true.

(** The state after [k] failed attempts numbered [a], [a+1], ... *)
Definition after_retries (st : state) (a k : nat) (chunk : list R) : state :=
  State (overall st) (submitted st ++ replicate k chunk)
        (slept st ++ (Nat.pow 2 <$> seq a k)).

(** The body of [for attempt in range(MAX_RETRIES)] (lines 116-145), over
    the attempts still to run.  [inl] is normal termination of the loop,
    [inr] an exception leaving it. *)
Fixpoint attempts (todo : list nat) (chunk : list R) (st : state)
  : state + (fault * state) :=
  match todo with
  | [] => inl st
  | attempt :: todo' =>
      let st1 := State (overall st) (submitted st ++ [chunk]) (slept st) in
      match execute_write (length (submitted st)) chunk with
      | Summary c =>
          inl (State (accumulate (overall st1) c) (submitted st1) (slept st1))
      | Fails f =>
          if transient f then
            let wait := 2 ^ attempt in
            let st2 := State (overall st1) (submitted st1) (slept st1 ++ [wait]) in
            if decide (attempt = max_retries - 1) then inr (f, st2)
            else attempts todo' chunk st2
          else inr (f, st1)
      end
  end.

(** The body of [for i in range(0, total, CHUNK_SIZE)] (lines 113-145). *)
Fixpoint chunks (starts : list nat) (batch : list R) (st : state)
  : state + (fault * state) :=
  match starts with
  | [] => inl st
  | i :: starts' =>
      let chunk := slice batch i (i + chunk_size) in
      match attempts (seq 0 max_retries) chunk st with
      | inl st' => chunks starts' batch st'
      | inr e => inr e
      end
  end.

(** What the caller of [execute_batch] gets: the summary-like object [S]
    built from [overall], or the exception, which the outer handler logs
    and raises again.  The specification calls the latter [LoadFailed]. *)
Inductive load_result : Type :=
| Returned (c : counters)
| LoadFailed (cause : fault).

Definition execute_batch_with (batch : list R) : load_result * state :=
  let total := length batch in
  if decide (chunk_size = 0) then (LoadFailed ValueError, init)
  else
    match chunks (py_range 0 total chunk_size) batch init with
    | inl st =>
        (Returned (Counters (nodes (overall st)) (rels (overall st))
                            (props (overall st))), st)
    | inr (f, st) => (LoadFailed f, st)
    end.

(** The calls of a trace that returned a summary, each with its chunk
    and the counters it reported: the commits the loader is told of.  The
    call number of a chunk is its position in the trace.  What a call
    that raised has left in the store is not visible to the loader and
    is not recorded. *)
Definition commits (trace : list (list R)) : list (list R * counters) :=
  omap (λ p, match execute_write p.1 p.2 with
             | Summary c => Some (p.2, c)
             | Fails _ => None
             end) (enumerate trace).

End execute_batch.

Definition execute_batch {R : Type} (execute_write : nat → list R → outcome)
    (batch : list R) : load_result * state :=
  execute_batch_with execute_write CHUNK_SIZE MAX_RETRIES batch.

End Driver.

(** ** driver.py: [Neo4jDriver.__init__], [close] and [main] *)

Module Cli.
Import Driver.

(** A string that is set: [os.getenv] and [argparse] give [None] for what
    is absent, and the empty string is as false as [None]. *)
Definition nonempty (o : option string) : option string :=
  match o with
  | Some s => if String.eqb s EmptyString then None else Some s
  | None => None
  end.

Section cli.
(** Records of a batch file, rows of a read, summary of a write, query
    parameters. *)
Context {R V S P : Type}.

(** What [print] is given. *)
Inductive output : Type :=
| Rows (result : V)
| WriteComplete (result : S)
| BatchComplete
| NodesCreated (n : nat)
| Relationships (n : nat)
| Properties (n : nat).

(** What the program does to the world, in order. *)
Inductive effect : Type :=
| DriverCreated (uri user password : string)
| ReadRun (q : string) (p : P)
| WriteRun (q : string) (p : P)
| FileOpened (path : string)
| BatchRun (q : string) (calls : list (list R)) (waits : list nat)
| Printed (o : output)
| HelpPrinted
| ErrorLogged (e : fault)
| DriverClosed.

(** The world the program runs in: the variables of [.env], and how each
    operation the program does not define itself ends.  An exception is a
    [fault]; [base_only] tells which of the other exceptions are outside
    the class [Exception], as [KeyboardInterrupt] is. *)
Record environment : Type := Environment {
  NEO4J_URI : option string;
  NEO4J_USER : option string;
  NEO4J_PASSWORD : option string;
  NEO4J_DATABASE : option string;
  verify_connectivity : option fault;
  execute_read : string → P → fault + V;
  execute_write_query : string → P → fault + S;
  json_load : string → fault + list R;
  execute_write : nat → list R → outcome;
  stdout : output → option fault;
  driver_close : option fault;
  base_only : nat → bool
}.

(** [isinstance(e, Exception)] *)
Definition is_Exception (env : environment) (e : fault) : bool :=
  match e with
  | OtherError code => negb (base_only env code)
  | ServiceUnavailable | SessionExpired | ValueError => true
  end.

(** The namespace [parse_args] returns. *)
Record arguments : Type := Args {
  read : option string;
  write : option string;
  query : option string;
  batch : option string;
  params : P
}.

(** How a block of statements ends: it runs to its end, it executes
    [return], or it raises. *)
Inductive signal (A : Type) : Type :=
| Normal (a : A)
| Returns (code : Z)
| Raises (e : fault).

Definition action (A : Type) : Type := list effect → signal A * list effect.

Definition ret {A : Type} (a : A) : action A := λ t, (Normal A a, t).

Definition bind {A B : Type} (m : action A) (k : A → action B) : action B :=
  λ t, match m t with
       | (Normal _ a, t') => k a t'
       | (Returns _ code, t') => (Returns B code, t')
       | (Raises _ e, t') => (Raises B e, t')
       end.

Definition emit (x : effect) : action unit := λ t, (Normal unit tt, t ++ [x]).

Definition return_ {A : Type} (code : Z) : action A := λ t, (Returns A code, t).

Definition raise {A : Type} (e : fault) : action A := λ t, (Raises A e, t).

(** An operation of the world that gives a value or raises. *)
Definition lift {A : Type} (o : fault + A) : action A :=
  match o with inl e => raise e | inr a => ret a end.

Definition check (o : option fault) : action unit :=
  match o with Some e => raise e | None => ret tt end.

(** [try: body except Exception as e: handler] *)
Definition try_except (env : environment) (body : action unit)
    (handler : fault → action unit) : action unit :=
  λ t, match body t with
       | (Raises _ e, t') =>
           if is_Exception env e then handler e t' else (Raises unit e, t')
       | r => r
       end.

(** [try: body finally: final].  The [finally] block runs however the
    body ended; when it ends with [return] or raises, that replaces the
    way the body ended, otherwise the body's [return] or exception goes
    on. *)
Definition try_finally (body final : action unit) : action unit :=
  λ t, let (s, t') := body t in
       match final t' with
       | (Normal _ _, t'') => (s, t'')
       | r => r
       end.

(** [Neo4jDriver.__init__] (lines 31-46) *)
Definition init (env : environment) : action unit :=
  match nonempty (NEO4J_URI env), nonempty (NEO4J_USER env),
        nonempty (NEO4J_PASSWORD env) with
  | Some uri, Some user, Some password =>
      bind (emit (DriverCreated uri user password))
           (λ _, check (verify_connectivity env))
  | _, _, _ => raise ValueError
  end.

(** [Neo4jDriver.close] (lines 48-51) *)
Definition close (env : environment) : action unit :=
  bind (emit DriverClosed) (λ _, check (driver_close env)).

(** [Neo4jDriver.read_query] (lines 56-63) and [write_query] (lines
    68-75) *)
Definition read_query (env : environment) (q : string) (p : P) : action V :=
  bind (emit (ReadRun q p)) (λ _, lift (execute_read env q p)).

Definition write_query (env : environment) (q : string) (p : P) : action S :=
  bind (emit (WriteRun q p)) (λ _, lift (execute_write_query env q p)).

(** [Neo4jDriver.execute_batch] as a step of the program: the load of
    [Driver.execute_batch], which returns counters or raises. *)
Definition execute_batch_call (env : environment) (q : string)
    (batch_data : list R) : action counters :=
  let r := Driver.execute_batch (execute_write env) batch_data in
  bind (emit (BatchRun q (submitted r.2) (slept r.2)))
       (λ _, match r.1 with
             | Returned c => ret c
             | LoadFailed e => raise e
             end).

(** [print(...)]; the encoding of the value, as [json.dumps] does it for
    the rows of a read, is part of the operation. *)
Definition print (env : environment) (o : output) : action unit :=
  bind (emit (Printed o)) (λ _, check (stdout env o)).

(** The body of the [try] statement of [main] (lines 184-200). *)
Definition command (env : environment) (args : arguments) : action unit :=
  match nonempty (read args) with
  | Some q =>
      bind (read_query env q (params args)) (λ result, print env (Rows result))
  | None =>
  match nonempty (write args) with
  | Some q =>
      bind (write_query env q (params args))
           (λ result, print env (WriteComplete result))
  | None =>
  match nonempty (batch args), nonempty (query args) with
  | Some path, Some q =>
      bind (bind (emit (FileOpened path)) (λ _, lift (json_load env path)))
        (λ batch_data,
      bind (execute_batch_call env q batch_data) (λ summary,
      bind (print env BatchComplete) (λ _,
      bind (print env (NodesCreated (nodes_created summary))) (λ _,
      bind (print env (Relationships (relationships_created summary))) (λ _,
      print env (Properties (properties_set summary)))))))
  | _, _ => bind (emit HelpPrinted) (λ _, return_ 1%Z)
  end
  end
  end.

(** [main] (lines 172-207), after [parse_args]. *)
Definition main (env : environment) (args : arguments) : action unit :=
  bind (init env) (λ _,
    try_finally
      (try_except env (command env args)
         (λ e, bind (emit (ErrorLogged e)) (λ _, return_ 1%Z)))
      (bind (close env) (λ _, return_ 0%Z))).




End cli.

End Cli.

(** ** generate_batch.py *)

Module GenerateBatch.

(** A row of the sessions frame: the columns the script reads.  The
    identifiers are integers, as [int(...)] requires. *)
Record row : Type := Row { session_id : Z; position : Z; item_id : Z }.

(** The order of [sort_values(["session_id", "position"])]. *)
Definition key_le (a b : row) : Prop :=
  (session_id a < session_id b)%Z ∨
  (session_id a = session_id b ∧ (position a ≤ position b)%Z).

#[global] Instance key_le_dec : RelDecision key_le.
Proof. intros a b. unfold key_le. apply _. Defined.

(** [sort_values] on two columns: some rearrangement of the rows that is
    in order; which one, when two rows agree on both columns, is left to
    the library. *)
Class Sorting : Type := {
  sort_values : list row → list row;
  sort_values_perm : ∀ df, sort_values df ≡ₚ df;
  sort_values_sorted : ∀ df, Sorted key_le (sort_values df)
}.

(** [df.groupby("session_id")]: the groups in ascending order of the key,
    each with its rows in the order of the frame. *)
Definition groupby (df : list row) : list (Z * list row) :=
  (λ s, (s, filter (λ r, session_id r = s) df)) <$>
    merge_sort Z.le (remove_dups (session_id <$> df)).

(** The inner loop (lines 19-26) on one group. *)
Definition session_events (s : Z) (items : list Z) : list event :=
  imap (λ i x, Event (Some (IInt s)) (Some (IInt x))
                     (IInt <$> items !! (i + 1))) items.

(** Lines 13-26: the list [batch]. *)
Definition generate_batch `{Sorting} (df : list row) : list event :=
  mjoin ((λ g, session_events g.1 (item_id <$> g.2)) <$>
         groupby (sort_values df)).

End GenerateBatch.

(** An event list in which every event points at the item of the event
    after it when that one is of the same session, and at nothing
    otherwise. *)
Definition chained (batch : list event) : Prop :=
  ∀ j e, batch !! j = Some e →
    next_item_id e =
      match batch !! S j with
      | Some e' =>
          if decide (session_id e' = session_id e) then item_id e' else None
      | None => None
      end.

(** ** sessionizer.py: [Sessionizer.sessionize] *)

Module Sessionizer.

(** A row of the frame [load_raw_chunked] returns, without the category
    column, which [sessionize] drops.  A timestamp is an instant on a
    line. *)
Record click : Type := Click { session_id : Z; timestamp : Z; item_id : Z }.

(** The order of [sort_values(["session_id", "timestamp"])]. *)
Definition time_le (a b : click) : Prop :=
  (session_id a < session_id b)%Z ∨
  (session_id a = session_id b ∧ (timestamp a ≤ timestamp b)%Z).

#[global] Instance time_le_dec : RelDecision time_le.
Proof. intros a b. unfold time_le. apply _. Defined.

Class Sorting : Type := {
  sort_values : list click → list click;
  sort_values_perm : ∀ df, sort_values df ≡ₚ df;
  sort_values_sorted : ∀ df, Sorted time_le (sort_values df)
}.

(** [df.groupby("session_id").size()] and [df.groupby("item_id").size()],
    at a key. *)
Definition session_size (df : list click) (s : Z) : nat :=
  length (filter (λ r, session_id r = s) df).

Definition item_count (df : list click) (i : Z) : nat :=
  length (filter (λ r, item_id r = i) df).

(** [df[df["session_id"].isin(valid_sessions)]] (lines 80-82, 91-93) and
    [df[df["item_id"].isin(keep_items)]] (lines 86-88). *)
Definition keep_sessions (n : Z) (df : list click) : list click :=
  filter (λ r, (n ≤ Z.of_nat (session_size df (session_id r)))%Z) df.

Definition keep_items (n : Z) (df : list click) : list click :=
  filter (λ r, (n ≤ Z.of_nat (item_count df (item_id r)))%Z) df.

(** A row of the frame [sessionize] returns. *)
Record placed : Type := Placed { row : click; position : Z }.

(** [df.groupby("session_id").cumcount()]: the number of earlier rows of
    the same session. *)
Definition cumcount (df : list click) : list placed :=
  imap (λ j r, Placed r (Z.of_nat (session_size (take j df) (session_id r)))) df.

(** [sessionize] (lines 69-100) *)
Definition sessionize `{Sorting} (min_session_length min_item_freq : Z)
    (df : list click) : list placed :=
  let df := sort_values df in
  let df := keep_sessions min_session_length df in
  let df := keep_items min_item_freq df in
  let df := keep_sessions min_session_length df in
  cumcount df.

End Sessionizer.

(** The columns [generate_batch.py] reads from the frame [run_pipeline]
    has saved. *)
Definition read_parquet (p : Sessionizer.placed) : GenerateBatch.row :=
  GenerateBatch.Row (Sessionizer.session_id (Sessionizer.row p))
                    (Sessionizer.position p)
                    (Sessionizer.item_id (Sessionizer.row p)).

(** ** split.py: [SessionSplitter.temporal_split] *)

Module Split.

Definition session_of (p : Sessionizer.placed) : Z :=
  Sessionizer.session_id (Sessionizer.row p).

Definition time_of (p : Sessionizer.placed) : Z :=
  Sessionizer.timestamp (Sessionizer.row p).

(** [max] of a column of a group; a group is never empty. *)
Definition column_max (l : list Z) : Z :=
  match l with
  | [] => 0
  | x :: l' => foldr Z.max x l'
  end.

(** The last timestamp of a session of the frame. *)
Definition last_ts (df : list Sessionizer.placed) (s : Z) : Z :=
  column_max (time_of <$> filter (λ p, session_of p = s) df).

(** [df.groupby("session_id")["timestamp"].max()] (line 31): a series
    indexed by session, in ascending order of the sessions. *)
Definition session_max_ts (df : list Sessionizer.placed) : list (Z * Z) :=
  (λ s, (s, last_ts df s)) <$> merge_sort Z.le (remove_dups (session_of <$> df)).

(** [Series.sort_values()] (line 32): some rearrangement of the entries
    in ascending order of the values. *)
Definition value_le (a b : Z * Z) : Prop := (a.2 ≤ b.2)%Z.

#[global] Instance value_le_dec : RelDecision value_le.
Proof. intros a b. unfold value_le. apply _. Defined.

Class Sorting : Type := {
  sort_values : list (Z * Z) → list (Z * Z);
  sort_values_perm : ∀ series, sort_values series ≡ₚ series;
  sort_values_sorted : ∀ series, Sorted value_le (sort_values series)
}.

(** Where [iloc[:c]] ends and [iloc[c:]] begins in a series of [n]
    entries: a negative [c] counts from the end. *)
Definition slice_index (c : Z) (n : nat) : nat :=
  if (c <? 0)%Z then Z.to_nat (Z.of_nat n + c) else Z.to_nat c.

(** [temporal_split] (lines 25-48).  [scale n] stands for
    [int(n * (1 - self.test_ratio))], a computation on floats.  [None]
    stands for the [AssertionError] of line 46. *)
Definition temporal_split `{Sorting} (scale : nat → Z)
    (df : list Sessionizer.placed)
  : option (list Sessionizer.placed * list Sessionizer.placed) :=
  let session_max_ts := sort_values (session_max_ts df) in
  let cutoff_idx := scale (length session_max_ts) in
  let k := slice_index cutoff_idx (length session_max_ts) in
  let train_sessions := (take k session_max_ts).*1 in
  let test_sessions := (drop k session_max_ts).*1 in
  let train_df := filter (λ p, session_of p ∈ train_sessions) df in
  let test_df := filter (λ p, session_of p ∈ test_sessions) df in
  if decide ((list_to_set train_sessions : gset Z) ## list_to_set test_sessions)
  then Some (train_df, test_df)
  else None.

End Split.

(** ** models: [BaseRecommender], [RICModel], [HSPModel] *)

Module Recommender.

Section recommender.
(** Scores are floats.  Nothing is assumed of their arithmetic: [fzero]
    is the [0] a sum starts from, [fadd] and [fdiv] are [+] and [/], and
    [is_zero s] is [s == 0].  Their comparison comes in with the sort. *)
Context {F : Type}.
Variables (fzero : F) (fadd fdiv : F → F → F) (is_zero : F → bool).

(** A [dict] from items to scores: its entries in insertion order, no key
    twice. *)
Definition scores : Type := list (Z * F).

(** [d.get(k)] *)
Fixpoint dict_get (k : Z) (d : scores) : option F :=
  match d with
  | [] => None
  | (k', v) :: d' => if decide (k' = k) then Some v else dict_get k d'
  end.

(** [d[k] = v]: a key that is there keeps its place. *)
Fixpoint dict_set (k : Z) (v : F) (d : scores) : scores :=
  match d with
  | [] => [(k, v)]
  | (k', v') :: d' =>
      if decide (k' = k) then (k, v) :: d' else (k', v') :: dict_set k v d'
  end.

(** [d.pop(k, None)] *)
Definition dict_pop (k : Z) (d : scores) : scores :=
  filter (λ p, p.1 ≠ k) d.

(** [self.db.read_query(QUERY, {"item": item})]: the rows [(item, w)] the
    read number [n] of a call returns, with [w] already a float, or the
    exception it raises. *)
Variable read_query : nat → Z → result (list (Z * F)).

(** [RICModel.score] (lines 18-27): the loop over the session, with the
    items queried so far. *)
Definition add_row (d : scores) (r : Z * F) : scores :=
  dict_set r.1 (fadd (default fzero (dict_get r.1 d)) r.2) d.

Fixpoint ric_loop (session_items : list Z) (d : scores) (queried : list Z)
  : result scores * list Z :=
  match session_items with
  | [] => (Ok d, queried)
  | item :: rest =>
      match read_query (length queried) item with
      | Ok rows => ric_loop rest (foldl add_row d rows) (queried ++ [item])
      | Raise e => (Raise e, queried ++ [item])
      end
  end.

Definition ric_score (session_items : list Z) : result scores * list Z :=
  ric_loop session_items [] [].

(** [HSPModel.score] (lines 19-28) *)
Definition hsp_score (session_items : list Z) : result scores * list Z :=
  match last session_items with
  | None => (Ok [], [])
  | Some last_item =>
      match read_query 0 last_item with
      | Ok rows => (Ok (foldl (λ d r, dict_set r.1 r.2 d) [] rows), [last_item])
      | Raise e => (Raise e, [last_item])
      end
  end.

(** [BaseRecommender.normalize] (lines 24-26) *)
Definition normalize (d : scores) : scores :=
  let s := foldl fadd fzero d.*2 in
  if is_zero s then d else (λ p, (p.1, fdiv p.2 s)) <$> d.

(** [sort_values("score", ascending=False)]: a rearrangement of the rows
    in which no row has a lower score than the next.  [fle a b] is
    [a <= b] on scores, as the sort compares them: a score that is not a
    number counts as below every number, such rows going last.  Like the
    arithmetic, the comparison is a parameter of which nothing is
    assumed; which of two rows with equal scores comes first is left
    open. *)
Class Ranking (fle : F → F → Prop) : Type := {
  sort_values : list (Z * F) → list (Z * F);
  sort_values_perm : ∀ rows, sort_values rows ≡ₚ rows;
  sort_values_sorted :
    ∀ rows, Sorted (λ a b, fle b.2 a.2) (sort_values rows)
}.

(** [df.head(k)]: a negative [k] leaves out the last rows. *)
Definition head (k : Z) (rows : list (Z * F)) : list (Z * F) :=
  take (Split.slice_index k (length rows)) rows.

(** [BaseRecommender.recommend] (lines 28-46), for a given [score].  A
    frame without rows has no column either, and sorting it by ["score"]
    raises [KeyError]. *)
Definition recommend {fle : F → F → Prop} `{!Ranking fle}
    (score : list Z → result scores * list Z)
    (session_items : list Z) (k : Z) : result (list (Z * F)) * list Z :=
  match session_items with
  | [] => (Ok [], [])
  | _ :: _ =>
      match score session_items with
      | (Ok raw, queried) =>
          let d := foldl (λ d i, dict_pop i d) (normalize raw) session_items in
          match d with
          | [] => (Raise (KeyError (IStr "score")), queried)
          | _ :: _ => (Ok (head k (sort_values d)), queried)
          end
      | (Raise e, queried) => (Raise e, queried)
      end
  end.

End recommender.

End Recommender.

Import BuildBulk.

(** ** Concrete inputs *)

Definition ev (s i : Z) (n : option Z) : event :=
  Event (Some (IInt s)) (Some (IInt i)) (IInt <$> n).

(** The events of the concrete scenario of section 8. *)
Definition scenario : list event :=
  [ev 1 10 (Some 20); ev 1 20 None; ev 2 10 (Some 30)]%Z.

(** The same shape with string identifiers. *)
Definition string_scenario : list event :=
  [Event (Some (IStr "s1")) (Some (IStr "a")) (Some (IStr "b"));
   Event (Some (IStr "s2")) (Some (IStr "a")) (Some (IStr "b"));
   Event (Some (IStr "s1")) (Some (IStr "b")) None].

(** One iteration order: the one of stdpp's enumerations. *)
#[local] Instance canonical_iteration : Iteration.
Proof. by refine (Build_Iteration map_to_list (λ _, elements) elements _ _ _). Defined.

(** A write operation whose call number 1 fails with the given fault and
    whose other calls succeed, reporting one node per record. *)
Definition flaky (f : Driver.fault) (n : nat) (c : list nat) : Driver.outcome :=
  if decide (n = 1) then Driver.Fails f
  else Driver.Summary (Driver.Counters (length c) 0 1).

(** One way to sort: stdpp's merge sort on the two columns. *)
#[local] Instance merge_sorting : GenerateBatch.Sorting.
Proof.
  refine (GenerateBatch.Build_Sorting (merge_sort GenerateBatch.key_le) _ _).
  - apply merge_sort_Permutation.
  - intros df. apply Sorted_merge_sort.
    intros a b. unfold GenerateBatch.key_le. lia.
Defined.

(** One way to sort clicks: stdpp's merge sort on session and time. *)
#[local] Instance merge_click_sorting : Sessionizer.Sorting.
Proof.
  refine (Sessionizer.Build_Sorting (merge_sort Sessionizer.time_le) _ _).
  - apply merge_sort_Permutation.
  - intros df. apply Sorted_merge_sort.
    intros a b. unfold Sessionizer.time_le. lia.
Defined.

(** Clicks of three sessions; session 3 is short, item 30 is rare. *)
Definition clicks : list Sessionizer.click :=
  [Sessionizer.Click 2 5 10; Sessionizer.Click 1 1 10;
   Sessionizer.Click 1 2 20; Sessionizer.Click 2 6 20;
   Sessionizer.Click 3 7 10; Sessionizer.Click 1 3 30]%Z.

(** One way to sort a series: stdpp's merge sort on the values. *)
#[local] Instance merge_series_sorting : Split.Sorting.
Proof.
  refine (Split.Build_Sorting (merge_sort Split.value_le) _ _).
  - apply merge_sort_Permutation.
  - intros series. apply Sorted_merge_sort.
    intros a b. unfold Split.value_le. lia.
Defined.

(** Four fifths, rounded down: what [int(n * (1 - 0.2))] is meant to be. *)
Definition four_fifths (n : nat) : Z := (Z.of_nat n * 4 / 5)%Z.

(** Scores that are integers, ranked from high to low: enough to run the
    models. *)
Definition higher (a b : Z * Z) : Prop := (b.2 ≤ a.2)%Z.

#[local] Instance higher_dec : RelDecision higher.
Proof. intros a b. unfold higher. apply _. Defined.

#[local] Instance integer_ranking : Recommender.Ranking Z.le.
Proof.
  refine (Recommender.Build_Ranking Z.le (merge_sort higher) _ _).
  - apply merge_sort_Permutation.
  - intros rows. change (Sorted higher (merge_sort higher rows)).
    apply Sorted_merge_sort. intros a b. unfold higher. lia.
Defined.

(** A store in which every item has the two items after it as
    neighbours, the nearer one with the greater weight. *)
Definition neighbours (n : nat) (item : Z) : result (list (Z * Z)) :=
  Ok [((item + 1)%Z, 3%Z); ((item + 2)%Z, 1%Z)].

(** Scores that are exact fractions, compared as fractions and ranked
    from high to low. *)
Definition above (a b : Z * QArith_base.Q) : Prop := QArith_base.Qle b.2 a.2.

#[local] Instance above_dec : RelDecision above.
Proof. intros a b. unfold above, QArith_base.Qle. apply _. Defined.

#[local] Instance fraction_ranking : Recommender.Ranking QArith_base.Qle.
Proof.
  refine (Recommender.Build_Ranking QArith_base.Qle (merge_sort above) _ _).
  - apply merge_sort_Permutation.
  - intros rows. change (Sorted above (merge_sort above rows)).
    apply Sorted_merge_sort. intros a b. unfold above, QArith_base.Qle. lia.
Defined.

(** A store in which every item is followed by the next item with weight
    1 and by the one after it with weight 3. *)
Definition followers (n : nat) (item : Z) : result (list (Z * QArith_base.Q)) :=
  Ok [((item + 1)%Z, QArith_base.Qmake 1 1); ((item + 2)%Z, QArith_base.Qmake 3 1)].

(** Two sessions, given out of order. *)
Definition frame : list GenerateBatch.row :=
  [GenerateBatch.Row 2 0 10; GenerateBatch.Row 1 1 20;
   GenerateBatch.Row 1 0 10; GenerateBatch.Row 2 1 30]%Z.

(** A configured world whose store refuses every write with the given
    fault; everything else succeeds. *)
Definition refusing (e : Driver.fault) : @Cli.environment nat unit unit unit :=
  Cli.Environment (Some "bolt://localhost:7687") (Some "neo4j") (Some "secret")
    None None (λ _ _, inr tt) (λ _ _, inr tt) (λ _, inr [1; 2; 3])
    (λ _ _, Driver.Fails e) (λ _, None) None (λ _, false).

(** ** Properties of identity assignment *)

Section identity_facts.
Import BuildBulk Spec.
Implicit Types (data : list event) (r : event) (x : ident) (l : list ident).

#[global] Instance ident_le_total : Total ident_le.
Proof.
  intros [a|s] [b|t]; simpl; auto; [lia|].
  destruct (total String.le s t); auto.
Qed.

#[global] Instance ident_le_trans : Transitive ident_le.
Proof.
  intros [a|s] [b|t] [c|u]; simpl; try done; try lia.
  apply (transitivity (R:=String.le)).
Qed.

#[global] Instance ident_le_antisymm : AntiSymm (=) ident_le.
Proof.
  intros [a|s] [b|t]; simpl; try done.
  - intros. f_equal. lia.
  - intros H1 H2. f_equal. by apply (anti_symm String.le).
Qed.

(** The result of [sorted] depends on the elements only, not on the order
    in which the set hands them over. *)
Lemma py_sorted_perm l l' : l ≡ₚ l' → py_sorted l = py_sorted l'.
Proof.
  intros Hp. unfold py_sorted, homogeneous.
  assert (∀ f, forallb f l = forallb f l') as Hall.
  { intros f. induction Hp as [|y k k' _ IH|y z k|k k' k'' _ IH1 _ IH2]; simpl;
      [done|by rewrite IH|by destruct (f y), (f z)|congruence]. }
  rewrite !Hall. destruct (_ || _); [|done]. f_equal.
  apply (Sorted_unique ident_le).
  - apply Sorted_merge_sort, _.
  - apply Sorted_merge_sort, _.
  - by rewrite !merge_sort_Permutation.
Qed.

Lemma sorted_set_Ok (s : gset ident) l :
  sorted_set s = Ok l →
  l ≡ₚ elements s ∧ Sorted ident_le l ∧ NoDup l.
Proof.
  unfold sorted_set, py_sorted. destruct (homogeneous _); [|done].
  intros [= <-]. split; [apply merge_sort_Permutation|].
  split; [apply Sorted_merge_sort, _|].
  rewrite merge_sort_Permutation. apply NoDup_elements.
Qed.

Lemma enumerate_snoc {A} (l : list A) (y : A) :
  enumerate (l ++ [y]) = enumerate l ++ [(length l, y)].
Proof.
  unfold enumerate. rewrite length_app. simpl.
  rewrite Nat.add_1_r, seq_S. simpl.
  rewrite zip_with_app by (by rewrite length_seq). done.
Qed.

Lemma dict_of_enumerate_snoc l y :
  dict_of_enumerate (l ++ [y]) = <[y := length l]> (dict_of_enumerate l).
Proof. unfold dict_of_enumerate. by rewrite enumerate_snoc, foldl_snoc. Qed.

Lemma dict_of_enumerate_lookup l x i :
  NoDup l → dict_of_enumerate l !! x = Some i ↔ l !! i = Some x.
Proof.
  induction l as [|y l IH] using rev_ind; intros Hnd.
  - unfold dict_of_enumerate. simpl. by rewrite lookup_empty, lookup_nil.
  - apply NoDup_app in Hnd as (Hnd & Hfresh & _).
    rewrite dict_of_enumerate_snoc.
    destruct (decide (x = y)) as [->|Hne].
    + rewrite lookup_insert_eq. split.
      * intros [= <-]. by rewrite lookup_app_r, Nat.sub_diag.
      * intros Hi. f_equal.
        destruct (decide (i < length l)) as [Hlt|Hge].
        -- rewrite lookup_app_l in Hi by done.
           exfalso. eapply Hfresh; [|by left]. by eapply list_elem_of_lookup_2.
        -- apply lookup_lt_Some in Hi. rewrite length_app in Hi. simpl in Hi. lia.
    + rewrite lookup_insert_ne by done. rewrite IH by done. split.
      * intros Hi. rewrite lookup_app_l; [done|]. by eapply lookup_lt_Some.
      * intros Hi. destruct (decide (i < length l)) as [Hlt|Hge].
        -- by rewrite lookup_app_l in Hi.
        -- rewrite lookup_app_r in Hi by lia.
           destruct (i - length l) as [|n]; simpl in Hi; [congruence|].
           by rewrite lookup_nil in Hi.
Qed.

Lemma dict_of_enumerate_dom l : dom (dict_of_enumerate l) = list_to_set l.
Proof.
  induction l as [|y l IH] using rev_ind; [done|].
  rewrite dict_of_enumerate_snoc, dom_insert_L, IH, list_to_set_app_L.
  simpl. rewrite union_empty_r_L. apply (comm_L _).
Qed.

Lemma dict_of_enumerate_is_Some l x :
  x ∈ l → is_Some (dict_of_enumerate l !! x).
Proof.
  intros Hx. apply elem_of_dom. rewrite dict_of_enumerate_dom. set_solver.
Qed.

Lemma present_Some o x : present o = Some x → o = Some x ∧ truthy o = true.
Proof. unfold present. destruct (truthy o) eqn:Ht; [|done]. by intros ->. Qed.

Lemma present_None o : present o = None → truthy o = false.
Proof. unfold present. destruct (truthy o) eqn:Ht; [|done]. by destruct o. Qed.

Lemma present_truthy o : truthy (present o) = truthy o.
Proof. unfold present. by destruct (truthy o) eqn:Ht. Qed.

Lemma present_idemp o : present (present o) = present o.
Proof. unfold present at 1. rewrite present_truthy. unfold present. by destruct (truthy o). Qed.

(** *** The three loops as folds *)

Lemma for_each_ext {A S} (f g : S → A → result S) (xs : list A) acc :
  (∀ a y, y ∈ xs → f a y = g a y) → for_each f xs acc = for_each g xs acc.
Proof.
  revert acc. induction xs as [|y xs IH]; intros acc Hfg; simpl; [done|].
  rewrite Hfg by left. destruct (g acc y) as [acc'|e]; simpl; [|done].
  apply IH. intros a z Hz. apply Hfg. by right.
Qed.

Lemma for_each_fmap {A B S} (h : A → B) (f : S → B → result S) (xs : list A) acc :
  for_each f (h <$> xs) acc = for_each (λ a y, f a (h y)) xs acc.
Proof.
  revert acc. induction xs as [|y xs IH]; intros acc; simpl; [done|].
  destruct (f acc (h y)); simpl; [apply IH|done].
Qed.

Lemma for_each_pure {A S} (f : S → A → result S) (g : S → A → S) (xs : list A) acc :
  (∀ a y, y ∈ xs → f a y = Ok (g a y)) → for_each f xs acc = Ok (foldl g acc xs).
Proof.
  revert acc. induction xs as [|y xs IH]; intros acc Hfg; simpl; [done|].
  rewrite Hfg by left. simpl. apply IH. intros a z Hz. apply Hfg. by right.
Qed.

Lemma add_items_Some items r x :
  item_id r = Some x →
  add_items items r =
  Ok (items ∪ (opt_set (item_id r) ∪ opt_set (present (next_item_id r)))).
Proof.
  intros Hx. unfold add_items, present. rewrite Hx. simpl.
  destruct (truthy (next_item_id r)) eqn:Ht.
  - destruct (next_item_id r) as [n|]; [|done]. simpl. f_equal. set_solver.
  - simpl. f_equal. set_solver.
Qed.

Lemma add_items_None items r :
  item_id r = None → add_items items r = Raise (KeyError (IStr "item_id")).
Proof. intros Hx. unfold add_items. by rewrite Hx. Qed.

Lemma for_each_add_items_Ok data acc :
  Forall (λ r, is_Some (item_id r)) data →
  for_each add_items data acc = Ok (acc ∪ item_identifiers data).
Proof.
  intros Hall. revert acc.
  induction Hall as [|r data [x Hx] _ IH]; intros acc; simpl.
  - f_equal. unfold item_identifiers. simpl. set_solver.
  - rewrite (add_items_Some _ _ x Hx). simpl. rewrite IH. f_equal.
    unfold item_identifiers. simpl. set_solver.
Qed.

Lemma for_each_add_items_Raise data acc :
  Exists (λ r, item_id r = None) data →
  for_each add_items data acc = Raise (KeyError (IStr "item_id")).
Proof.
  intros Hex. revert acc.
  induction Hex as [r data Hx|r data _ IH]; intros acc; simpl.
  - by rewrite add_items_None.
  - destruct (item_id r) as [x|] eqn:Hx.
    + rewrite (add_items_Some _ _ x Hx). simpl. apply IH.
    + by rewrite add_items_None.
Qed.

Lemma add_session_spec acc r :
  add_session acc r = Ok (acc ∪ opt_set (present (session_id r))).
Proof.
  unfold add_session, present. destruct (truthy (session_id r)) eqn:Ht.
  - destruct (session_id r) as [s|]; [|done]. done.
  - simpl. f_equal. set_solver.
Qed.

Lemma for_each_add_session data acc :
  for_each add_session data acc = Ok (acc ∪ session_identifiers data).
Proof.
  revert acc. induction data as [|r data IH]; intros acc; simpl.
  - f_equal. unfold session_identifiers. simpl. set_solver.
  - rewrite add_session_spec. simpl. rewrite IH. f_equal.
    unfold session_identifiers. simpl. set_solver.
Qed.

Lemma elem_of_item_identifiers data x :
  x ∈ item_identifiers data ↔
  ∃ r, r ∈ data ∧ (item_id r = Some x ∨ present (next_item_id r) = Some x).
Proof.
  unfold item_identifiers. rewrite elem_of_union_list. split.
  - intros (X & HX & Hx). apply list_elem_of_fmap in HX as (r & -> & Hr).
    exists r. split; [done|]. apply elem_of_union in Hx as [Hx|Hx].
    + left. destruct (item_id r); simpl in Hx; set_solver.
    + right. destruct (present _); simpl in Hx; set_solver.
  - intros (r & Hr & Hx). eexists. split.
    + apply list_elem_of_fmap. by exists r.
    + simpl. destruct Hx as [->| ->]; simpl; set_solver.
Qed.

Lemma elem_of_session_identifiers data s :
  s ∈ session_identifiers data ↔
  ∃ r, r ∈ data ∧ present (session_id r) = Some s.
Proof.
  unfold session_identifiers. rewrite elem_of_union_list. split.
  - intros (X & HX & Hx). apply list_elem_of_fmap in HX as (r & -> & Hr).
    exists r. split; [done|]. destruct (present _); simpl in Hx; set_solver.
  - intros (r & Hr & Hx). eexists. split.
    + apply list_elem_of_fmap. by exists r.
    + simpl. rewrite Hx. simpl. set_solver.
Qed.

(** *** Aggregation of transition edges *)

Lemma add_next_covered idm m r :
  covered idm r → add_next idm m r = Ok (next_step idm m r).
Proof.
  intros [[x1 Hx1] Hdom]. unfold add_next, next_step, edge_key, present in *.
  destruct (truthy (next_item_id r)) eqn:Ht; [|done].
  destruct (next_item_id r) as [x2|] eqn:Hx2; [|done].
  rewrite Hx1 in *. simpl in *.
  assert (is_Some (idm !! x1)) as [i1 Hi1] by (apply elem_of_dom; set_solver).
  assert (is_Some (idm !! x2)) as [i2 Hi2] by (apply elem_of_dom; set_solver).
  unfold dict_get. rewrite Hi1, Hi2. simpl.
  unfold bump, evidence_of, present.
  destruct (truthy (session_id r)) eqn:Hs.
  - destruct (session_id r) as [s|]; [|done]. done.
  - simpl. by rewrite union_empty_r_L.
Qed.

Lemma aggregate_next_foldl idm data m :
  Forall (covered idm) data →
  for_each (add_next idm) data m = Ok (foldl (next_step idm) m data).
Proof.
  intros Hall. apply for_each_pure. intros a r Hr.
  apply add_next_covered. by eapply Forall_forall in Hall.
Qed.

(** What the fold leaves under a key: the entry it found, raised once per
    hit. *)
Lemma foldl_next_step_lookup idm k data : ∀ m,
  foldl (next_step idm) m data !! k =
  let hs := hits idm k data in
  let v0 := default default_edge (m !! k) in
  if decide (hs = []) then m !! k
  else Some (Edge (weight v0 + length hs)
                  (sessions v0 ∪ ⋃ (evidence_of <$> hs))).
Proof.
  induction data as [|r data IH]; intros m; simpl; [done|].
  rewrite IH. clear IH. unfold hits. rewrite filter_cons.
  destruct (decide (edge_key idm r = Some k)) as [Hk|Hk].
  - unfold next_step. rewrite Hk, lookup_insert_eq. simpl.
    assert (∀ w w' (s s' : gset string),
      w = w' → s = s' → Some (Edge w s) = Some (Edge w' s')) as Heq
      by (by intros ???? -> ->).
    case_decide as Hnil.
    + rewrite Hnil. simpl. unfold bump. apply Heq; [lia|set_solver].
    + apply Heq; [lia|set_solver].
  - unfold next_step. destruct (edge_key idm r) as [k'|]; [|done].
    by rewrite lookup_insert_ne by congruence.
Qed.

Lemma aggregate_next_lookup idm data k :
  foldl (next_step idm) ∅ data !! k =
  if decide (hits idm k data = []) then None
  else Some (Edge (length (hits idm k data))
                  (⋃ (evidence_of <$> hits idm k data))).
Proof.
  rewrite foldl_next_step_lookup. simpl. rewrite lookup_empty. simpl.
  case_decide; [done|]. by rewrite union_empty_l_L.
Qed.

Lemma hits_perm idm k data data' :
  data ≡ₚ data' → hits idm k data ≡ₚ hits idm k data'.
Proof. intros Hp. unfold hits. by rewrite Hp. Qed.

Lemma union_list_perm `{Countable A} (Xs Ys : list (gset A)) :
  Xs ≡ₚ Ys → ⋃ Xs = ⋃ Ys.
Proof.
  induction 1 as [|X Xs Ys _ IH|X Y Xs|Xs Ys Zs _ IH1 _ IH2]; simpl;
    [done|by rewrite IH|set_solver|congruence].
Qed.

Lemma aggregate_next_perm idm data data' :
  data ≡ₚ data' →
  foldl (next_step idm) ∅ data = foldl (next_step idm) ∅ data'.
Proof.
  intros Hp. apply map_eq. intros k. rewrite !aggregate_next_lookup.
  pose proof (hits_perm idm k _ _ Hp) as Hh.
  destruct (decide (hits idm k data = [])) as [Hnil|Hne];
    destruct (decide (hits idm k data' = [])) as [Hnil'|Hne']; try done.
  - rewrite Hnil in Hh. apply Permutation_nil in Hh. congruence.
  - rewrite Hnil' in Hh. symmetry in Hh. apply Permutation_nil in Hh. congruence.
  - f_equal. f_equal; [by rewrite Hh|].
    apply union_list_perm. by rewrite Hh.
Qed.

(** Sum of the weights along the fold. *)
Lemma total_weight_insert (m : gmap (nat * nat) edge) k v :
  total_weight (<[k := v]> m) + weight (default default_edge (m !! k)) =
  total_weight m + weight v.
Proof.
  unfold total_weight.
  destruct (m !! k) as [v0|] eqn:Hmk; simpl.
  - rewrite <- insert_delete_eq.
    rewrite map_fold_insert_L; [|intros; lia|apply lookup_delete_eq].
    rewrite (map_fold_delete_L _ _ k v0 m); [|intros; lia|done]. lia.
  - rewrite map_fold_insert_L; [|intros; lia|done]. lia.
Qed.

Lemma total_weight_next_step idm m r :
  total_weight (next_step idm m r) =
  total_weight m + match edge_key idm r with Some _ => 1 | None => 0 end.
Proof.
  unfold next_step. destruct (edge_key idm r) as [k|]; [|lia].
  pose proof (total_weight_insert m k (bump r (default default_edge (m !! k)))).
  simpl in *. lia.
Qed.

Lemma total_weight_foldl idm data : ∀ m,
  total_weight (foldl (next_step idm) m data) =
  total_weight m + length (filter (λ r, is_Some (edge_key idm r)) data).
Proof.
  induction data as [|r data IH]; intros m; simpl; [lia|].
  rewrite IH, total_weight_next_step, filter_cons.
  destruct (decide (is_Some (edge_key idm r))) as [[k Hk]|Hk].
  - rewrite Hk. simpl. lia.
  - destruct (edge_key idm r); [by destruct Hk|lia].
Qed.

Lemma edge_key_covered idm r :
  covered idm r →
  is_Some (edge_key idm r) ↔ truthy (next_item_id r) = true.
Proof.
  intros [[x1 Hx1] Hdom]. unfold edge_key, present in *.
  destruct (truthy (next_item_id r)) eqn:Ht.
  - destruct (next_item_id r) as [x2|] eqn:Hx2; [|done].
    rewrite Hx1 in *. simpl in *.
    assert (is_Some (idm !! x1)) as [i1 Hi1] by (apply elem_of_dom; set_solver).
    assert (is_Some (idm !! x2)) as [i2 Hi2] by (apply elem_of_dom; set_solver).
    rewrite Hi1, Hi2. simpl. done.
  - simpl. split; [by intros [??]|done].
Qed.

(** *** Containment edges *)

Lemma add_contains_covered sm idm c r :
  covered idm r → session_covered sm r →
  add_contains sm idm c r = Ok (c ∪ opt_pair (contains_key sm idm r)).
Proof.
  intros [[x Hx] Hdom] Hs.
  unfold add_contains, contains_key, session_covered, present in *.
  destruct (truthy (session_id r)) eqn:Ht.
  - destruct (session_id r) as [s|] eqn:Hsid; [|done].
    rewrite Hx in *. simpl in *.
    assert (is_Some (sm !! s)) as [i1 Hi1] by (apply elem_of_dom; set_solver).
    assert (is_Some (idm !! x)) as [i2 Hi2] by (apply elem_of_dom; set_solver).
    unfold dict_get. rewrite Hi1, Hi2. done.
  - simpl. f_equal. set_solver.
Qed.

Lemma collect_contains_covered sm idm data : ∀ acc,
  Forall (covered idm) data → Forall (session_covered sm) data →
  for_each (add_contains sm idm) data acc = Ok (acc ∪ contains_set sm idm data).
Proof.
  induction data as [|r data IH]; intros acc Hc Hs; simpl.
  - f_equal. unfold contains_set. simpl. set_solver.
  - apply Forall_cons in Hc as [Hc Hc']. apply Forall_cons in Hs as [Hs Hs'].
    rewrite add_contains_covered by done. simpl.
    rewrite IH by done. f_equal. unfold contains_set. simpl. set_solver.
Qed.

Lemma elem_of_contains_set sm idm data p :
  p ∈ contains_set sm idm data ↔
  ∃ r, r ∈ data ∧ contains_key sm idm r = Some p.
Proof.
  unfold contains_set. rewrite elem_of_union_list. split.
  - intros (X & HX & Hx). apply list_elem_of_fmap in HX as (r & -> & Hr).
    exists r. split; [done|]. destruct (contains_key _ _ _); simpl in Hx; set_solver.
  - intros (r & Hr & Hx). eexists. split.
    + apply list_elem_of_fmap. by exists r.
    + simpl. rewrite Hx. simpl. set_solver.
Qed.

(** *** The whole script *)

Lemma sorted_set_dom (s : gset ident) l :
  sorted_set s = Ok l → dom (dict_of_enumerate l) = s.
Proof.
  intros (Hp & _ & _)%sorted_set_Ok. rewrite dict_of_enumerate_dom.
  apply set_eq. intros x. rewrite elem_of_list_to_set, Hp. apply elem_of_elements.
Qed.

Lemma item_identifiers_covered data l :
  Forall (λ r, is_Some (item_id r)) data →
  sorted_set (item_identifiers data) = Ok l →
  Forall (covered (dict_of_enumerate l)) data.
Proof.
  intros Hall Hl. apply Forall_forall. intros r Hr. split.
  - by eapply Forall_forall in Hall.
  - rewrite (sorted_set_dom _ _ Hl). intros x Hx.
    apply elem_of_item_identifiers. exists r. split; [done|].
    apply elem_of_union in Hx as [Hx|Hx].
    + left. destruct (item_id r); simpl in Hx; set_solver.
    + right. destruct (present _); simpl in Hx; set_solver.
Qed.

Lemma session_identifiers_covered data l :
  sorted_set (session_identifiers data) = Ok l →
  Forall (session_covered (dict_of_enumerate l)) data.
Proof.
  intros Hl. apply Forall_forall. intros r Hr.
  unfold session_covered. rewrite (sorted_set_dom _ _ Hl). intros x Hx.
  apply elem_of_session_identifiers. exists r. split; [done|].
  destruct (present _); simpl in Hx; set_solver.
Qed.

Lemma build_closed_eq data : build data = build_closed data.
Proof.
  unfold build, build_closed, item_table, collect_items, aggregate_next,
    collect_sessions, collect_contains.
  case_decide as Hall.
  - rewrite for_each_add_items_Ok, union_empty_l_L by done. simpl.
    destruct (sorted_set (item_identifiers data)) as [l|e] eqn:Hl; simpl; [|done].
    pose proof (item_identifiers_covered _ _ Hall Hl) as Hcov.
    rewrite aggregate_next_foldl by done. simpl.
    rewrite for_each_add_session, union_empty_l_L. simpl.
    destruct (sorted_set (session_identifiers data)) as [ss|e] eqn:Hss; simpl; [|done].
    pose proof (session_identifiers_covered _ _ Hss) as Hscov.
    rewrite collect_contains_covered, union_empty_l_L by done. done.
  - rewrite for_each_add_items_Raise; [done|].
    apply not_Forall_Exists in Hall; [|apply _].
    eapply Exists_impl; [exact Hall|]. simpl. intros r Hr.
    destruct (item_id r); [|done]. exfalso. by apply Hr.
Qed.

Lemma build_perm data data' : data ≡ₚ data' → build data = build data'.
Proof.
  intros Hp. rewrite !build_closed_eq. unfold build_closed.
  assert (item_identifiers data = item_identifiers data') as <-.
  { unfold item_identifiers. apply union_list_perm. by rewrite Hp. }
  assert (session_identifiers data = session_identifiers data') as <-.
  { unfold session_identifiers. apply union_list_perm. by rewrite Hp. }
  destruct (decide (Forall _ data)) as [Hall|Hall];
    destruct (decide (Forall _ data')) as [Hall'|Hall'].
  - destruct (sorted_set (item_identifiers data)) as [l|e]; simpl; [|done].
    destruct (sorted_set (session_identifiers data)) as [ss|e]; simpl; [|done].
    f_equal. f_equal; [by apply aggregate_next_perm|].
    unfold contains_set. apply union_list_perm. by rewrite Hp.
  - exfalso. apply Hall'. by rewrite <- Hp.
  - exfalso. apply Hall. by rewrite Hp.
  - done.
Qed.

Lemma build_Ok data g :
  build data = Ok g →
  Forall (λ r, is_Some (item_id r)) data ∧
  sorted_set (item_identifiers data) = Ok (items_list g) ∧
  id_map g = dict_of_enumerate (items_list g) ∧
  next_agg g = foldl (next_step (id_map g)) ∅ data ∧
  sorted_set (session_identifiers data) = Ok (sessions_list g) ∧
  session_map g = dict_of_enumerate (sessions_list g) ∧
  contains g = contains_set (session_map g) (id_map g) data.
Proof.
  rewrite build_closed_eq. unfold build_closed.
  case_decide as Hall; [|done].
  destruct (sorted_set (item_identifiers data)) as [l|e]; simpl; [|done].
  destruct (sorted_set (session_identifiers data)) as [ss|e]; simpl; [|done].
  by intros [= <-].
Qed.

(** Falsy optional fields are never read. *)
Lemma add_items_normalize acc r : add_items acc (normalize r) = add_items acc r.
Proof.
  unfold add_items, normalize. simpl. rewrite present_truthy.
  unfold present. by destruct (truthy (next_item_id r)).
Qed.

Lemma add_next_normalize idm m r : add_next idm m (normalize r) = add_next idm m r.
Proof.
  unfold add_next, normalize. simpl. rewrite !present_truthy.
  unfold present.
  destruct (truthy (next_item_id r)); [|done].
  by destruct (truthy (session_id r)).
Qed.

Lemma add_session_normalize acc r : add_session acc (normalize r) = add_session acc r.
Proof.
  unfold add_session, normalize. simpl. rewrite present_truthy.
  unfold present. by destruct (truthy (session_id r)).
Qed.

Lemma add_contains_normalize sm idm c r :
  add_contains sm idm c (normalize r) = add_contains sm idm c r.
Proof.
  unfold add_contains, normalize. simpl. rewrite present_truthy.
  unfold present. by destruct (truthy (session_id r)).
Qed.

Lemma build_normalize data : build (normalize <$> data) = build data.
Proof.
  unfold build, item_table, collect_items, aggregate_next, collect_sessions,
    collect_contains.
  rewrite !for_each_fmap.
  rewrite (for_each_ext (λ a y, add_items a (normalize y)) add_items)
    by (intros; apply add_items_normalize).
  destruct (for_each add_items data ∅) as [items|e]; simpl; [|done].
  destruct (sorted_set items) as [l|e]; simpl; [|done].
  rewrite for_each_fmap.
  rewrite (for_each_ext (λ a y, add_next _ a (normalize y)) (add_next _))
    by (intros; apply add_next_normalize).
  destruct (for_each (add_next _) data ∅) as [agg|e]; simpl; [|done].
  rewrite (for_each_ext (λ a y, add_session a (normalize y)) add_session)
    by (intros; apply add_session_normalize).
  destruct (for_each add_session data ∅) as [ss|e]; simpl; [|done].
  destruct (sorted_set ss) as [sl|e]; simpl; [|done].
  rewrite for_each_fmap.
  by rewrite (for_each_ext (λ a y, add_contains _ _ a (normalize y))
                           (add_contains _ _))
    by (intros; apply add_contains_normalize).
Qed.

Lemma item_table_normalize data : item_table (normalize <$> data) = item_table data.
Proof.
  unfold item_table, collect_items. rewrite for_each_fmap.
  by rewrite (for_each_ext (λ a y, add_items a (normalize y)) add_items)
    by (intros; apply add_items_normalize).
Qed.

Lemma normalize_idemp r : normalize (normalize r) = normalize r.
Proof. unfold normalize. simpl. by rewrite !present_idemp. Qed.

Lemma filter_ext_Forall {A} (P Q : A → Prop)
    `{!∀ y, Decision (P y), !∀ y, Decision (Q y)} (xs : list A) :
  Forall (λ y, P y ↔ Q y) xs → filter P xs = filter Q xs.
Proof.
  induction 1 as [|y xs Hy _ IH]; [done|].
  rewrite !filter_cons, IH. destruct (decide (P y)), (decide (Q y)); tauto.
Qed.

Lemma total_weight_build data g :
  build data = Ok g →
  total_weight (next_agg g) =
  length (filter (λ r, truthy (next_item_id r) = true) data).
Proof.
  intros (Hall & Hl & Hid & Hagg & _)%build_Ok.
  rewrite Hagg, total_weight_foldl. unfold total_weight at 1.
  rewrite map_fold_empty. simpl. f_equal.
  apply filter_ext_Forall.
  rewrite Hid. eapply Forall_impl; [by apply item_identifiers_covered|].
  intros r Hr. by apply edge_key_covered.
Qed.

Lemma present_Some_iff o x :
  present o = Some x ↔ truthy o = true ∧ o = Some x.
Proof.
  split; [intros Hp; apply present_Some in Hp; tauto|].
  intros [Ht ->]. unfold present. by rewrite Ht.
Qed.

Lemma elem_of_evidence data s :
  s ∈ ⋃ (evidence_of <$> data) ↔
  ∃ r sid, r ∈ data ∧ truthy (session_id r) = true ∧
           session_id r = Some sid ∧ s = str sid.
Proof.
  rewrite elem_of_union_list. split.
  - intros (X & HX & Hs). apply list_elem_of_fmap in HX as (r & -> & Hr).
    unfold evidence_of in Hs.
    destruct (present (session_id r)) as [sid|] eqn:Hsid; [|set_solver].
    apply present_Some_iff in Hsid as [Ht Hsid].
    exists r, sid. set_solver.
  - intros (r & sid & Hr & Ht & Hsid & ->). eexists. split.
    + apply list_elem_of_fmap. by exists r.
    + unfold evidence_of. rewrite (proj2 (present_Some_iff _ sid)) by done.
      set_solver.
Qed.

(** *** When the script succeeds *)

Lemma comparable_homogeneous (ss : gset ident) :
  comparable ss ↔ homogeneous (elements ss) = true.
Proof.
  unfold comparable, homogeneous. rewrite orb_true_iff, !forallb_forall.
  setoid_rewrite <- list_elem_of_In. by setoid_rewrite elem_of_elements.
Qed.

Lemma sorted_set_comparable (ss : gset ident) :
  comparable ss → ∃ l, sorted_set ss = Ok l.
Proof.
  intros Hc%comparable_homogeneous. unfold sorted_set, py_sorted.
  rewrite Hc. by eexists.
Qed.

Lemma sorted_set_incomparable (ss : gset ident) :
  ¬ comparable ss → sorted_set ss = Raise TypeError.
Proof.
  intros Hc. unfold sorted_set, py_sorted.
  destruct (homogeneous (elements ss)) eqn:Hh; [|done].
  by apply comparable_homogeneous in Hh.
Qed.




Lemma build_succeeds data :
  Forall (λ r, is_Some (item_id r)) data →
  comparable (item_identifiers data) →
  comparable (session_identifiers data) →
  ∃ g, build data = Ok g.
Proof.
  intros Hall [l Hl]%sorted_set_comparable [sl Hsl]%sorted_set_comparable.
  rewrite build_closed_eq. unfold build_closed.
  rewrite decide_True by done. rewrite Hl, Hsl. simpl. by eexists.
Qed.

End identity_facts.

(** ** Text of the interchange files *)

Section text_facts.
Import BuildBulk Spec Reparse.
Implicit Types (s t : string) (c : ascii).

Lemma string_app_cons a s t : String a s +:+ t = String a (s +:+ t).
Proof. reflexivity. Qed.

Lemma string_app_nil_l s : EmptyString +:+ s = s.
Proof. reflexivity. Qed.

Lemma string_app_assoc s t u : (s +:+ t) +:+ u = s +:+ t +:+ u.
Proof.
  induction s as [|a s IH]; [done|].
  rewrite !string_app_cons. by f_equal.
Qed.

Lemma string_app_nil_r s : s +:+ EmptyString = s.
Proof.
  induction s as [|a s IH]; [done|]. rewrite string_app_cons. by f_equal.
Qed.

Lemma foldl_write {A} (row : A → string) (xs : list A) (init : string) :
  foldl (λ f x, write f (row x)) init xs = init +:+ flat (row <$> xs).
Proof.
  revert init. induction xs as [|x xs IH]; intros init; simpl.
  - by rewrite string_app_nil_r.
  - rewrite IH. unfold write. apply string_app_assoc.
Qed.

Lemma occurs_app c s t : occurs c (s +:+ t) = occurs c s || occurs c t.
Proof.
  induction s as [|a s IH]; [done|].
  rewrite string_app_cons. simpl. rewrite IH. apply orb_assoc.
Qed.

Lemma split_free c s : occurs c s = false → split c s = [s].
Proof.
  induction s as [|a s IH]; simpl; [done|].
  intros [Ha Hs]%orb_false_elim. rewrite Ha, IH by done. done.
Qed.

Lemma split_app c s t :
  occurs c s = false → split c (s +:+ String c t) = s :: split c t.
Proof.
  induction s as [|a s IH].
  - intros _. rewrite string_app_nil_l. simpl. by rewrite Ascii.eqb_refl.
  - rewrite string_app_cons. simpl.
    intros [Ha Hs]%orb_false_elim. rewrite Ha, IH by done. done.
Qed.

Lemma split_rows (rows : list string) :
  Forall (λ r, occurs "010"%char r = false) rows →
  split "010"%char (flat ((λ r, r +:+ LF) <$> rows)) = rows ++ [EmptyString].
Proof.
  induction 1 as [|r rows Hr _ IH]; [done|].
  rewrite fmap_cons. unfold flat in *. rewrite foldr_cons.
  rewrite string_app_assoc. unfold LF at 1.
  rewrite string_app_cons, string_app_nil_l.
  by rewrite split_app, IH.
Qed.

Lemma lines_rows (rows : list string) :
  Forall (λ r, occurs "010"%char r = false) rows →
  lines (flat ((λ r, r +:+ LF) <$> rows)) = rows.
Proof.
  intros Hrows. unfold lines. rewrite split_rows by done.
  rewrite last_snoc. apply removelast_last.
Qed.

Lemma join_cons sep s t (l : list string) :
  join sep (s :: t :: l) = s +:+ sep +:+ join sep (t :: l).
Proof. reflexivity. Qed.

Lemma split_join c (l : list string) :
  l ≠ [] → Forall (λ s, occurs c s = false) l →
  split c (join (String c EmptyString) l) = l.
Proof.
  intros Hne Hall. induction Hall as [|s l Hs Hall IH]; [done|].
  destruct l as [|t l].
  - by apply split_free.
  - rewrite join_cons, string_app_cons, string_app_nil_l.
    rewrite split_app by done. f_equal. by apply IH.
Qed.

(** Decimal notation holds digits only. *)
Lemma occurs_string_of_uint c d :
  is_digit c = false → occurs c (NilEmpty.string_of_uint d) = false.
Proof.
  intros Hc. unfold is_digit in Hc. simpl in Hc.
  repeat (apply orb_false_elim in Hc as [? Hc]).
  induction d as [|d IH|d IH|d IH|d IH|d IH|d IH|d IH|d IH|d IH|d IH];
    simpl; [done|rewrite IH, orb_false_r; assumption ..].
Qed.

Lemma occurs_str_nat c n : is_digit c = false → occurs c (str_nat n) = false.
Proof.
  intros Hc. unfold str_nat, NilZero.string_of_uint.
  destruct (Nat.to_uint n) eqn:Hn; try (rewrite <- Hn); simpl;
    try by apply occurs_string_of_uint.
  unfold is_digit in Hc. simpl in Hc.
  apply orb_false_elim in Hc as [-> _]. done.
Qed.

Lemma to_uint_nonnil n : Nat.to_uint n ≠ Decimal.Nil.
Proof.
  rewrite <- (DecimalNat.Unsigned.of_to n) at 1.
  rewrite DecimalNat.Unsigned.to_of. apply DecimalFacts.unorm_nonnil.
Qed.

Lemma parse_nat_str_nat n : parse_nat (str_nat n) = Some n.
Proof.
  unfold parse_nat, str_nat.
  rewrite NilZero.usu by apply to_uint_nonnil. simpl.
  by rewrite DecimalNat.Unsigned.of_to.
Qed.

Lemma str_nat_nonempty n : str_nat n ≠ EmptyString.
Proof.
  intros Hn. pose proof (parse_nat_str_nat n) as Hp. by rewrite Hn in Hp.
Qed.

(** *** Files as header and rows *)

Lemma table_lines (hline : string) (bodies : list string) :
  Forall (λ r, occurs "010"%char r = false) (hline :: bodies) →
  lines ((hline +:+ LF) +:+ flat ((λ b, b +:+ LF) <$> bodies)) = hline :: bodies.
Proof. intros Hall. by rewrite <- (lines_rows (hline :: bodies)) by done. Qed.

Lemma parse_rows_table {A} (hline : string) (body : A → string)
    (prow : string → option A) (xs : list A) :
  occurs "010"%char hline = false →
  Forall (λ x, occurs "010"%char (body x) = false ∧ prow (body x) = Some x) xs →
  parse_rows (hline +:+ LF) prow
    ((hline +:+ LF) +:+ flat ((λ x, body x +:+ LF) <$> xs)) = Some xs.
Proof.
  intros Hh Hxs. unfold parse_rows.
  rewrite (list_fmap_compose body (λ b, b +:+ LF)).
  rewrite table_lines.
  - rewrite decide_True by done. apply mapM_Some.
    apply Forall2_fmap_l, Forall_Forall2_diag.
    eapply Forall_impl; [exact Hxs|]. by intros x [_ ?].
  - constructor; [done|]. apply Forall_fmap.
    eapply Forall_impl; [exact Hxs|]. by intros x [? _].
Qed.

Lemma occurs_join c sep (l : list string) :
  occurs c sep = false → Forall (λ s, occurs c s = false) l →
  occurs c (join sep l) = false.
Proof.
  intros Hsep. induction 1 as [|s l Hs Hall IH]; [done|].
  destruct l as [|t l]; [done|].
  rewrite join_cons, !occurs_app, Hs, Hsep. by rewrite IH.
Qed.

Lemma join_nonempty sep s (l : list string) :
  s ≠ EmptyString → join sep (s :: l) ≠ EmptyString.
Proof.
  intros Hs. destruct l as [|t l]; [done|]. rewrite join_cons.
  destruct s; [done|]. by rewrite string_app_cons.
Qed.

Lemma foldl_insert_list_to_map `{Countable K} {V} (l : list (K * V)) :
  NoDup (l.*1) →
  foldl (λ m kv, <[kv.1 := kv.2]> m) (∅ : gmap K V) l = list_to_map l.
Proof.
  induction l as [|[k v] l IH] using rev_ind; intros Hnd; [done|].
  rewrite foldl_snoc. simpl.
  rewrite fmap_app in Hnd. apply NoDup_app in Hnd as (Hnd & Hfresh & _).
  rewrite IH by done. rewrite list_to_map_snoc; [done|].
  intros Hk. eapply Hfresh; [exact Hk|]. simpl. by left.
Qed.

Lemma parse_sessions_join (l : list string) :
  Forall (λ s, occurs ";"%char s = false ∧ s ≠ EmptyString) l →
  parse_sessions (join ";" l) = list_to_set l.
Proof.
  intros Hall. unfold parse_sessions. destruct l as [|s l]; [done|].
  apply Forall_cons in Hall as [[Hs Hne] Hall].
  rewrite decide_False by (by apply join_nonempty).
  f_equal. apply (split_join ";"%char); [done|].
  constructor; [done|]. eapply Forall_impl; [exact Hall|]. by intros ? [? _].
Qed.

(** *** The four files in closed form *)

Context `{Iteration}.

Lemma items_csv_eq g :
  items_csv g =
  (items_hline +:+ LF) +:+
  flat ((λ i, (str_nat i +:+ TAB +:+ "Item") +:+ LF) <$> seq 0 (length (items_list g))).
Proof.
  unfold items_csv. rewrite foldl_write. f_equal. f_equal.
  apply list_fmap_ext. intros _ i _. by rewrite !string_app_assoc.
Qed.

Lemma next_row_body kv : next_row kv = next_body kv +:+ LF.
Proof. unfold next_row, next_body. by rewrite !string_app_assoc. Qed.

Lemma next_csv_eq g :
  next_csv g =
  (next_hline +:+ LF) +:+
  flat ((λ kv, next_body kv +:+ LF) <$> next_items (next_agg g)).
Proof.
  unfold next_csv. rewrite foldl_write. f_equal. f_equal.
  apply list_fmap_ext. intros _ kv _. apply next_row_body.
Qed.

Lemma contains_csv_eq g :
  contains_csv g =
  (contains_hline +:+ LF) +:+
  flat ((λ p, contains_body p +:+ LF) <$> contains_iter (contains g)).
Proof.
  unfold contains_csv. rewrite foldl_write. f_equal. f_equal.
  apply list_fmap_ext. intros _ p _.
  unfold contains_row, contains_body. by rewrite !string_app_assoc.
Qed.

Lemma items_csv_lines g :
  lines (items_csv g) =
  items_hline :: ((λ i, str_nat i +:+ TAB +:+ "Item") <$> seq 0 (length (items_list g))).
Proof.
  rewrite items_csv_eq.
  rewrite (list_fmap_compose (λ i, str_nat i +:+ TAB +:+ "Item") (λ b, b +:+ LF)).
  apply table_lines. constructor; [done|].
  apply Forall_fmap, Forall_forall. intros i _. simpl.
  rewrite occurs_app, occurs_str_nat by done. done.
Qed.

(** *** Rows read back *)

Lemma split3 c a b d :
  occurs c a = false → occurs c b = false →
  split c (a +:+ String c EmptyString +:+ b +:+ String c EmptyString +:+ d)
  = a :: b :: split c d.
Proof.
  intros Ha Hb.
  rewrite !string_app_cons, !string_app_nil_l. by rewrite !split_app.
Qed.

Lemma parse_contains_row_body p :
  parse_contains_row (contains_body p) = Some p.
Proof.
  destruct p as [a b]. unfold parse_contains_row, contains_body, TAB. simpl.
  rewrite string_app_cons, string_app_nil_l.
  rewrite split_app by (by apply occurs_str_nat).
  rewrite split_free by (by apply occurs_str_nat).
  by rewrite !parse_nat_str_nat.
Qed.

Lemma occurs_contains_body p : occurs "010"%char (contains_body p) = false.
Proof.
  unfold contains_body. by rewrite !occurs_app, !occurs_str_nat.
Qed.

Lemma evidence_ok_iter k ss :
  evidence_ok ss →
  Forall (λ s, separator_free s ∧ s ≠ EmptyString) (sessions_iter k ss).
Proof.
  intros Hok. apply Forall_forall. intros s Hs. apply Hok.
  rewrite sessions_iter_perm in Hs. by apply elem_of_elements in Hs.
Qed.

Lemma parse_next_row_body kv :
  evidence_ok (sessions kv.2) → parse_next_row (next_body kv) = Some kv.
Proof.
  destruct kv as [[i1 i2] [w ss]]. simpl. intros Hok.
  pose proof (evidence_ok_iter (i1, i2) ss Hok) as Hall.
  unfold parse_next_row, next_body, TAB. simpl.
  rewrite split3 by (by apply occurs_str_nat).
  rewrite string_app_cons, string_app_nil_l.
  rewrite split_app by (by apply occurs_str_nat).
  rewrite split_free.
  - rewrite !parse_nat_str_nat. simpl. do 3 f_equal.
    rewrite parse_sessions_join.
    + rewrite sessions_iter_perm. apply list_to_set_elements_L.
    + eapply Forall_impl; [exact Hall|]. by intros s [(? & _ & _) ?].
  - apply occurs_join; [done|].
    eapply Forall_impl; [exact Hall|]. by intros s [(_ & ? & _) _].
Qed.

Lemma occurs_next_body kv :
  evidence_ok (sessions kv.2) → occurs "010"%char (next_body kv) = false.
Proof.
  intros Hok. unfold next_body.
  rewrite !occurs_app, !occurs_str_nat by done. simpl.
  apply occurs_join; [done|].
  eapply Forall_impl; [by apply evidence_ok_iter|]. by intros s [(_ & _ & ?) _].
Qed.

Lemma parse_next_csv g :
  (∀ k v, next_agg g !! k = Some v → evidence_ok (sessions v)) →
  parse_next (next_csv g) = Some (next_agg g).
Proof.
  intros Hok. unfold parse_next. rewrite next_csv_eq.
  change next_header with (next_hline +:+ LF).
  rewrite parse_rows_table; [|done|].
  - simpl. f_equal. rewrite foldl_insert_list_to_map.
    + rewrite (list_to_map_proper _ (map_to_list (next_agg g))).
      * apply list_to_map_to_list.
      * rewrite next_items_perm. apply NoDup_fst_map_to_list.
      * apply next_items_perm.
    + rewrite next_items_perm. apply NoDup_fst_map_to_list.
  - apply Forall_forall. intros [k v] Hkv.
    rewrite next_items_perm in Hkv. apply elem_of_map_to_list in Hkv.
    split; [apply occurs_next_body|apply parse_next_row_body]; simpl; eauto.
Qed.

Lemma parse_contains_csv g :
  parse_contains (contains_csv g) = Some (contains g).
Proof.
  unfold parse_contains. rewrite contains_csv_eq.
  change contains_header with (contains_hline +:+ LF).
  rewrite parse_rows_table; [|done|].
  - simpl. f_equal. rewrite contains_iter_perm. apply list_to_set_elements_L.
  - apply Forall_forall. intros p _.
    split; [apply occurs_contains_body|apply parse_contains_row_body].
Qed.

(** *** Strings of identifiers *)

Lemma occurs_nilzero c d :
  is_digit c = false → occurs c (NilZero.string_of_uint d) = false.
Proof.
  intros Hc. destruct d; try by apply occurs_string_of_uint.
  unfold is_digit in Hc. simpl in Hc.
  apply orb_false_elim in Hc as [Hc _]. simpl. by rewrite Hc.
Qed.

Lemma occurs_str_int c z :
  is_digit c = false → Ascii.eqb "-" c = false →
  occurs c (str (IInt z)) = false.
Proof.
  intros Hc Hm. unfold str, NilZero.string_of_int.
  destruct (Z.to_int z) as [d|d]; [by apply occurs_nilzero|].
  cbn [occurs]. rewrite Hm. by apply occurs_nilzero.
Qed.

Lemma nilzero_nonempty d : NilZero.string_of_uint d ≠ EmptyString.
Proof. by destruct d. Qed.

Lemma str_int_nonempty z : str (IInt z) ≠ EmptyString.
Proof.
  unfold str, NilZero.string_of_int.
  destruct (Z.to_int z); [apply nilzero_nonempty|done].
Qed.

Lemma str_truthy_nonempty x : truthy (Some x) = true → str x ≠ EmptyString.
Proof.
  destruct x as [z|s]; [intros _; apply str_int_nonempty|].
  simpl. intros Ht ->. done.
Qed.

Lemma to_int_valid z :
  Z.to_int z ≠ Decimal.Pos Decimal.Nil ∧ Z.to_int z ≠ Decimal.Neg Decimal.Nil.
Proof.
  destruct z as [|p|p]; simpl; split; try done; intros [= Hp];
    by apply DecimalPos.Unsigned.to_uint_nonnil in Hp.
Qed.

Lemma str_int_inj a b : str (IInt a) = str (IInt b) → a = b.
Proof.
  simpl. intros Heq. apply (f_equal NilZero.int_of_string) in Heq.
  destruct (to_int_valid a), (to_int_valid b).
  rewrite !NilZero.isi in Heq by done.
  apply DecimalZ.to_int_inj. congruence.
Qed.

Lemma str_inj_same_kind x y : is_int x = is_int y → str x = str y → x = y.
Proof.
  destruct x as [a|s], y as [b|t]; simpl; try done.
  - intros _ Heq. f_equal. by apply str_int_inj.
  - by intros _ ->.
Qed.

(** *** The lookup index read back *)

Lemma json_object_snoc l y :
  json_object (l ++ [y]) = json_object l ++ [(json_key y, length l)].
Proof. unfold json_object. by rewrite enumerate_snoc, fmap_app. Qed.

Lemma load_table_snoc l y :
  load_table (json_object (l ++ [y])) =
  <[IStr (json_key y) := length l]> (load_table (json_object l)).
Proof. unfold load_table. by rewrite json_object_snoc, foldl_snoc. Qed.

Lemma load_table_strings l :
  Forall (λ x, is_str x = true) l →
  load_table (json_object l) = dict_of_enumerate l.
Proof.
  induction l as [|y l IH] using rev_ind; intros Hall; [done|].
  apply Forall_app in Hall as [Hall Hy]. apply Forall_cons in Hy as [Hy _].
  rewrite load_table_snoc, dict_of_enumerate_snoc, IH by done.
  destruct y as [z|t]; simpl in Hy; [done|reflexivity].
Qed.

Lemma homogeneous_same_kind l x y :
  homogeneous l = true → x ∈ l → y ∈ l → is_int x = is_int y.
Proof.
  unfold homogeneous. intros [Hh|Hh]%orb_true_iff Hx Hy;
    rewrite forallb_forall in Hh;
    pose proof (Hh x (proj1 (list_elem_of_In _ _) Hx));
    pose proof (Hh y (proj1 (list_elem_of_In _ _) Hy));
    destruct x, y; done.
Qed.

Lemma load_table_lookup l x i :
  NoDup l → homogeneous l = true → l !! i = Some x →
  load_table (json_object l) !! IStr (str x) = Some i.
Proof.
  revert i. induction l as [|y l IH] using rev_ind; intros i Hnd Hh Hi; [done|].
  rewrite load_table_snoc.
  pose proof Hnd as (Hnd' & Hfresh & _)%NoDup_app.
  destruct (decide (i < length l)) as [Hlt|Hge].
  - rewrite lookup_app_l in Hi by done.
    assert (x ∈ l) as Hx by (by eapply list_elem_of_lookup_2).
    rewrite lookup_insert_ne.
    + apply IH; [done| |done].
      unfold homogeneous in *. rewrite !forallb_app in Hh.
      apply orb_true_iff in Hh as [[-> _]%andb_true_iff|[-> _]%andb_true_iff];
        [done|apply orb_true_r].
    + intros [= Heq]. apply str_inj_same_kind in Heq.
      * subst y. eapply Hfresh; [exact Hx|by left].
      * eapply (homogeneous_same_kind _ _ _ Hh); set_solver.
  - pose proof (lookup_lt_Some _ _ _ Hi) as Hlen.
    rewrite length_app in Hlen. simpl in Hlen.
    assert (i = length l) as -> by lia.
    rewrite lookup_app_r, Nat.sub_diag in Hi by lia. injection Hi as ->.
    apply lookup_insert_eq.
Qed.

Lemma sorted_set_homogeneous (ss : gset ident) l :
  sorted_set ss = Ok l → homogeneous l = true.
Proof.
  unfold sorted_set. intros Hl.
  assert (py_sorted l = py_sorted (elements ss)) as Heq.
  { apply py_sorted_perm. by apply sorted_set_Ok in Hl as (? & _). }
  rewrite Hl in Heq. unfold py_sorted in Heq.
  by destruct (homogeneous l).
Qed.

Lemma next_agg_evidence data g k v s :
  build data = Ok g → next_agg g !! k = Some v → s ∈ sessions v →
  ∃ r sid, r ∈ data ∧ truthy (session_id r) = true ∧
           session_id r = Some sid ∧ s = str sid.
Proof.
  intros (_ & _ & _ & Hagg & _)%build_Ok. rewrite Hagg, aggregate_next_lookup.
  case_decide; [done|]. intros [= <-]. simpl. rewrite elem_of_evidence.
  intros (r & sid & Hr & Hrest). exists r, sid. split; [|done].
  by apply list_elem_of_filter in Hr as [_ ?].
Qed.

Lemma build_evidence_ok data g k v :
  build data = Ok g →
  (∀ r s, r ∈ data → session_id r = Some (IStr s) → separator_free s) →
  next_agg g !! k = Some v → evidence_ok (sessions v).
Proof.
  intros Hg Hfree Hv s Hs.
  destruct (next_agg_evidence _ _ _ _ _ Hg Hv Hs) as (r & sid & Hr & Ht & Hsid & ->).
  split.
  - destruct sid as [z|t]; [|by eapply Hfree].
    repeat split; by apply occurs_str_int.
  - apply str_truthy_nonempty. by rewrite <- Hsid.
Qed.

End text_facts.

(** ** Properties of the batch loader *)

Section loader_facts.
Import Driver.
Context {R : Type}.
Implicit Types (batch chunk : list R) (W M : nat).

Lemma ceil_div_0 W : 0 < W → ceil_div 0 W = 0.
Proof. intros HW. unfold ceil_div. apply Nat.div_small. lia. Qed.

Lemma ceil_div_step n W : 0 < W → 0 < n → ceil_div n W = S (ceil_div (n - W) W).
Proof.
  intros HW Hn. unfold ceil_div.
  destruct (decide (n ≤ W)) as [Hle|Hgt].
  - replace (n - W) with 0 by lia.
    rewrite (Nat.div_small (0 + W - 1)) by lia.
    assert (n + W - 1 = (n - 1) + 1 * W) as -> by lia.
    rewrite Nat.div_add by lia. rewrite Nat.div_small by lia. reflexivity.
  - assert (n + W - 1 = (n - W + W - 1) + 1 * W) as -> by lia.
    rewrite Nat.div_add by lia. lia.
Qed.

Lemma range_from_spec fuel i stop W :
  0 < W → stop - i ≤ fuel →
  range_from fuel i stop W = (λ j, i + j * W) <$> seq 0 (ceil_div (stop - i) W).
Proof.
  intros HW. revert i. induction fuel as [|fuel IH]; intros i Hfuel; simpl.
  - replace (stop - i) with 0 by lia. by rewrite ceil_div_0.
  - destruct (Nat.ltb_spec i stop) as [Hlt|Hge].
    + rewrite IH by lia. rewrite (ceil_div_step (stop - i)) by lia.
      simpl. f_equal; [lia|].
      replace (stop - (i + W)) with (stop - i - W) by lia.
      rewrite <- seq_shift, <- list_fmap_compose.
      apply list_fmap_ext. intros _ j _. simpl. lia.
    + replace (stop - i) with 0 by lia. by rewrite ceil_div_0.
Qed.

Lemma py_range_spec n W :
  0 < W → py_range 0 n W = (λ j, j * W) <$> seq 0 (ceil_div n W).
Proof.
  intros HW. unfold py_range. rewrite range_from_spec by lia.
  by rewrite Nat.sub_0_r.
Qed.

Lemma ceil_div_div_mod n W :
  0 < W → ceil_div n W = n / W + (if decide (n mod W = 0) then 0 else 1).
Proof.
  intros HW. unfold ceil_div.
  pose proof (Nat.div_mod_eq n W) as Hn.
  pose proof (Nat.mod_upper_bound n W ltac:(lia)) as Hr.
  case_decide as Hz.
  - assert (n + W - 1 = (W - 1) + (n / W) * W) as -> by lia.
    rewrite Nat.div_add by lia. rewrite Nat.div_small by lia. lia.
  - assert (n + W - 1 = (n mod W - 1) + (n / W + 1) * W) as -> by lia.
    rewrite Nat.div_add by lia. rewrite Nat.div_small by lia. lia.
Qed.

Lemma slice_window batch i W : slice batch i (i + W) = take W (drop i batch).
Proof. unfold slice. f_equal. lia. Qed.

Lemma chunk_list_spec W batch :
  0 < W →
  chunk_list W batch =
    (λ j, take W (drop (j * W) batch)) <$> seq 0 (ceil_div (length batch) W).
Proof.
  intros HW. unfold chunk_list. rewrite py_range_spec by done.
  rewrite <- list_fmap_compose. apply list_fmap_ext.
  intros _ j _. simpl. apply slice_window.
Qed.

Lemma chunk_list_length W batch :
  0 < W → length (chunk_list W batch) = ceil_div (length batch) W.
Proof.
  intros HW. rewrite chunk_list_spec by done.
  by rewrite length_fmap, length_seq.
Qed.

Lemma chunk_list_nil W : 0 < W → chunk_list W (@nil R) = [].
Proof. intros HW. rewrite chunk_list_spec by done. simpl. by rewrite ceil_div_0. Qed.

Lemma chunk_list_unfold W batch :
  0 < W → batch ≠ [] →
  chunk_list W batch = take W batch :: chunk_list W (drop W batch).
Proof.
  intros HW Hne. rewrite !chunk_list_spec by done.
  assert (0 < length batch) by (destruct batch; [done | simpl; lia]).
  rewrite (ceil_div_step (length batch)) by done.
  rewrite length_drop. simpl. f_equal.
  rewrite <- seq_shift, <- list_fmap_compose.
  apply list_fmap_ext. intros _ j _. simpl.
  rewrite drop_drop. by replace (W + j * W) with (S j * W) by lia.
Qed.

Lemma chunk_list_concat W batch : 0 < W → concat (chunk_list W batch) = batch.
Proof.
  intros HW. remember (length batch) as n eqn:Hn.
  revert batch Hn. induction n as [n IH] using lt_wf_ind. intros batch Hn.
  destruct batch as [|x batch'] eqn:Hb.
  - by rewrite chunk_list_nil.
  - rewrite <- Hb in *. rewrite chunk_list_unfold by (done || by subst).
    simpl. rewrite (IH (length (drop W batch))); [| |done].
    + apply take_drop.
    + rewrite length_drop. subst. simpl. lia.
Qed.

Lemma chunk_list_sizes W batch j chunk :
  0 < W → chunk_list W batch !! j = Some chunk →
  length chunk =
    if decide (S j = ceil_div (length batch) W)
    then (if decide (length batch mod W = 0) then W else length batch mod W)
    else W.
Proof.
  intros HW. rewrite chunk_list_spec by done.
  rewrite list_lookup_fmap. intros Hj.
  destruct (seq 0 (ceil_div (length batch) W) !! j) as [j'|] eqn:Hseq; [|done].
  apply lookup_seq in Hseq as [-> Hlt]. simpl in Hj. injection Hj as <-.
  rewrite length_take, length_drop.
  rewrite ceil_div_div_mod in * by done.
  pose proof (Nat.div_mod_eq (length batch) W) as Hn.
  pose proof (Nat.mod_upper_bound (length batch) W ltac:(lia)) as Hr.
  repeat case_decide; nia.
Qed.


Variable execute_write : nat → list R → outcome.
Variables W M : nat.


Lemma attempts_retry k : ∀ a n chunk st,
  transient_run execute_write (length (submitted st)) k chunk →
  a + k < M → k ≤ n →
  attempts execute_write M (seq a n) chunk st =
  attempts execute_write M (seq (a + k) (n - k)) chunk (after_retries st a k chunk).
Proof.
  induction k as [|k IH]; intros a n chunk st Hrun HM Hn.
  - unfold after_retries. simpl. rewrite !app_nil_r, Nat.add_0_r, Nat.sub_0_r.
    by destruct st.
  - destruct n as [|n]; [lia|]. simpl seq. cbn [Driver.attempts].
    destruct (Hrun 0 ltac:(lia)) as (f & Hf & Htr).
    rewrite Nat.add_0_r in Hf. rewrite Hf, Htr.
    rewrite decide_False by lia. simpl.
    rewrite IH; [| |lia|lia].
    + unfold after_retries. simpl. rewrite <- !(assoc_L (++)). simpl.
      by replace (S (a + k)) with (a + S k) by lia.
    + intros j Hj. simpl. rewrite length_app. simpl.
      destruct (Hrun (S j) ltac:(lia)) as (f' & Hf' & Htr').
      exists f'. split; [|done]. rewrite <- Hf'. f_equal. lia.
Qed.

Lemma attempts_commit k c chunk st :
  transient_run execute_write (length (submitted st)) k chunk →
  execute_write (length (submitted st) + k) chunk = Summary c →
  k < M →
  attempts execute_write M (seq 0 M) chunk st =
  inl (State (accumulate (overall st) c)
             (submitted st ++ replicate (S k) chunk)
             (slept st ++ (Nat.pow 2 <$> seq 0 k))).
Proof.
  intros Hrun Hc HM. rewrite (attempts_retry k) by (done || lia).
  destruct (M - k) as [|n] eqn:Hn; [lia|]. simpl.
  rewrite length_app, length_replicate, Hc.
  by rewrite <- (assoc_L (++)), <- replicate_cons_app.
Qed.

Lemma attempts_exhausted chunk st :
  0 < M →
  transient_run execute_write (length (submitted st)) M chunk →
  ∃ f, execute_write (length (submitted st) + (M - 1)) chunk = Fails f ∧
       transient f = true ∧
       attempts execute_write M (seq 0 M) chunk st = inr (f, after_retries st 0 M chunk).
Proof.
  intros HM Hrun.
  destruct (Hrun (M - 1) ltac:(lia)) as (f & Hf & Htr).
  exists f. split; [done|]. split; [done|].
  rewrite (attempts_retry (M - 1)); [| |lia|lia].
  - replace (M - (M - 1)) with 1 by lia. simpl.
    rewrite length_app, length_replicate, Hf, Htr.
    rewrite decide_True by lia. unfold after_retries. simpl.
    rewrite <- !(assoc_L (++)), <- replicate_cons_app.
    assert (Nat.pow 2 <$> seq 0 M =
            (Nat.pow 2 <$> seq 0 (M - 1)) ++ [2 ^ (M - 1)]) as ->.
    { replace M with (S (M - 1)) at 1 by lia. by rewrite seq_S, fmap_app. }
    assert (replicate M chunk = chunk :: replicate (M - 1) chunk) as ->.
    { by replace M with (S (M - 1)) at 1 by lia. }
    done.
  - intros j Hj. apply Hrun. lia.
Qed.

Lemma attempts_permanent k f chunk st :
  transient_run execute_write (length (submitted st)) k chunk →
  execute_write (length (submitted st) + k) chunk = Fails f →
  transient f = false →
  k < M →
  attempts execute_write M (seq 0 M) chunk st =
  inr (f, State (overall st) (submitted st ++ replicate (S k) chunk)
                (slept st ++ (Nat.pow 2 <$> seq 0 k))).
Proof.
  intros Hrun Hf Htr HM. rewrite (attempts_retry k) by (done || lia).
  destruct (M - k) as [|n] eqn:Hn; [lia|]. simpl.
  rewrite length_app, length_replicate, Hf, Htr.
  by rewrite <- (assoc_L (++)), <- replicate_cons_app.
Qed.

Lemma chunks_app pre post batch st :
  chunks execute_write W M (pre ++ post) batch st =
  match chunks execute_write W M pre batch st with
  | inl st' => chunks execute_write W M post batch st'
  | inr e => inr e
  end.
Proof.
  revert st. induction pre as [|i pre IH]; intros st; simpl; [done|].
  destruct (Driver.attempts _ _ _ _ _) as [st'|e]; [apply IH|done].
Qed.

(** Sum of the waits [2^0 + ... + 2^(k-1)]. *)
Lemma backoff_sum k : sum_list (Nat.pow 2 <$> seq 0 k) = 2 ^ k - 1.
Proof.
  induction k as [|k IH]; [done|].
  rewrite seq_S, fmap_app, sum_list_with_app, IH. simpl.
  pose proof (Nat.pow_nonzero 2 k ltac:(lia)). lia.
Qed.

Lemma attempts_inl_submitted n : ∀ a chunk st st',
  attempts execute_write M (seq a n) chunk st = inl st' → 0 < n →
  ∃ r, 1 ≤ r ≤ n ∧ submitted st' = submitted st ++ replicate r chunk.
Proof.
  induction n as [|n IH]; intros a chunk st st' Hrun Hn; [lia|].
  simpl in Hrun.
  destruct (execute_write _ _) as [c|f].
  - injection Hrun as <-. exists 1. simpl. split; [lia|done].
  - destruct (transient f); [|done]. case_decide; [done|].
    destruct n as [|n]; [simpl in Hrun|].
    + injection Hrun as <-. exists 1. simpl. split; [lia|done].
    + apply IH in Hrun as (r & Hr & ->); [|lia]. simpl.
      exists (S r). split; [lia|]. by rewrite <- (assoc_L (++)).
Qed.

Lemma chunks_inl_submitted starts : ∀ batch st st',
  0 < M → chunks execute_write W M starts batch st = inl st' →
  ∃ rs, length rs = length starts ∧ Forall (λ r, 1 ≤ r ≤ M) rs ∧
        submitted st' = submitted st ++
          concat (zip_with replicate rs ((λ i, slice batch i (i + W)) <$> starts)).
Proof.
  induction starts as [|i starts IH]; intros batch st st' HM Hrun; simpl in Hrun.
  - injection Hrun as <-. exists []. by rewrite app_nil_r.
  - destruct (Driver.attempts _ _ _ _ _) as [st1|e] eqn:Hatt; [|done].
    apply attempts_inl_submitted in Hatt as (r & Hr & Hsub1); [|done].
    apply IH in Hrun as (rs & Hlen & Hrs & Hsub); [|done].
    exists (r :: rs). simpl. split; [by f_equal|]. split; [by constructor|].
    by rewrite Hsub, Hsub1, <- (assoc_L (++)).
Qed.

Lemma execute_batch_with_chunks batch :
  0 < W →
  execute_batch_with execute_write W M batch =
  match chunks execute_write W M (py_range 0 (length batch) W) batch init with
  | inl st =>
      (Returned (Counters (nodes (overall st)) (rels (overall st))
                          (props (overall st))), st)
  | inr (f, st) => (LoadFailed f, st)
  end.
Proof. intros HW. unfold execute_batch_with. by rewrite decide_False by lia. Qed.

End loader_facts.

Section loader_more.
Import Driver.
Context {R : Type} (execute_write : nat → list R → outcome) (W M : nat).
Implicit Types (batch chunk : list R) (st : @state R) (trace : list (list R)).

Lemma commits_snoc trace chunk :
  commits execute_write (trace ++ [chunk]) =
  commits execute_write trace ++
    match execute_write (length trace) chunk with
    | Summary c => [(chunk, c)]
    | Fails _ => []
    end.
Proof.
  unfold commits. rewrite enumerate_snoc, omap_app. simpl.
  by destruct (execute_write _ _).
Qed.

Lemma commits_transient_run trace k chunk :
  transient_run execute_write (length trace) k chunk →
  commits execute_write (trace ++ replicate k chunk) = commits execute_write trace.
Proof.
  induction k as [|k IH]; intros Hrun; [by rewrite app_nil_r|].
  rewrite replicate_S_end, (assoc_L (++)), commits_snoc, IH.
  - rewrite length_app, length_replicate.
    destruct (Hrun k ltac:(lia)) as (f & -> & _). by rewrite app_nil_r.
  - intros j Hj. apply Hrun. lia.
Qed.

Lemma commits_attempt trace k chunk :
  transient_run execute_write (length trace) k chunk →
  commits execute_write (trace ++ replicate (S k) chunk) =
  commits execute_write trace ++
    match execute_write (length trace + k) chunk with
    | Summary c => [(chunk, c)]
    | Fails _ => []
    end.
Proof.
  intros Hrun.
  rewrite replicate_S_end, (assoc_L (++)), commits_snoc.
  by rewrite commits_transient_run, length_app, length_replicate.
Qed.

(** The first call on a chunk that is not a transient failure, if there is
    one among the next [m] calls. *)
Lemma first_settled n0 m chunk :
  transient_run execute_write n0 m chunk ∨
  ∃ k, k < m ∧ transient_run execute_write n0 k chunk ∧
       ((∃ c, execute_write (n0 + k) chunk = Summary c) ∨
        (∃ f, execute_write (n0 + k) chunk = Fails f ∧ transient f = false)).
Proof.
  induction m as [|m [IH|(k & Hk & Hrun & Hend)]].
  - left. intros j Hj. lia.
  - destruct (execute_write (n0 + m) chunk) as [c|f] eqn:Hm.
    + right. exists m. split; [lia|]. split; [done|]. left. by exists c.
    + destruct (transient f) eqn:Htr.
      * left. intros j Hj. destruct (decide (j = m)) as [->|Hne].
        -- by exists f.
        -- apply IH. lia.
      * right. exists m. split; [lia|]. split; [done|]. right. by exists f.
  - right. exists k. split; [lia|]. done.
Qed.

(** Every way the retry loop on one chunk can end. *)
Lemma attempts_cases chunk st :
  0 < M →
  ∃ k, k < M ∧
    transient_run execute_write (length (submitted st)) k chunk ∧
    ((∃ c, execute_write (length (submitted st) + k) chunk = Summary c ∧
           attempts execute_write M (seq 0 M) chunk st =
           inl (State (accumulate (overall st) c)
                      (submitted st ++ replicate (S k) chunk)
                      (slept st ++ (Nat.pow 2 <$> seq 0 k)))) ∨
     (∃ f, execute_write (length (submitted st) + k) chunk = Fails f ∧
           transient f = false ∧
           attempts execute_write M (seq 0 M) chunk st =
           inr (f, State (overall st)
                         (submitted st ++ replicate (S k) chunk)
                         (slept st ++ (Nat.pow 2 <$> seq 0 k)))) ∨
     (∃ f, S k = M ∧
           execute_write (length (submitted st) + k) chunk = Fails f ∧
           transient f = true ∧
           attempts execute_write M (seq 0 M) chunk st =
           inr (f, State (overall st)
                         (submitted st ++ replicate (S k) chunk)
                         (slept st ++ (Nat.pow 2 <$> seq 0 (S k)))))).
Proof.
  intros HM.
  destruct (first_settled (length (submitted st)) M chunk)
    as [Hrun|(k & Hk & Hrun & [[c Hc]|(f & Hf & Htr)])].
  - destruct (attempts_exhausted execute_write M chunk st HM Hrun)
      as (f & Hf & Htr & Hatt).
    exists (M - 1). split; [lia|]. split; [intros j Hj; apply Hrun; lia|].
    right. right. exists f. split; [lia|]. split; [done|]. split; [done|].
    rewrite Hatt. unfold after_retries. by replace (S (M - 1)) with M by lia.
  - exists k. split; [done|]. split; [done|]. left. exists c. split; [done|].
    by apply attempts_commit.
  - exists k. split; [done|]. split; [done|]. right. left. exists f.
    split; [done|]. split; [done|]. by apply attempts_permanent.
Qed.

(** Commits and counters along the chunk loop. *)
Lemma chunks_commits starts : ∀ batch st,
  0 < M →
  ∃ rest,
    match chunks execute_write W M starts batch st with
    | inl st' =>
        commits execute_write (submitted st') =
          commits execute_write (submitted st) ++ rest ∧
        overall st' = foldl accumulate (overall st) rest.*2 ∧
        rest.*1 = (λ i, slice batch i (i + W)) <$> starts
    | inr (f, st') =>
        commits execute_write (submitted st') =
          commits execute_write (submitted st) ++ rest ∧
        overall st' = foldl accumulate (overall st) rest.*2 ∧
        ∃ j, j < length starts ∧
             rest.*1 = take j ((λ i, slice batch i (i + W)) <$> starts)
    end.
Proof.
  induction starts as [|i starts IH]; intros batch st HM; simpl.
  { exists []. by rewrite app_nil_r. }
  destruct (attempts_cases (slice batch i (i + W)) st HM)
    as (k & Hk & Hrun & [(c & Hc & ->)|[(f & Hf & Htr & ->)|(f & HkM & Hf & Htr & ->)]]).
  - destruct (IH batch (State (accumulate (overall st) c)
                (submitted st ++ replicate (S k) (slice batch i (i + W)))
                (slept st ++ (Nat.pow 2 <$> seq 0 k))) HM) as [rest Hrest].
    exists ((slice batch i (i + W), c) :: rest).
    destruct (chunks _ _ _ _ _ _) as [st'|[f st']];
      cbn [submitted overall slept] in Hrest;
      rewrite commits_attempt, Hc in Hrest by done;
      destruct Hrest as (-> & -> & Hrest); rewrite <- (assoc_L (++));
      (split; [done|]); (split; [done|]).
    + simpl. by f_equal.
    + destruct Hrest as (j & Hj & Hrest). exists (S j).
      split; [lia|]. simpl. by f_equal.
  - exists []. cbn [submitted overall slept].
    rewrite commits_attempt, Hf, !app_nil_r by done.
    split; [done|]. split; [done|]. exists 0. split; [simpl; lia|done].
  - exists []. cbn [submitted overall slept].
    rewrite commits_attempt, Hf, !app_nil_r by done.
    split; [done|]. split; [done|]. exists 0. split; [simpl; lia|done].
Qed.

Lemma foldl_accumulate (t : totals) (cs : list counters) :
  nodes (foldl accumulate t cs) = nodes t + sum_list (nodes_created <$> cs) ∧
  rels (foldl accumulate t cs) = rels t + sum_list (relationships_created <$> cs) ∧
  props (foldl accumulate t cs) = props t + sum_list (properties_set <$> cs).
Proof.
  revert t. induction cs as [|c cs IH]; intros t; [simpl; lia|].
  rewrite !fmap_cons. cbn [foldl sum_list_with].
  destruct (IH (accumulate t c)) as (-> & -> & ->). unfold id. simpl. lia.
Qed.

Lemma prefix_concat {A} (l1 l2 : list (list A)) :
  l1 `prefix_of` l2 → concat l1 `prefix_of` concat l2.
Proof. intros [k ->]. rewrite concat_app. by eexists. Qed.

End loader_more.

Section loader_trace.
Import Driver.
Context {R : Type} (execute_write : nat → list R → outcome) (W M : nat).
Implicit Types (batch chunk : list R) (st : @state R).

Lemma backoff_waits k :
  k ≤ M →
  Forall (λ w, ∃ a, a < M ∧ w = 2 ^ a) (Nat.pow 2 <$> seq 0 k) ∧
  sum_list (Nat.pow 2 <$> seq 0 k) ≤ 2 ^ M - 1 ∧
  length (Nat.pow 2 <$> seq 0 k) = k.
Proof.
  intros Hk. split; [|split].
  - apply Forall_fmap, Forall_forall. intros a Ha%elem_of_seq. simpl.
    exists a. split; [lia|done].
  - rewrite backoff_sum.
    pose proof (Nat.pow_le_mono_r 2 k M ltac:(lia) Hk). lia.
  - by rewrite length_fmap, length_seq.
Qed.

(** Calls and waits along the chunk loop, for either way it ends. *)
Lemma chunks_trace starts : ∀ batch st,
  0 < M →
  ∃ st' rs sleeps,
    (chunks execute_write W M starts batch st = inl st' ∧
       length rs = length starts ∨
     ∃ f, chunks execute_write W M starts batch st = inr (f, st')) ∧
    length rs ≤ length starts ∧
    Forall (λ r, 1 ≤ r ≤ M) rs ∧
    (starts ≠ [] → rs ≠ []) ∧
    submitted st' = submitted st ++
      concat (zip_with replicate rs ((λ i, slice batch i (i + W)) <$> starts)) ∧
    slept st' = slept st ++ sleeps ∧
    Forall (λ w, ∃ a, a < M ∧ w = 2 ^ a) sleeps ∧
    length sleeps ≤ sum_list rs ∧
    sum_list sleeps ≤ (2 ^ M - 1) * length rs.
Proof.
  induction starts as [|i starts IH]; intros batch st HM; simpl.
  { exists st, [], []. rewrite !app_nil_r. split; [by left|].
    repeat split; simpl; try done; lia. }
  destruct (attempts_cases execute_write M (slice batch i (i + W)) st HM)
    as (k & Hk & Hrun & [(c & Hc & ->)|[(f & Hf & Htr & ->)|(f & HkM & Hf & Htr & ->)]]).
  - destruct (IH batch (State (accumulate (overall st) c)
                (submitted st ++ replicate (S k) (slice batch i (i + W)))
                (slept st ++ (Nat.pow 2 <$> seq 0 k))) HM)
      as (st' & rs & sleeps & Hres & Hlen & Hrs & _ & Hsub & Hsl & Hpow & Hn & Hsum).
    cbn [submitted overall slept] in Hsub, Hsl.
    destruct (backoff_waits k ltac:(lia)) as (Hpow0 & Hsum0 & Hlen0).
    exists st', (S k :: rs), ((Nat.pow 2 <$> seq 0 k) ++ sleeps).
    split.
    { destruct Hres as [[-> Hlen']|[f ->]]; [left|right; by exists f].
      split; [done|]. simpl. by f_equal. }
    split; [simpl; lia|]. split; [constructor; [lia|done]|].
    split; [done|].
    split; [rewrite Hsub; cbn [zip_with concat fmap list_fmap];
            by rewrite <- !(assoc_L (++))|].
    split; [by rewrite Hsl, <- (assoc_L (++))|].
    split; [by apply Forall_app|].
    split; [rewrite length_app; simpl; lia|].
    rewrite sum_list_with_app. simpl. lia.
  - destruct (backoff_waits k ltac:(lia)) as (Hpow0 & Hsum0 & Hlen0).
    eexists _, [S k], (Nat.pow 2 <$> seq 0 k).
    split; [right; by exists f|].
    split; [simpl; lia|]. split; [constructor; [lia|done]|].
    split; [done|].
    split; [cbn [submitted zip_with concat fmap list_fmap];
            destruct starts; simpl; by rewrite app_nil_r|].
    split; [done|]. split; [done|].
    split; [simpl; lia|]. simpl. lia.
  - destruct (backoff_waits (S k) ltac:(lia)) as (Hpow0 & Hsum0 & Hlen0).
    eexists _, [S k], (Nat.pow 2 <$> seq 0 (S k)).
    split; [right; by exists f|].
    split; [simpl; lia|]. split; [constructor; [lia|done]|].
    split; [done|].
    split; [cbn [submitted zip_with concat fmap list_fmap];
            destruct starts; simpl; by rewrite app_nil_r|].
    split; [done|]. split; [done|].
    split; [simpl in *; lia|]. simpl in *. lia.
Qed.

Lemma elem_of_replicated {A} (rs : list nat) (cs : list (list A)) c :
  c ∈ concat (zip_with replicate rs cs) → c ∈ cs.
Proof.
  revert cs. induction rs as [|r rs IH]; intros [|c' cs]; simpl; intros Hc;
    try (by apply elem_of_nil in Hc).
  apply elem_of_app in Hc as [Hc|Hc].
  - apply elem_of_replicate in Hc as [-> _]. by left.
  - right. by apply IH.
Qed.

Lemma length_replicated {A} (rs : list nat) (cs : list (list A)) :
  length rs ≤ length cs →
  length (concat (zip_with replicate rs cs)) = sum_list rs.
Proof.
  revert cs. induction rs as [|r rs IH]; intros [|c cs] Hlen; simpl in *;
    [done|done|lia|].
  rewrite length_app, length_replicate, IH by lia. done.
Qed.

Lemma sum_list_bounded (rs : list nat) (m : nat) :
  Forall (λ r, 1 ≤ r ≤ m) rs → length rs ≤ sum_list rs ≤ m * length rs.
Proof. induction 1 as [|r rs Hr _ IH]; simpl; lia. Qed.

Lemma chunk_length_bounds batch c :
  0 < W → c ∈ chunk_list W batch → 1 ≤ length c ≤ W.
Proof.
  intros HW (j & Hj)%list_elem_of_lookup.
  rewrite (chunk_list_sizes W batch j c HW Hj).
  pose proof (Nat.mod_upper_bound (length batch) W ltac:(lia)).
  repeat case_decide; lia.
Qed.

End loader_trace.

Section loader_outcomes.
Import Driver.
Context {R : Type} (execute_write : nat → list R → outcome) (W M : nat).
Implicit Types (batch chunk : list R) (st : @state R).

Lemma chunks_fault_free starts : ∀ batch st,
  0 < M →
  (∀ j chunk, ((λ i, slice batch i (i + W)) <$> starts) !! j = Some chunk →
     ∃ c, execute_write (length (submitted st) + j) chunk = Summary c) →
  ∃ st', chunks execute_write W M starts batch st = inl st' ∧
         submitted st' = submitted st ++ ((λ i, slice batch i (i + W)) <$> starts) ∧
         slept st' = slept st.
Proof.
  induction starts as [|i starts IH]; intros batch st HM Hok; simpl.
  { exists st. by rewrite app_nil_r. }
  destruct (Hok 0 (slice batch i (i + W)) eq_refl) as [c Hc].
  rewrite (attempts_commit execute_write M 0 c); [|intros j Hj; lia|done|done].
  destruct (IH batch (State (accumulate (overall st) c)
              (submitted st ++ replicate 1 (slice batch i (i + W)))
              (slept st ++ (Nat.pow 2 <$> seq 0 0))) HM) as (st' & -> & Hsub & Hsl).
  - intros j chunk Hj. cbn [submitted]. rewrite length_app. simpl.
    destruct (Hok (S j) chunk Hj) as [c' Hc']. exists c'.
    rewrite <- Hc'. f_equal. lia.
  - exists st'. split; [done|]. simpl in Hsub, Hsl.
    rewrite Hsub, Hsl, app_nil_r, <- (assoc_L (++)). done.
Qed.

(** Calls, commits and waits balance: a call commits, or is followed by
    a wait, or is the fault outside the transient class that ends the
    load. *)
Lemma chunks_accounting starts : ∀ batch st,
  0 < M →
  ∃ st' extra,
    (chunks execute_write W M starts batch st = inl st' ∧ extra = 0 ∨
     ∃ f, chunks execute_write W M starts batch st = inr (f, st') ∧
          extra = (if transient f then 0 else 1)) ∧
    length (submitted st') + length (commits execute_write (submitted st))
      + length (slept st) =
    length (submitted st) + length (commits execute_write (submitted st'))
      + length (slept st') + extra.
Proof.
  induction starts as [|i starts IH]; intros batch st HM; simpl.
  { exists st, 0. split; [by left|lia]. }
  destruct (attempts_cases execute_write M (slice batch i (i + W)) st HM)
    as (k & Hk & Hrun & [(c & Hc & ->)|[(f & Hf & Htr & ->)|(f & HkM & Hf & Htr & ->)]]).
  - destruct (IH batch (State (accumulate (overall st) c)
                (submitted st ++ replicate (S k) (slice batch i (i + W)))
                (slept st ++ (Nat.pow 2 <$> seq 0 k))) HM)
      as (st' & extra & Hres & Hbal).
    cbn [submitted overall slept] in Hbal.
    rewrite commits_attempt, Hc in Hbal by done.
    rewrite !length_app, length_replicate, length_fmap, length_seq in Hbal.
    simpl in Hbal. exists st', extra. split; [done|lia].
  - eexists _, 1. split; [right; exists f; by rewrite Htr|].
    cbn [submitted overall slept]. rewrite commits_attempt, Hf, app_nil_r by done.
    rewrite !length_app, length_replicate, length_fmap, length_seq. lia.
  - eexists _, 0. split; [right; exists f; by rewrite Htr|].
    cbn [submitted overall slept]. rewrite commits_attempt, Hf, app_nil_r by done.
    rewrite !length_app, length_replicate, length_fmap, length_seq. lia.
Qed.

(** A failed load: the last call, its fault, and what preceded it. *)
Lemma chunks_failure starts : ∀ batch st f st',
  0 < M →
  chunks execute_write W M starts batch st = inr (f, st') →
  ∃ trace chunk,
    submitted st' = trace ++ [chunk] ∧
    chunk ∈ (λ i, slice batch i (i + W)) <$> starts ∧
    execute_write (length trace) chunk = Fails f ∧
    (transient f = true →
       ∃ trace0, submitted st' = trace0 ++ replicate M chunk ∧
                 transient_run execute_write (length trace0) M chunk ∧
                 last (slept st') = Some (2 ^ (M - 1))) ∧
    (transient f = false →
       ∃ trace0 k, k < M ∧ trace = trace0 ++ replicate k chunk ∧
                   transient_run execute_write (length trace0) k chunk).
Proof.
  induction starts as [|i starts IH]; intros batch st f st' HM; simpl; [done|].
  destruct (attempts_cases execute_write M (slice batch i (i + W)) st HM)
    as (k & Hk & Hrun & [(c & Hc & ->)|[(f' & Hf & Htr & ->)|(f' & HkM & Hf & Htr & ->)]]).
  - intros Hres. apply IH in Hres as (trace & chunk & Hsub & Hin & Hrest); [|done].
    exists trace, chunk. split; [done|]. split; [by right|done].
  - intros Heq. assert (f = f') as -> by congruence.
    match type of Heq with inr (_, ?s) = _ =>
      assert (st' = s) as -> by congruence
    end.
    clear Heq. cbn [submitted slept].
    exists (submitted st ++ replicate k (slice batch i (i + W))), (slice batch i (i + W)).
    split; [by rewrite replicate_S_end, (assoc_L (++))|].
    split; [by left|].
    split; [by rewrite length_app, length_replicate|].
    split; [by rewrite Htr|]. intros _. by exists (submitted st), k.
  - intros Heq. assert (f = f') as -> by congruence.
    match type of Heq with inr (_, ?s) = _ =>
      assert (st' = s) as -> by congruence
    end.
    clear Heq. cbn [submitted slept].
    exists (submitted st ++ replicate k (slice batch i (i + W))), (slice batch i (i + W)).
    split; [by rewrite replicate_S_end, (assoc_L (++))|].
    split; [by left|].
    split; [by rewrite length_app, length_replicate|].
    split; [|by rewrite Htr]. intros _. exists (submitted st).
    split; [by rewrite HkM|]. split.
    + intros j Hj. destruct (decide (j = k)) as [->|Hne].
      * by exists f'.
      * apply Hrun. lia.
    + rewrite seq_S, fmap_app, (assoc_L (++)). simpl. rewrite last_snoc.
      by replace (M - 1) with k by lia.
Qed.

End loader_outcomes.

(** C5.  Chunking: for a window size [W > 0] the loop of [execute_batch]
    goes through [ceil(N/W)] chunks, which are the consecutive windows
    [batch[j*W : j*W+W]] and concatenate to the record list; every chunk has
    [W] records except the last, which has [N mod W], or [W] when that is
    zero.  These chunks are what the loader hands to the write operation,
    whatever the store does: the calls of a load are the chunks in order,
    each between once and [MAX_RETRIES] times, nothing else, stopping
    before the end only when the load fails; a load that returns has
    submitted every chunk; and when no call fails the load returns after
    exactly one call per chunk.  With [W = 2] the records [a,b,c,d,e] give
    [a,b], [c,d], [e]. *)
Theorem chunking_spec {R : Type} (W : nat) (batch : list R) :
  0 < W →
  let N := length batch in
  let cs := Driver.chunk_list W batch in
  length cs = Driver.ceil_div N W ∧
  (N ≤ Driver.ceil_div N W * W ∧ (0 < N → (Driver.ceil_div N W - 1) * W < N)) ∧
  concat cs = batch ∧
  (∀ j, j < Driver.ceil_div N W → cs !! j = Some (take W (drop (j * W) batch))) ∧
  (∀ j c, cs !! j = Some c →
     length c = if decide (S j = Driver.ceil_div N W)
                then (if decide (N mod W = 0) then W else N mod W)
                else W) ∧
  (∀ (execute_write : nat → list R → Driver.outcome) M,
     0 < M →
     let res := (Driver.execute_batch_with execute_write W M batch).1 in
     let st := (Driver.execute_batch_with execute_write W M batch).2 in
     (∃ rs, length rs ≤ Driver.ceil_div N W ∧ Forall (λ r, 1 ≤ r ≤ M) rs ∧
            Driver.submitted st = concat (zip_with replicate rs cs) ∧
            (∀ c, res = Driver.Returned c → length rs = Driver.ceil_div N W) ∧
            (length rs < Driver.ceil_div N W → ∃ f, res = Driver.LoadFailed f)) ∧
     ((∀ j chunk, cs !! j = Some chunk →
         ∃ c, execute_write j chunk = Driver.Summary c) →
      (∃ c, res = Driver.Returned c) ∧ Driver.submitted st = cs)) ∧
  (∀ a b c d e : R,
     Driver.chunk_list 2 [a; b; c; d; e] = [[a; b]; [c; d]; [e]] ∧
     ∀ (execute_write : nat → list R → Driver.outcome) M,
       0 < M →
       (∀ j chunk, ∃ s, execute_write j chunk = Driver.Summary s) →
       Driver.submitted
         (Driver.execute_batch_with execute_write 2 M [a; b; c; d; e]).2 =
       [[a; b]; [c; d]; [e]]).
Proof.
  intros HW N cs.
  assert (length cs = Driver.ceil_div N W) as Hcs by (by apply chunk_list_length).
  assert (∀ (execute_write : nat → list R → Driver.outcome) M batch',
            0 < M →
            (∀ j chunk, Driver.chunk_list W batch' !! j = Some chunk →
               ∃ c, execute_write j chunk = Driver.Summary c) →
            (∃ c, (Driver.execute_batch_with execute_write W M batch').1 =
                    Driver.Returned c) ∧
            Driver.submitted (Driver.execute_batch_with execute_write W M batch').2 =
              Driver.chunk_list W batch') as Hfree.
  { intros execute_write M batch' HM Hok.
    rewrite execute_batch_with_chunks by done.
    destruct (chunks_fault_free execute_write W M
                (Driver.py_range 0 (length batch') W) batch' Driver.init HM)
      as (st & -> & Hsub & _); [exact Hok|].
    split; [by eexists|exact Hsub]. }
  split; [done|].
  split.
  { subst N. rewrite ceil_div_div_mod by done.
    pose proof (Nat.div_mod_eq (length batch) W).
    pose proof (Nat.mod_upper_bound (length batch) W ltac:(lia)).
    case_decide; split; nia. }
  split; [by apply chunk_list_concat|].
  split.
  { intros j Hj. subst cs. rewrite chunk_list_spec by done.
    rewrite list_lookup_fmap, lookup_seq_lt by done. done. }
  split; [intros j c; by apply chunk_list_sizes|].
  split.
  - intros execute_write M HM res st. split; [|by apply Hfree].
    subst res st. rewrite execute_batch_with_chunks by done.
    destruct (chunks_trace execute_write W M
                (Driver.py_range 0 (length batch) W) batch Driver.init HM)
      as (st & rs & sleeps & Hres & Hlen & Hrs & _ & Hsub & _).
    fold (Driver.chunk_list W batch) in Hsub. fold cs in Hsub. simpl in Hsub.
    assert (length (Driver.py_range 0 (length batch) W) = Driver.ceil_div N W)
      as Hstarts.
    { rewrite <- Hcs. unfold cs, Driver.chunk_list. by rewrite length_fmap. }
    rewrite Hstarts in Hlen, Hres.
    exists rs. split; [done|]. split; [done|].
    destruct Hres as [[-> Hall]|[f ->]]; cbn [fst snd].
    + split; [done|]. split; [done|]. lia.
    + split; [done|]. split; [done|]. intros _. by exists f.
  - intros a b c d e. split; [done|]. intros execute_write M HM Hok.
    assert (0 < 2) as H2 by lia. clear Hfree.
    rewrite execute_batch_with_chunks by done.
    destruct (chunks_fault_free execute_write 2 M
                (Driver.py_range 0 (length [a; b; c; d; e]) 2) [a; b; c; d; e]
                Driver.init HM) as (st & -> & Hsub & _); [|exact Hsub].
    intros j chunk _. apply Hok.
Qed.

Lemma chunking_spec_witness :
  Driver.submitted
    (Driver.execute_batch_with
       (λ _ chunk, Driver.Summary (Driver.Counters (length chunk) 0 1))
       2 3 [1; 2; 3; 4; 5]).2 = [[1; 2]; [3; 4]; [5]] ∧
  length (Driver.chunk_list 2 [1; 2; 3; 4; 5]) = 3.
Proof.
  pose proof (chunking_spec 2 [1; 2; 3; 4; 5] ltac:(lia))
    as (Hlen & _ & _ & _ & _ & Hload & Hex).
  destruct (Hload (λ _ chunk, Driver.Summary (Driver.Counters (length chunk) 0 1))
              3 ltac:(lia)) as [_ Hfree].
  destruct Hfree as [_ Hsub]; [intros j chunk _; by eexists|].
  destruct (Hex 1 2 3 4 5) as [Hcs _].
  split; [by rewrite Hsub, Hcs|exact Hlen].
Defined.

(** C3.  Retry with backoff.  Take any load and any chunk of it, reached
    after the earlier chunks committed.  If the write operation fails on
    that chunk with a transient fault [k < MAX_RETRIES] times and then
    succeeds, the chunk commits: its counters are added to the running
    totals, the waits before the success are [1, 2, ..., 2^(k-1)], whose
    sum is [2^k - 1], and the load goes on with the next chunk.  If it fails
    with a transient fault [MAX_RETRIES] times, the load fails with that
    fault and the write operation is never called on a later chunk. *)
Theorem retry_backoff {R : Type} (execute_write : nat → list R → Driver.outcome)
    (W M : nat) (batch : list R) (pre post : list nat) (i : nat)
    (st : Driver.state) :
  0 < W →
  Driver.py_range 0 (length batch) W = pre ++ i :: post →
  Driver.chunks execute_write W M pre batch Driver.init = inl st →
  let chunk := Driver.slice batch i (i + W) in
  let n0 := length (Driver.submitted st) in
  (∀ k c,
     k < M →
     Driver.transient_run execute_write n0 k chunk →
     execute_write (n0 + k) chunk = Driver.Summary c →
     ∃ st',
       Driver.attempts execute_write M (seq 0 M) chunk st = inl st' ∧
       Driver.overall st' = Driver.accumulate (Driver.overall st) c ∧
       Driver.submitted st' = Driver.submitted st ++ replicate (S k) chunk ∧
       Driver.slept st' = Driver.slept st ++ (Nat.pow 2 <$> seq 0 k) ∧
       sum_list (Driver.slept st') =
         sum_list (Driver.slept st) + sum_list (Nat.pow 2 <$> seq 0 k) ∧
       sum_list (Nat.pow 2 <$> seq 0 k) = 2 ^ k - 1 ∧
       Driver.chunks execute_write W M (pre ++ i :: post) batch Driver.init =
         Driver.chunks execute_write W M post batch st') ∧
  (0 < M →
   Driver.transient_run execute_write n0 M chunk →
   ∃ f st',
     Driver.execute_batch_with execute_write W M batch = (Driver.LoadFailed f, st') ∧
     execute_write (n0 + (M - 1)) chunk = Driver.Fails f ∧
     Driver.transient f = true ∧
     Driver.overall st' = Driver.overall st ∧
     Driver.submitted st' = Driver.submitted st ++ replicate M chunk).
Proof.
  intros HW Hsplit Hpre chunk n0. split.
  - intros k c Hk Hrun Hc.
    pose proof (attempts_commit execute_write M k c chunk st Hrun Hc Hk) as Hatt.
    eexists. split; [exact Hatt|]. simpl.
    split; [done|]. split; [done|]. split; [done|].
    split; [by rewrite sum_list_with_app|].
    split; [apply backoff_sum|].
    rewrite chunks_app, Hpre. simpl. fold chunk. by rewrite Hatt.
  - intros HM Hrun.
    destruct (attempts_exhausted execute_write M chunk st HM Hrun)
      as (f & Hf & Htr & Hatt).
    exists f, (Driver.after_retries st 0 M chunk).
    rewrite execute_batch_with_chunks, Hsplit, chunks_app, Hpre by done.
    simpl. fold chunk. by rewrite Hatt.
Qed.

Lemma retry_backoff_witness :
  ∃ st',
    Driver.attempts (flaky Driver.SessionExpired) 3 (seq 0 3) [3; 4]
      (Driver.State (Driver.Totals 2 0 1) [[1; 2]] []) = inl st' ∧
    Driver.overall st' = Driver.Totals 4 0 2 ∧
    Driver.submitted st' = [[1; 2]; [3; 4]; [3; 4]] ∧
    Driver.slept st' = [1].
Proof.
  pose proof (retry_backoff (flaky Driver.SessionExpired)
    2 3 [1; 2; 3; 4; 5] [0] [4] 2
    (Driver.State (Driver.Totals 2 0 1) [[1; 2]] [])
    ltac:(lia) eq_refl eq_refl) as [Hcommit _].
  destruct (Hcommit 1 (Driver.Counters 2 0 1) ltac:(lia))
    as (st' & Hatt & Hov & Hsub & Hsl & _).
  - intros j Hj. exists Driver.SessionExpired. by replace j with 0 by lia.
  - reflexivity.
  - exists st'. split; [exact Hatt|]. split; [exact Hov|].
    split; [exact Hsub|exact Hsl].
Defined.

(** C4.  A fault outside the transient class, on any attempt of any chunk
    reached after the earlier chunks committed, ends the load on that
    attempt: nothing is slept for it, the write operation is not called
    again, the caller gets [LoadFailed] with that fault, and no counters
    are returned. *)
Theorem permanent_fault_aborts {R : Type}
    (execute_write : nat → list R → Driver.outcome)
    (W M : nat) (batch : list R) (pre post : list nat) (i : nat)
    (st : Driver.state) (k : nat) (f : Driver.fault) :
  0 < W →
  Driver.py_range 0 (length batch) W = pre ++ i :: post →
  Driver.chunks execute_write W M pre batch Driver.init = inl st →
  let chunk := Driver.slice batch i (i + W) in
  let n0 := length (Driver.submitted st) in
  k < M →
  Driver.transient_run execute_write n0 k chunk →
  execute_write (n0 + k) chunk = Driver.Fails f →
  Driver.transient f = false →
  ∃ st',
    Driver.execute_batch_with execute_write W M batch = (Driver.LoadFailed f, st') ∧
    (∀ c, (Driver.execute_batch_with execute_write W M batch).1 ≠ Driver.Returned c) ∧
    Driver.submitted st' = Driver.submitted st ++ replicate (S k) chunk ∧
    Driver.slept st' = Driver.slept st ++ (Nat.pow 2 <$> seq 0 k) ∧
    Driver.overall st' = Driver.overall st.
Proof.
  intros HW Hsplit Hpre chunk n0 Hk Hrun Hf Htr.
  pose proof (attempts_permanent execute_write M k f chunk st Hrun Hf Htr Hk) as Hatt.
  eexists.
  rewrite execute_batch_with_chunks, Hsplit, chunks_app, Hpre by done.
  simpl. fold chunk. rewrite Hatt. by repeat split.
Qed.

Lemma permanent_fault_aborts_witness :
  ∃ st',
    Driver.execute_batch_with (flaky (Driver.OtherError 7)) 2 3 [1; 2; 3; 4; 5]
      = (Driver.LoadFailed (Driver.OtherError 7), st') ∧
    Driver.submitted st' = [[1; 2]; [3; 4]] ∧
    Driver.slept st' = [].
Proof.
  destruct (permanent_fault_aborts (flaky (Driver.OtherError 7))
    2 3 [1; 2; 3; 4; 5] [0] [4] 2
    (Driver.State (Driver.Totals 2 0 1) [[1; 2]] []) 0 (Driver.OtherError 7)
    ltac:(lia) eq_refl eq_refl ltac:(lia)) as (st' & Hres & _ & Hsub & Hsl & _).
  - intros j Hj. lia.
  - reflexivity.
  - reflexivity.
  - exists st'. split; [exact Hres|]. split; [exact Hsub|exact Hsl].
Defined.

(** ** Identity assignment and aggregation: the claims *)

Import BuildBulk Spec.

(** C9.  A record without [item_id] stops the script: the first loop
    raises [KeyError] on the field name, which is the specification's
    [MissingRequiredField], and no graph is built. *)
Theorem missing_item_id_raises (data : list event) :
  (∃ r, r ∈ data ∧ item_id r = None) →
  item_table data = Raise (KeyError (IStr "item_id")) ∧
  build data = Raise (KeyError (IStr "item_id")).
Proof.
  intros Hex. apply Exists_exists in Hex.
  assert (item_table data = Raise (KeyError (IStr "item_id"))) as Hc.
  { unfold item_table, collect_items. by rewrite for_each_add_items_Raise. }
  split; [done|]. unfold build. by rewrite Hc.
Qed.

Lemma missing_item_id_raises_witness :
  build [ev 1 10 (Some 20%Z); Event (Some (IInt 1)) None None]
  = Raise (KeyError (IStr "item_id")).
Proof.
  apply (missing_item_id_raises
           [ev 1 10 (Some 20%Z); Event (Some (IInt 1)) None None]).
  exists (Event (Some (IInt 1)) None None). split; [|reflexivity].
  apply list_elem_of_In. simpl. right. left. reflexivity.
Defined.

(** C10.  A [next_item_id] or [session_id] that is present but falsy ([0]
    or the empty string) is treated as if the field were absent: replacing
    such fields by absent ones, in one record or in all of them, changes
    nothing in the outcome of the script, neither the tables, the edges,
    the containment set nor the exception. *)
Theorem falsy_fields_as_absent (data l1 l2 : list event) (r : event) :
  normalize r =
    Event (if truthy (session_id r) then session_id r else None)
          (item_id r)
          (if truthy (next_item_id r) then next_item_id r else None) ∧
  truthy (Some (IInt 0)) = false ∧
  truthy (Some (IStr EmptyString)) = false ∧
  item_table (normalize <$> data) = item_table data ∧
  build (normalize <$> data) = build data ∧
  build (l1 ++ normalize r :: l2) = build (l1 ++ r :: l2).
Proof.
  split; [done|]. split; [done|]. split; [done|].
  split; [apply item_table_normalize|].
  split; [apply build_normalize|].
  rewrite <- (build_normalize (l1 ++ r :: l2)).
  rewrite <- (build_normalize (l1 ++ normalize r :: l2)).
  by rewrite !fmap_app, !fmap_cons, normalize_idemp.
Qed.

(** C6.  Aggregation does not depend on the order of the events: a
    permutation of the input list gives the same outcome, hence the same
    weights, evidence sets and containment set (and the same tables). *)
Theorem aggregation_order_independent (data data' : list event) :
  data ≡ₚ data' →
  build data' = build data ∧
  ∀ g, build data = Ok g →
    ∃ g', build data' = Ok g' ∧
          next_agg g' = next_agg g ∧ contains g' = contains g ∧
          (∀ k, weight <$> next_agg g' !! k = weight <$> next_agg g !! k) ∧
          (∀ k, sessions <$> next_agg g' !! k = sessions <$> next_agg g !! k).
Proof.
  intros Hp. pose proof (build_perm _ _ Hp) as Heq.
  split; [done|]. intros g Hg. exists g. by rewrite <- Heq.
Qed.

Lemma aggregation_order_independent_witness :
  build (reverse scenario) = build scenario.
Proof.
  apply (aggregation_order_independent scenario (reverse scenario)).
  symmetry. apply reverse_Permutation.
Defined.







(** ** Export and round trip: the claims *)

Import Reparse.

(** C8 as the specification states it fails: the items and next files do
    not begin with the header lines [ID<TAB>LABEL] and
    [START_ID<TAB>END_ID<TAB>weight:int<TAB>sessions:string[]]; they begin
    with [:ID(Item)<TAB>:LABEL] and
    [:START_ID(Item)<TAB>:END_ID(Item)<TAB>weight:int<TAB>sessions:string[]]. *)
Lemma export_shape_counterexample :
  ∃ g, build scenario = Ok g ∧
       String.prefix (spec_items_hline +:+ LF) (items_csv g) = false ∧
       String.prefix (items_hline +:+ LF) (items_csv g) = true ∧
       String.prefix (spec_next_hline +:+ LF) (next_csv g) = false ∧
       String.prefix (next_hline +:+ LF) (next_csv g) = true.
Proof. eexists. split; [reflexivity|]. by repeat split. Qed.

(** C8, amended.  For every iteration order of the containers and every
    graph the script builds: the items file is the header line
    [:ID(Item)<TAB>:LABEL] followed by the rows [i<TAB>Item] for
    [i = 0 .. N-1] in this order, each line ended by a line feed, where the
    ids [0 .. N-1] are exactly the values of the item table; the next file
    is the header line
    [:START_ID(Item)<TAB>:END_ID(Item)<TAB>weight:int<TAB>sessions:string[]]
    followed by one row per TransitionEdge, made of both ids, the weight
    and the evidence set joined with [;], nothing being escaped. *)
Theorem export_shape `{Iteration} (data : list event) (g : graph) :
  build data = Ok g →
  items_csv g =
    flat ((λ line, line +:+ LF) <$>
          ((":ID(Item)" +:+ TAB +:+ ":LABEL") ::
           ((λ i, str_nat i +:+ TAB +:+ "Item") <$> seq 0 (size (id_map g))))) ∧
  (∀ i, i < size (id_map g) ↔ ∃ x, id_map g !! x = Some i) ∧
  lines (items_csv g) =
    (":ID(Item)" +:+ TAB +:+ ":LABEL") ::
    ((λ i, str_nat i +:+ TAB +:+ "Item") <$> seq 0 (size (id_map g))) ∧
  (∃ rows,
     rows ≡ₚ map_to_list (next_agg g) ∧
     next_csv g =
       flat ((λ line, line +:+ LF) <$>
             ((":START_ID(Item)" +:+ TAB +:+ ":END_ID(Item)" +:+ TAB +:+
               "weight:int" +:+ TAB +:+ "sessions:string[]") ::
              (next_body <$> rows)))) ∧
  (∀ k v, ∃ ev,
     ev ≡ₚ elements (sessions v) ∧
     next_body (k, v) =
       str_nat k.1 +:+ TAB +:+ str_nat k.2 +:+ TAB +:+ str_nat (weight v)
         +:+ TAB +:+ join ";" ev).
Proof.
  intros Hg. pose proof (build_Ok _ _ Hg) as (_ & Hl & Hid & _).
  pose proof (sorted_set_Ok _ _ Hl) as (_ & _ & Hnd).
  assert (size (id_map g) = length (items_list g)) as Hsize.
  { rewrite <- size_dom, Hid, dict_of_enumerate_dom.
    by rewrite size_list_to_set. }
  split.
  { rewrite Hsize, items_csv_eq, fmap_cons.
    by rewrite <- list_fmap_compose. }
  split.
  { intros i. rewrite Hsize, Hid.
    setoid_rewrite (dict_of_enumerate_lookup _ _ _ Hnd).
    symmetry. apply lookup_lt_is_Some. }
  split; [rewrite Hsize; apply items_csv_lines|].
  split.
  { exists (next_items (next_agg g)).
    split; [apply next_items_perm|].
    rewrite next_csv_eq, fmap_cons. by rewrite <- list_fmap_compose. }
  intros k v. exists (sessions_iter k (sessions v)).
  split; [apply sessions_iter_perm|done].
Qed.

Lemma export_shape_witness :
  ∃ g, build scenario = Ok g ∧
       lines (items_csv g) =
         [":ID(Item)" +:+ TAB +:+ ":LABEL";
          str_nat 0 +:+ TAB +:+ "Item";
          str_nat 1 +:+ TAB +:+ "Item";
          str_nat 2 +:+ TAB +:+ "Item"].
Proof.
  eexists. split; [reflexivity|].
  match goal with |- lines (items_csv ?g) = _ =>
    pose proof (export_shape scenario g eq_refl) as (_ & _ & Hlines & _)
  end.
  exact Hlines.
Defined.

(** C7 as the specification states it fails: with integer identifiers, as
    [generate_batch.py] produces them, no identifier string holds a list
    separator, yet the item table read back from the lookup index has the
    string ["10"] where the original has the integer [10].  No reader can
    do better: the inputs with item [10] and with item ["10"] have
    different item tables and the same five exported files.  And a tab in
    a session string, which is no list separator, gives the row of its
    edge a fifth field. *)
Lemma export_roundtrip_counterexample :
  (∃ g, build scenario = Ok g ∧
        (∀ r s, r ∈ scenario → session_id r = Some (IStr s) →
                occurs ";"%char s = false) ∧
        id_map g !! IInt 10 = Some 0 ∧
        load_table (item_to_id (lookup_json g)) !! IInt 10 = None ∧
        load_table (item_to_id (lookup_json g)) !! IStr "10" = Some 0 ∧
        load_table (item_to_id (lookup_json g)) ≠ id_map g) ∧
  (∃ g g',
     build [Event None (Some (IInt 10)) None] = Ok g ∧
     build [Event None (Some (IStr "10")) None] = Ok g' ∧
     id_map g ≠ id_map g' ∧
     lookup_json g = lookup_json g' ∧
     items_csv g = items_csv g' ∧ sessions_csv g = sessions_csv g' ∧
     next_csv g = next_csv g' ∧ contains_csv g = contains_csv g') ∧
  (∃ g,
     build [Event (Some (IStr ("a" +:+ TAB +:+ "b")))
                  (Some (IStr "x")) (Some (IStr "y"))] = Ok g ∧
     occurs ";"%char ("a" +:+ TAB +:+ "b") = false ∧
     parse_next (next_csv g) = None).
Proof.
  split; [|split]; [| |eexists; by repeat split].
  - eexists. split; [reflexivity|]. split.
    { intros r s Hr Hs. apply list_elem_of_In in Hr. simpl in Hr.
      destruct Hr as [<-|[<-|[<-|[]]]]; by simpl in Hs. }
    split; [reflexivity|]. split; [reflexivity|]. split; [reflexivity|].
    intros Heq. apply (f_equal (λ m, m !! IInt 10)) in Heq.
    vm_compute in Heq. discriminate.
  - eexists _, _. split; [reflexivity|]. split; [reflexivity|].
    split; [|by repeat split].
    intros Heq. apply (f_equal (λ m, m !! IInt 10)) in Heq.
    vm_compute in Heq. discriminate.
Qed.

(** C7, amended.  For every iteration order of the containers and every
    input whose session identifier strings hold neither [;] nor a tab nor
    a line feed, reading the exported files back gives the TransitionEdge
    map and the ContainmentEdge set the script built; every identifier of
    the identity tables is found again under its string form with its id;
    and when the identifiers are strings the tables read back are the
    tables the script built. *)
Theorem export_roundtrip `{Iteration} (data : list event) (g : graph) :
  build data = Ok g →
  (∀ r s, r ∈ data → session_id r = Some (IStr s) → separator_free s) →
  parse_next (next_csv g) = Some (next_agg g) ∧
  parse_contains (contains_csv g) = Some (contains g) ∧
  (∀ x i, id_map g !! x = Some i →
     load_table (item_to_id (lookup_json g)) !! IStr (str x) = Some i) ∧
  (∀ x i, session_map g !! x = Some i →
     load_table (session_to_id (lookup_json g)) !! IStr (str x) = Some i) ∧
  (Forall (λ x, is_str x = true) (items_list g) →
     load_table (item_to_id (lookup_json g)) = id_map g) ∧
  (Forall (λ x, is_str x = true) (sessions_list g) →
     load_table (session_to_id (lookup_json g)) = session_map g).
Proof.
  intros Hg Hfree.
  pose proof (build_Ok _ _ Hg) as (_ & Hl & Hid & _ & Hss & Hsm & _).
  pose proof (sorted_set_Ok _ _ Hl) as (_ & _ & Hnd).
  pose proof (sorted_set_Ok _ _ Hss) as (_ & _ & Hsnd).
  split.
  { apply parse_next_csv. intros k v Hv. by eapply build_evidence_ok. }
  split; [apply parse_contains_csv|].
  split.
  { intros x i Hi. rewrite Hid in Hi.
    apply dict_of_enumerate_lookup in Hi; [|done].
    apply load_table_lookup; [done| |done]. by eapply sorted_set_homogeneous. }
  split.
  { intros x i Hi. rewrite Hsm in Hi.
    apply dict_of_enumerate_lookup in Hi; [|done].
    apply load_table_lookup; [done| |done]. by eapply sorted_set_homogeneous. }
  split; intros Hstr; [rewrite Hid|rewrite Hsm]; by apply load_table_strings.
Qed.

Lemma export_roundtrip_witness :
  ∃ g, build string_scenario = Ok g ∧
       parse_next (next_csv g) = Some (next_agg g) ∧
       parse_contains (contains_csv g) = Some (contains g) ∧
       load_table (item_to_id (lookup_json g)) = id_map g.
Proof.
  eexists. split; [reflexivity|].
  match goal with |- parse_next (next_csv ?g) = _ ∧ _ =>
    destruct (export_roundtrip string_scenario g eq_refl)
      as (Hnext & Hcont & _ & _ & Hitems & _)
  end.
  - intros r s Hr Hs. apply list_elem_of_In in Hr. simpl in Hr.
    destruct Hr as [<-|[<-|[<-|[]]]]; simpl in Hs; injection Hs as <-;
      by repeat split.
  - split; [exact Hnext|]. split; [exact Hcont|].
    apply Hitems. by repeat constructor.
Defined.

(** ** The concrete scenarios of section 8 *)

(** Events [{s:1,i:10,n:20}, {s:1,i:20,n:null}, {s:2,i:10,n:30}]: item ids
    [{10:0, 20:1, 30:2}], session ids [{1:0, 2:1}], edge [(0,1)] with weight
    1 and evidence [{"1"}], edge [(0,2)] with weight 1 and evidence
    [{"2"}], containment [{(0,0), (0,1), (1,0)}]. *)
Example scenario_graph :
  ∃ g, build scenario = Ok g ∧
       items_list g = [IInt 10; IInt 20; IInt 30] ∧
       id_map g = {[ IInt 10 := 0; IInt 20 := 1; IInt 30 := 2 ]} ∧
       session_map g = {[ IInt 1 := 0; IInt 2 := 1 ]} ∧
       next_agg g = {[ (0, 1) := Edge 1 {[ "1" ]}; (0, 2) := Edge 1 {[ "2" ]} ]} ∧
       contains g = {[ (0, 0); (0, 1); (1, 0) ]}.
Proof.
  eexists. split; [reflexivity|].
  repeat split; apply bool_decide_eq_true_1; vm_compute; reflexivity.
Qed.

(** With the constants of the code, a short batch is one chunk. *)
Example execute_batch_one_chunk :
  Driver.execute_batch
    (λ _ (c : list nat), Driver.Summary (Driver.Counters (length c) 0 0))
    [1; 2; 3]
  = (Driver.Returned (Driver.Counters 3 0 0),
     Driver.State (Driver.Totals 3 0 0) [[1; 2; 3]] []).
Proof. vm_compute. reflexivity. Qed.

(** * Further properties of the code *)

(** ** build_bulk.py: tables, outcome, integrity *)

Section build_more.
Implicit Types (data : list event) (g : graph) (l : list ident).

Lemma StronglySorted_lookup_lt {A} (R : relation A) (xs : list A) i j x y :
  StronglySorted R xs → xs !! i = Some x → xs !! j = Some y → i < j → R x y.
Proof.
  intros Hs. revert i j. induction Hs as [|z xs Hs IH Hall]; intros i j Hi Hj Hlt.
  - by rewrite lookup_nil in Hi.
  - destruct j as [|j]; [lia|]. destruct i as [|i]; simpl in *.
    + injection Hi as ->. eapply Forall_forall in Hall; [exact Hall|].
      by eapply list_elem_of_lookup_2.
    + eapply IH; [exact Hi|exact Hj|lia].
Qed.

(** Ranks in a sorted list without repetition follow the order. *)
Lemma sorted_rank_order l i j x y :
  Sorted ident_le l → NoDup l → l !! i = Some x → l !! j = Some y →
  (i ≤ j ↔ ident_le x y) ∧ (i = j ↔ x = y).
Proof.
  intros Hs%(Sorted_StronglySorted _) Hnd Hi Hj.
  assert (i = j ↔ x = y) as Heq.
  { split; [intros ->; congruence|].
    intros ->. by eapply NoDup_lookup. }
  split; [|done]. split.
  - intros Hle. destruct (decide (i = j)) as [->|Hne].
    + assert (x = y) as -> by congruence. by destruct (total ident_le y y).
    + eapply StronglySorted_lookup_lt; [exact Hs|exact Hi|exact Hj|lia].
  - intros Hxy. destruct (decide (i ≤ j)) as [|Hgt]; [done|].
    assert (ident_le y x) as Hyx.
    { eapply StronglySorted_lookup_lt; [exact Hs|exact Hj|exact Hi|lia]. }
    assert (x = y) as Hxy' by (by apply (anti_symm ident_le)).
    apply Heq in Hxy'. lia.
Qed.

Lemma sorted_table_spec (ss : gset ident) l x y i j :
  sorted_set ss = Ok l →
  dict_of_enumerate l !! x = Some i → dict_of_enumerate l !! y = Some j →
  (i ≤ j ↔ ident_le x y) ∧ (i = j ↔ x = y) ∧ i < size ss.
Proof.
  intros Hl Hx Hy. pose proof (sorted_set_Ok _ _ Hl) as (Hp & Hs & Hnd).
  apply dict_of_enumerate_lookup in Hx; [|done].
  apply dict_of_enumerate_lookup in Hy; [|done].
  destruct (sorted_rank_order l i j x y Hs Hnd Hx Hy) as [H1 H2].
  split; [done|]. split; [done|].
  apply lookup_lt_Some in Hx.
  by rewrite <- (sorted_set_dom _ _ Hl), size_dom, <- size_dom,
    dict_of_enumerate_dom, size_list_to_set.
Qed.

Lemma table_dense l i :
  NoDup l → i < length l ↔ ∃ x, dict_of_enumerate l !! x = Some i.
Proof.
  intros Hnd. setoid_rewrite (dict_of_enumerate_lookup _ _ _ Hnd).
  symmetry. apply lookup_lt_is_Some.
Qed.

Lemma table_size l : NoDup l → size (dict_of_enumerate l) = length l.
Proof.
  intros Hnd. by rewrite <- size_dom, dict_of_enumerate_dom, size_list_to_set.
Qed.

End build_more.

(** X1.  Lines 47-48: the session table is built over exactly the truthy
    [session_id] values of the events, has as many entries as that set has
    elements, and gives each session its rank in the sorted list of
    sessions. *)
Theorem session_table_spec (data : list event) (g : graph) :
  build data = Ok g →
  dom (session_map g) = session_identifiers data ∧
  size (session_map g) = size (session_identifiers data) ∧
  (∀ x, x ∈ session_identifiers data ↔
        ∃ r, r ∈ data ∧ truthy (session_id r) = true ∧ session_id r = Some x) ∧
  sessions_list g ≡ₚ elements (session_identifiers data) ∧
  Sorted ident_le (sessions_list g) ∧
  NoDup (sessions_list g) ∧
  (∀ x i, session_map g !! x = Some i ↔ sessions_list g !! i = Some x) ∧
  (∀ i, i < size (session_map g) ↔ ∃ x, session_map g !! x = Some i).
Proof.
  intros Hg. pose proof (build_Ok _ _ Hg) as (_ & _ & _ & _ & Hss & Hsm & _).
  pose proof (sorted_set_Ok _ _ Hss) as (Hp & Hsorted & Hnd).
  assert (dom (session_map g) = session_identifiers data) as Hdom
    by (rewrite Hsm; by apply sorted_set_dom).
  split; [done|]. split; [by rewrite <- Hdom, size_dom|].
  split.
  { intros x. rewrite elem_of_session_identifiers.
    by setoid_rewrite present_Some_iff. }
  split; [done|]. split; [done|]. split; [done|].
  split; [intros x i; rewrite Hsm; by apply dict_of_enumerate_lookup|].
  intros i. rewrite Hsm, table_size by done. by apply table_dense.
Qed.

Lemma session_table_spec_witness :
  ∃ g, build scenario = Ok g ∧
       size (session_map g) = size (session_identifiers scenario) ∧
       (session_map g !! IInt 2 = Some 1 ↔ sessions_list g !! 1 = Some (IInt 2)).
Proof.
  eexists. split; [reflexivity|].
  match goal with |- size (session_map ?g) = _ ∧ _ =>
    pose proof (session_table_spec scenario g eq_refl)
      as (_ & Hsize & _ & _ & _ & _ & Hrank & _)
  end.
  split; [exact Hsize|apply Hrank].
Defined.

(** X2.  Lines 21-22 and 47-48: both identity tables are order-preserving
    bijections onto [0, N): two identifiers have the same dense id only if
    they are equal, a smaller identifier has a smaller id, and every id is
    below the size of its table. *)
Theorem tables_order_preserving (data : list event) (g : graph) :
  build data = Ok g →
  (∀ x y i j, id_map g !! x = Some i → id_map g !! y = Some j →
     (i ≤ j ↔ ident_le x y) ∧ (i = j ↔ x = y) ∧ i < size (id_map g)) ∧
  (∀ x y i j, session_map g !! x = Some i → session_map g !! y = Some j →
     (i ≤ j ↔ ident_le x y) ∧ (i = j ↔ x = y) ∧ i < size (session_map g)).
Proof.
  intros Hg. pose proof (build_Ok _ _ Hg) as (_ & Hl & Hid & _ & Hss & Hsm & _).
  split; intros x y i j.
  - rewrite Hid. intros Hx Hy.
    rewrite <- size_dom, (sorted_set_dom _ _ Hl).
    by eapply sorted_table_spec.
  - rewrite Hsm. intros Hx Hy.
    rewrite <- size_dom, (sorted_set_dom _ _ Hss).
    by eapply sorted_table_spec.
Qed.

Lemma tables_order_preserving_witness :
  ∃ g, build scenario = Ok g ∧
       ((0 ≤ 2 ↔ ident_le (IInt 10) (IInt 30)) ∧
        (0 = 2 ↔ IInt 10 = IInt 30) ∧ 0 < size (id_map g)).
Proof.
  eexists. split; [reflexivity|].
  match goal with |- _ ∧ _ ∧ _ < size (id_map ?g) =>
    pose proof (tables_order_preserving scenario g eq_refl) as [Hitems _]
  end.
  apply (Hitems (IInt 10) (IInt 30) 0 2); reflexivity.
Defined.

Section build_outcome_facts.
Implicit Types (data : list event) (g : graph) (l : list ident).

Lemma sorted_set_Ok_comparable (ss : gset ident) l :
  sorted_set ss = Ok l → comparable ss.
Proof.
  unfold sorted_set, py_sorted. intros Hl. apply comparable_homogeneous.
  by destruct (homogeneous (elements ss)).
Qed.

Lemma sorted_set_Raise (ss : gset ident) e :
  sorted_set ss = Raise e → e = TypeError ∧ ¬ comparable ss.
Proof.
  unfold sorted_set, py_sorted. intros Hl.
  destruct (homogeneous (elements ss)) eqn:Hh; [done|].
  split; [congruence|]. intros Hc%comparable_homogeneous. congruence.
Qed.

Lemma not_all_items data :
  ¬ Forall (λ r, is_Some (item_id r)) data ↔ ∃ r, r ∈ data ∧ item_id r = None.
Proof.
  rewrite <- Exists_exists. split.
  - intros Hall. apply not_Forall_Exists in Hall; [|apply _].
    eapply Exists_impl; [exact Hall|]. simpl. intros r Hr.
    destruct (item_id r); [|done]. exfalso. by apply Hr.
  - intros Hex Hall. apply Exists_exists in Hex as (r & Hr & Hnone).
    eapply Forall_forall in Hall; [|exact Hr]. rewrite Hnone in Hall.
    by destruct Hall.
Qed.

Lemma edge_key_Some idm r k :
  edge_key idm r = Some k →
  ∃ x1 x2, item_id r = Some x1 ∧ present (next_item_id r) = Some x2 ∧
           idm !! x1 = Some k.1 ∧ idm !! x2 = Some k.2.
Proof.
  unfold edge_key. intros Hk.
  destruct (present (next_item_id r)) as [x2|]; [|done].
  destruct (item_id r) as [x1|]; [|done]. simpl in Hk.
  destruct (idm !! x1) as [i1|] eqn:H1; [|done].
  destruct (idm !! x2) as [i2|] eqn:H2; [|done].
  simpl in Hk. injection Hk as <-. by exists x1, x2.
Qed.

Lemma contains_key_Some sm idm r p :
  contains_key sm idm r = Some p →
  ∃ s x, present (session_id r) = Some s ∧ item_id r = Some x ∧
         sm !! s = Some p.1 ∧ idm !! x = Some p.2.
Proof.
  unfold contains_key. intros Hk.
  destruct (present (session_id r)) as [s|]; [|done].
  destruct (item_id r) as [x|]; [|done]. simpl in Hk.
  destruct (sm !! s) as [i1|] eqn:H1; [|done].
  destruct (idm !! x) as [i2|] eqn:H2; [|done].
  simpl in Hk. injection Hk as <-. by exists s, x.
Qed.

Lemma next_agg_hit data g k v :
  build data = Ok g → next_agg g !! k = Some v →
  ∃ r, r ∈ data ∧ edge_key (id_map g) r = Some k.
Proof.
  intros (_ & _ & _ & Hagg & _)%build_Ok. rewrite Hagg, aggregate_next_lookup.
  case_decide as Hnil; [done|]. intros _.
  destruct (hits (id_map g) k data) as [|r hs] eqn:Hh; [done|].
  exists r.
  assert (r ∈ filter (λ r, edge_key (id_map g) r = Some k) data) as Hr
    by (unfold hits in Hh; rewrite Hh; by left).
  apply list_elem_of_filter in Hr. tauto.
Qed.

Lemma table_lookup_lt (ss : gset ident) l x i :
  sorted_set ss = Ok l → dict_of_enumerate l !! x = Some i →
  i < size (dict_of_enumerate l).
Proof.
  intros Hl Hx. pose proof (sorted_set_Ok _ _ Hl) as (_ & _ & Hnd).
  rewrite table_size by done.
  apply dict_of_enumerate_lookup in Hx; [|done]. by eapply lookup_lt_Some.
Qed.

End build_outcome_facts.

(** X3.  The script ends in one of three ways, decided by the input alone:
    [KeyError] on ["item_id"] exactly when some record lacks the field;
    otherwise [TypeError] exactly when the item identifiers, or the
    session identifiers, mix integers and strings; otherwise a graph.  No
    other exception occurs: the lookups [id_map[...]] and
    [session_map[...]] of lines 33, 34 and 54 never miss. *)
Theorem build_outcome (data : list event) :
  (build data = Raise (KeyError (IStr "item_id")) ↔
     ∃ r, r ∈ data ∧ item_id r = None) ∧
  (build data = Raise TypeError ↔
     Forall (λ r, is_Some (item_id r)) data ∧
     ¬ (comparable (item_identifiers data) ∧
        comparable (session_identifiers data))) ∧
  ((∃ g, build data = Ok g) ↔
     Forall (λ r, is_Some (item_id r)) data ∧
     comparable (item_identifiers data) ∧
     comparable (session_identifiers data)) ∧
  (∀ e, build data = Raise e → e = KeyError (IStr "item_id") ∨ e = TypeError).
Proof.
  rewrite build_closed_eq. unfold build_closed.
  destruct (decide (Forall (λ r, is_Some (item_id r)) data)) as [Hall|Hall].
  - assert (¬ ∃ r, r ∈ data ∧ item_id r = None) as Hno
      by (rewrite <- not_all_items; tauto).
    destruct (sorted_set (item_identifiers data)) as [l|e] eqn:Hl; simpl.
    + pose proof (sorted_set_Ok_comparable _ _ Hl) as Hc.
      destruct (sorted_set (session_identifiers data)) as [sl|e] eqn:Hsl; simpl.
      * pose proof (sorted_set_Ok_comparable _ _ Hsl) as Hsc.
        split; [split; [done|tauto]|]. split; [split; [done|tauto]|].
        split; [split; [done|by eexists]|done].
      * apply sorted_set_Raise in Hsl as [-> Hsc].
        split; [split; [done|tauto]|]. split; [split; [tauto|done]|].
        split; [split; [by intros [? ?]|tauto]|]. intros e [= <-]. by right.
    + apply sorted_set_Raise in Hl as [-> Hc].
      split; [split; [done|tauto]|]. split; [split; [tauto|done]|].
      split; [split; [by intros [? ?]|tauto]|]. intros e [= <-]. by right.
  - assert (∃ r, r ∈ data ∧ item_id r = None) as Hex by (by apply not_all_items).
    split; [done|]. split; [split; [done|tauto]|].
    split; [split; [by intros [? ?]|tauto]|]. intros e [= <-]. by left.
Qed.

(** X4.  Referential integrity of the relationship data: both ends of every
    TransitionEdge are ids of the item table, and every ContainmentEdge
    joins an id of the session table to an id of the item table, so each
    row of [next.csv] and [contains.csv] points at rows of the node
    files. *)
Theorem referential_integrity (data : list event) (g : graph) :
  build data = Ok g →
  (∀ k v, next_agg g !! k = Some v →
     k.1 < size (id_map g) ∧ k.2 < size (id_map g) ∧
     (∃ x1, id_map g !! x1 = Some k.1) ∧ (∃ x2, id_map g !! x2 = Some k.2)) ∧
  (∀ p, p ∈ contains g →
     p.1 < size (session_map g) ∧ p.2 < size (id_map g) ∧
     (∃ s, session_map g !! s = Some p.1) ∧ (∃ x, id_map g !! x = Some p.2)).
Proof.
  intros Hg. pose proof (build_Ok _ _ Hg) as (_ & Hl & Hid & _ & Hss & Hsm & Hc).
  split.
  - intros k v Hv.
    destruct (next_agg_hit _ _ _ _ Hg Hv) as (r & _ & Hk).
    apply edge_key_Some in Hk as (x1 & x2 & _ & _ & H1 & H2).
    rewrite Hid in *.
    split; [by eapply table_lookup_lt|]. split; [by eapply table_lookup_lt|].
    split; by eexists.
  - intros p Hp. rewrite Hc in Hp.
    apply elem_of_contains_set in Hp as (r & _ & Hk).
    apply contains_key_Some in Hk as (s & x & _ & _ & H1 & H2).
    rewrite Hid, Hsm in *.
    split; [by eapply table_lookup_lt|]. split; [by eapply table_lookup_lt|].
    split; by eexists.
Qed.

Lemma referential_integrity_witness :
  ∃ g, build scenario = Ok g ∧ (0 < size (id_map g) ∧ 2 < size (id_map g)).
Proof.
  eexists. split; [reflexivity|].
  match goal with |- _ < size (id_map ?g) ∧ _ =>
    pose proof (referential_integrity scenario g eq_refl) as [Hedges _]
  end.
  destruct (Hedges (0, 2) (Edge 1 {[ "2" ]})) as (H1 & H2 & _).
  - apply (bool_decide_unpack _). vm_compute. exact I.
  - split; [exact H1|exact H2].
Defined.

Section cardinality_facts.
Implicit Types (data : list event) (g : graph).

Lemma size_union_list_le `{Countable A} (Xs : list (gset A)) :
  size (⋃ Xs) ≤ sum_list (size <$> Xs).
Proof.
  induction Xs as [|X Xs IH].
  - change (size (∅ : gset A) ≤ 0). by rewrite size_empty.
  - rewrite union_list_cons, fmap_cons, size_union_alt.
    assert (size (⋃ Xs ∖ X) ≤ size (⋃ Xs)) by (apply subseteq_size; set_solver).
    simpl. lia.
Qed.

Lemma sum_sizes_le {A} `{Countable B} (f : A → gset B) (n : nat) (xs : list A) :
  (∀ y, size (f y) ≤ n) → sum_list (size <$> (f <$> xs)) ≤ n * length xs.
Proof.
  intros Hf. induction xs as [|y xs IH]; [simpl; lia|].
  rewrite !fmap_cons. cbn [sum_list_with length]. pose proof (Hf y).
  unfold id at 1. lia.
Qed.

Lemma size_opt_set o : size (opt_set o) ≤ 1.
Proof.
  destruct o; cbn [opt_set]; [by rewrite size_singleton|rewrite size_empty; lia].
Qed.

Lemma size_evidence_of r : size (evidence_of r) ≤ 1.
Proof.
  unfold evidence_of.
  destruct (present _); [by rewrite size_singleton|rewrite size_empty; lia].
Qed.

Lemma size_le_total_weight (m : gmap (nat * nat) edge) :
  map_Forall (λ _ v, 1 ≤ weight v) m → size m ≤ total_weight m.
Proof.
  induction m as [|k v m Hk IH] using map_ind; intros Hall.
  - by rewrite map_size_empty.
  - apply map_Forall_insert in Hall as [Hv Hall]; [|done].
    pose proof (total_weight_insert m k v) as Hw. rewrite Hk in Hw. simpl in Hw.
    rewrite map_size_insert_None by done. specialize (IH Hall). lia.
Qed.

Lemma next_agg_weights data g k v :
  build data = Ok g → next_agg g !! k = Some v →
  weight v = length (hits (id_map g) k data) ∧ 1 ≤ weight v ∧
  sessions v = ⋃ (evidence_of <$> hits (id_map g) k data).
Proof.
  intros (_ & _ & _ & Hagg & _)%build_Ok. rewrite Hagg, aggregate_next_lookup.
  case_decide as Hnil; [done|]. intros [= <-]. simpl.
  split; [done|]. split; [|done].
  destruct (hits (id_map g) k data); [done|simpl; lia].
Qed.

Lemma filter_opt_set_sum {A} (f : A → option (nat * nat)) (xs : list A) :
  sum_list (size <$> ((λ y, opt_pair (f y)) <$> xs)) =
  length (filter (λ y, is_Some (f y)) xs).
Proof.
  induction xs as [|y xs IH]; [done|].
  rewrite !fmap_cons, filter_cons. cbn [sum_list_with]. rewrite IH.
  unfold id at 1.
  destruct (decide (is_Some (f y))) as [[p Hp]|Hp].
  - rewrite Hp. cbn [opt_pair]. by rewrite size_singleton.
  - destruct (f y); [by destruct Hp|]. cbn [opt_pair]. by rewrite size_empty.
Qed.

Lemma filter_length_mono {A} (P Q : A → Prop)
    `{!∀ y, Decision (P y), !∀ y, Decision (Q y)} (xs : list A) :
  (∀ y, P y → Q y) → length (filter P xs) ≤ length (filter Q xs).
Proof.
  intros HPQ. induction xs as [|y xs IH]; [done|].
  rewrite !filter_cons.
  destruct (decide (P y)) as [Hp|Hp], (decide (Q y)) as [Hq|Hq]; simpl; try lia.
  exfalso. by apply Hq, HPQ.
Qed.

End cardinality_facts.

(** X5.  Sizes of the aggregates: every edge has weight at least 1 and at
    most as many distinct evidence strings as its weight; there are at most
    as many edges as events with a truthy [next_item_id], at most as many
    containment pairs as events with a truthy [session_id], at most two
    items per event and at most one session per event. *)
Theorem aggregate_cardinalities (data : list event) (g : graph) :
  build data = Ok g →
  (∀ k v, next_agg g !! k = Some v →
     1 ≤ weight v ∧ size (sessions v) ≤ weight v ∧
     weight v ≤ length (filter (λ r, truthy (next_item_id r) = true) data)) ∧
  size (next_agg g) ≤ length (filter (λ r, truthy (next_item_id r) = true) data) ∧
  size (contains g) ≤ length (filter (λ r, truthy (session_id r) = true) data) ∧
  size (id_map g) ≤ 2 * length data ∧
  size (session_map g) ≤ length data.
Proof.
  intros Hg.
  pose proof (build_Ok _ _ Hg) as (Hall & Hl & Hid & Hagg & Hss & Hsm & Hc).
  pose proof (total_weight_build _ _ Hg) as Htotal.
  assert (∀ k v, next_agg g !! k = Some v → 1 ≤ weight v) as Hone.
  { intros k v Hv. by destruct (next_agg_weights _ _ _ _ Hg Hv) as (_ & ? & _). }
  split.
  { intros k v Hv.
    destruct (next_agg_weights _ _ _ _ Hg Hv) as (Hw & H1 & Hs).
    split; [done|]. split.
    - rewrite Hs, Hw. etrans; [apply size_union_list_le|].
      etrans; [apply (sum_sizes_le evidence_of 1), size_evidence_of|]. lia.
    - rewrite Hw. unfold hits. apply filter_length_mono.
      intros r Hk. apply edge_key_Some in Hk as (_ & x2 & _ & Hp & _).
      by apply present_Some in Hp as [_ ?]. }
  split.
  { rewrite <- Htotal. apply size_le_total_weight. intros k v. apply Hone. }
  split.
  { rewrite Hc. unfold contains_set. etrans; [apply size_union_list_le|].
    rewrite filter_opt_set_sum. apply filter_length_mono.
    intros r [p Hp]. apply contains_key_Some in Hp as (s & _ & Hs & _).
    by apply present_Some in Hs as [_ ?]. }
  split.
  - rewrite <- size_dom, Hid, (sorted_set_dom _ _ Hl). unfold item_identifiers.
    etrans; [apply size_union_list_le|].
    apply (sum_sizes_le (λ r, opt_set (item_id r) ∪ opt_set (present (next_item_id r))) 2).
    intros r. rewrite size_union_alt.
    pose proof (size_opt_set (item_id r)).
    assert (size (opt_set (present (next_item_id r)) ∖ opt_set (item_id r)) ≤ 1).
    { etrans; [apply subseteq_size|apply (size_opt_set (present (next_item_id r)))].
      set_solver. }
    lia.
  - rewrite <- size_dom, Hsm, (sorted_set_dom _ _ Hss). unfold session_identifiers.
    etrans; [apply size_union_list_le|].
    etrans; [apply (sum_sizes_le (λ r, opt_set (present (session_id r))) 1)|lia].
    intros r. apply size_opt_set.
Qed.

Lemma aggregate_cardinalities_witness :
  ∃ g, build scenario = Ok g ∧
       size (next_agg g) ≤
         length (filter (λ r, truthy (next_item_id r) = true) scenario).
Proof.
  eexists. split; [reflexivity|].
  match goal with |- size (next_agg ?g) ≤ _ =>
    pose proof (aggregate_cardinalities scenario g eq_refl) as (_ & Hedges & _)
  end.
  exact Hedges.
Defined.

(** X6.  Evidence agrees with containment: whenever a session string is
    listed on a TransitionEdge, the session it is the string of contains
    the source item of that edge. *)
Theorem evidence_in_containment (data : list event) (g : graph) :
  build data = Ok g →
  ∀ k v s, next_agg g !! k = Some v → s ∈ sessions v →
    ∃ sid d, str sid = s ∧ session_map g !! sid = Some d ∧
             (d, k.1) ∈ contains g.
Proof.
  intros Hg k v s Hv Hs.
  pose proof (build_Ok _ _ Hg) as (_ & _ & _ & _ & Hss & Hsm & Hc).
  destruct (next_agg_weights _ _ _ _ Hg Hv) as (_ & _ & Hev).
  rewrite Hev in Hs. apply elem_of_union_list in Hs as (X & HX & Hs).
  apply list_elem_of_fmap in HX as (r & -> & Hr).
  apply list_elem_of_filter in Hr as [Hk Hr].
  unfold evidence_of in Hs.
  destruct (present (session_id r)) as [sid|] eqn:Hsid; [|set_solver].
  apply elem_of_singleton in Hs as ->.
  apply edge_key_Some in Hk as (x1 & x2 & Hx1 & _ & H1 & _).
  assert (is_Some (session_map g !! sid)) as [d Hd].
  { apply elem_of_dom. rewrite Hsm, (sorted_set_dom _ _ Hss).
    apply elem_of_session_identifiers. by exists r. }
  exists sid, d. split; [done|]. split; [done|].
  rewrite Hc. apply elem_of_contains_set. exists r. split; [done|].
  unfold contains_key. rewrite Hsid, Hx1. simpl. rewrite Hd, H1. done.
Qed.

Lemma evidence_in_containment_witness :
  ∃ g, build scenario = Ok g ∧
       ∃ sid d, str sid = "2" ∧ session_map g !! sid = Some d ∧
                (d, 0) ∈ contains g.
Proof.
  eexists. split; [reflexivity|].
  match goal with |- ∃ sid d, _ ∧ session_map ?g !! _ = _ ∧ _ =>
    apply (evidence_in_containment scenario g eq_refl (0, 2) (Edge 1 {[ "2" ]}))
  end.
  - apply (bool_decide_unpack _). vm_compute. exact I.
  - apply (bool_decide_unpack _). vm_compute. exact I.
Defined.

(** ** build_bulk.py: the remaining files *)

Section export_more.
Implicit Types (g : graph) (l : list ident).

Lemma sessions_csv_eq g :
  sessions_csv g =
  flat ((λ line, line +:+ LF) <$>
        ((":ID(Session)" +:+ TAB +:+ ":LABEL") ::
         ((λ i, str_nat i +:+ TAB +:+ "Session") <$>
          seq 0 (length (sessions_list g))))).
Proof.
  unfold sessions_csv. rewrite foldl_write, fmap_cons.
  rewrite <- list_fmap_compose.
  change (flat (?a :: ?l)) with (a +:+ flat l). f_equal. f_equal.
  apply list_fmap_ext. intros _ i _. simpl. by rewrite !string_app_assoc.
Qed.

Lemma contains_body_inj p q : contains_body p = contains_body q → p = q.
Proof.
  intros Heq. apply (f_equal parse_contains_row) in Heq.
  rewrite !parse_contains_row_body in Heq. congruence.
Qed.

Lemma json_object_keys l : (json_object l).*1 = str <$> l.
Proof.
  induction l as [|y l IH] using rev_ind; [done|].
  by rewrite json_object_snoc, !fmap_app, IH.
Qed.

Lemma json_object_values l : (json_object l).*2 = seq 0 (length l).
Proof.
  induction l as [|y l IH] using rev_ind; [done|].
  rewrite json_object_snoc, fmap_app, IH, length_app. simpl.
  by rewrite Nat.add_1_r, seq_S.
Qed.

Lemma elem_of_json_object l s i :
  (s, i) ∈ json_object l ↔ ∃ x, str x = s ∧ l !! i = Some x.
Proof.
  induction l as [|y l IH] using rev_ind.
  - split; [by intros ?%elem_of_nil|by intros (? & _ & ?)].
  - rewrite json_object_snoc, elem_of_app, IH, list_elem_of_singleton. split.
    + intros [(x & Hs & Hx)|[= -> ->]].
      * exists x. split; [done|]. by apply lookup_app_l_Some.
      * exists y. split; [done|]. by rewrite lookup_app_r, Nat.sub_diag.
    + intros (x & Hs & Hx). apply lookup_app_Some in Hx as [Hx|[Hlen Hx]].
      * left. by exists x.
      * right. apply list_lookup_singleton_Some in Hx as [Hi ->].
        subst s. f_equal. lia.
Qed.

Lemma json_object_NoDup l :
  NoDup l → homogeneous l = true → NoDup ((json_object l).*1).
Proof.
  intros Hnd Hh. rewrite json_object_keys.
  apply NoDup_fmap_2_strong; [|done].
  intros x y Hx Hy. apply str_inj_same_kind.
  by eapply homogeneous_same_kind.
Qed.

End export_more.

(** X7.  Lines 70-74 and 84-89: for every iteration order, the sessions
    file is the header line [:ID(Session)<TAB>:LABEL] followed by the rows
    [i<TAB>Session] for the ids [0 .. N-1] of the session table in this
    order, and the contains file is the header line
    [:START_ID(Session)<TAB>:END_ID(Item)] followed by one row
    [sid<TAB>iid] per ContainmentEdge, no row being written twice; every
    line ends with a line feed. *)
Theorem node_and_containment_files `{Iteration} (data : list event) (g : graph) :
  build data = Ok g →
  sessions_csv g =
    flat ((λ line, line +:+ LF) <$>
          ((":ID(Session)" +:+ TAB +:+ ":LABEL") ::
           ((λ i, str_nat i +:+ TAB +:+ "Session") <$>
            seq 0 (size (session_map g))))) ∧
  (∀ i, i < size (session_map g) ↔ ∃ x, session_map g !! x = Some i) ∧
  (∃ rows,
     rows ≡ₚ elements (contains g) ∧
     length rows = size (contains g) ∧
     NoDup ((λ p, str_nat p.1 +:+ TAB +:+ str_nat p.2) <$> rows) ∧
     contains_csv g =
       flat ((λ line, line +:+ LF) <$>
             ((":START_ID(Session)" +:+ TAB +:+ ":END_ID(Item)") ::
              ((λ p, str_nat p.1 +:+ TAB +:+ str_nat p.2) <$> rows)))).
Proof.
  intros Hg. pose proof (build_Ok _ _ Hg) as (_ & _ & _ & _ & Hss & Hsm & _).
  pose proof (sorted_set_Ok _ _ Hss) as (_ & _ & Hnd).
  assert (size (session_map g) = length (sessions_list g)) as Hsize
    by (rewrite Hsm; by apply table_size).
  split; [rewrite Hsize; apply sessions_csv_eq|].
  split; [intros i; rewrite Hsm, table_size by done; by apply table_dense|].
  exists (contains_iter (contains g)).
  split; [apply contains_iter_perm|].
  split; [by rewrite contains_iter_perm|].
  split.
  - apply NoDup_fmap_2_strong.
    + intros p q _ _. apply contains_body_inj.
    + rewrite contains_iter_perm. apply NoDup_elements.
  - rewrite contains_csv_eq, fmap_cons. by rewrite <- list_fmap_compose.
Qed.

Lemma node_and_containment_files_witness :
  ∃ g, build scenario = Ok g ∧
       sessions_csv g =
         flat ((λ line, line +:+ LF) <$>
               ((":ID(Session)" +:+ TAB +:+ ":LABEL") ::
                ((λ i, str_nat i +:+ TAB +:+ "Session") <$>
                 seq 0 (size (session_map g))))).
Proof.
  eexists. split; [reflexivity|].
  match goal with |- sessions_csv ?g = _ =>
    pose proof (node_and_containment_files scenario g eq_refl) as (Hfile & _)
  end.
  exact Hfile.
Defined.

(** X8.  Lines 91-96: each object of [lookup.json] lists the identifiers
    of its table in sorted order under their string forms, with the values
    [0, 1, .., N-1] in this order; a member [(s, i)] is there exactly when
    [s] is the string of the identifier with id [i]; and no key occurs
    twice, although [str] sends an integer and its decimal notation to the
    same key. *)
Theorem lookup_json_spec (data : list event) (g : graph) :
  build data = Ok g →
  ((item_to_id (lookup_json g)).*1 = str <$> items_list g ∧
   (item_to_id (lookup_json g)).*2 = seq 0 (size (id_map g)) ∧
   NoDup ((item_to_id (lookup_json g)).*1) ∧
   (∀ s i, (s, i) ∈ item_to_id (lookup_json g) ↔
           ∃ x, str x = s ∧ id_map g !! x = Some i)) ∧
  ((session_to_id (lookup_json g)).*1 = str <$> sessions_list g ∧
   (session_to_id (lookup_json g)).*2 = seq 0 (size (session_map g)) ∧
   NoDup ((session_to_id (lookup_json g)).*1) ∧
   (∀ s i, (s, i) ∈ session_to_id (lookup_json g) ↔
           ∃ x, str x = s ∧ session_map g !! x = Some i)).
Proof.
  intros Hg. pose proof (build_Ok _ _ Hg) as (_ & Hl & Hid & _ & Hss & Hsm & _).
  pose proof (sorted_set_Ok _ _ Hl) as (_ & _ & Hnd).
  pose proof (sorted_set_Ok _ _ Hss) as (_ & _ & Hsnd).
  pose proof (sorted_set_homogeneous _ _ Hl) as Hh.
  pose proof (sorted_set_homogeneous _ _ Hss) as Hsh.
  simpl. split.
  - split; [apply json_object_keys|].
    split; [rewrite Hid, table_size by done; apply json_object_values|].
    split; [by apply json_object_NoDup|].
    intros s i. rewrite elem_of_json_object, Hid.
    by setoid_rewrite (dict_of_enumerate_lookup _ _ _ Hnd).
  - split; [apply json_object_keys|].
    split; [rewrite Hsm, table_size by done; apply json_object_values|].
    split; [by apply json_object_NoDup|].
    intros s i. rewrite elem_of_json_object, Hsm.
    by setoid_rewrite (dict_of_enumerate_lookup _ _ _ Hsnd).
Qed.

Lemma lookup_json_spec_witness :
  ∃ g, build scenario = Ok g ∧
       (item_to_id (lookup_json g)).*2 = seq 0 (size (id_map g)) ∧
       NoDup ((item_to_id (lookup_json g)).*1).
Proof.
  eexists. split; [reflexivity|].
  match goal with |- (item_to_id (lookup_json ?g)).*2 = _ ∧ _ =>
    pose proof (lookup_json_spec scenario g eq_refl)
      as ((_ & Hvalues & Hkeys & _) & _)
  end.
  split; [exact Hvalues|exact Hkeys].
Defined.

(** ** build_bulk.py: the same events more than once *)

Section replay_facts.
Implicit Types (data : list event) (g : graph).

Lemma elem_of_replay {A} n (l : list A) x :
  0 < n → x ∈ mjoin (replicate n l) ↔ x ∈ l.
Proof.
  intros Hn. rewrite list_elem_of_join. split.
  - intros (l' & Hx & Hl'). by apply elem_of_replicate in Hl' as [-> _].
  - intros Hx. exists l. split; [done|]. apply elem_of_replicate. split; [done|lia].
Qed.

Lemma length_replay {A} n (l : list A) :
  length (mjoin (replicate n l)) = n * length l.
Proof. induction n as [|n IH]; [done|]. simpl. rewrite length_app, IH. lia. Qed.

Lemma filter_replay {A} (P : A → Prop) `{∀ x, Decision (P x)} n (l : list A) :
  filter P (mjoin (replicate n l)) = mjoin (replicate n (filter P l)).
Proof. induction n as [|n IH]; [done|]. simpl. by rewrite filter_app, IH. Qed.

Lemma union_list_replay {A} `{Countable B} (f : A → gset B) n (l : list A) :
  0 < n → ⋃ (f <$> mjoin (replicate n l)) = ⋃ (f <$> l).
Proof.
  intros Hn. apply set_eq. intros x. rewrite !elem_of_union_list.
  split; intros (X & HX & Hx); exists X; (split; [|done]);
    apply list_elem_of_fmap in HX as (y & -> & Hy);
    apply list_elem_of_fmap; exists y; (split; [done|]);
    by apply (elem_of_replay n l y Hn).
Qed.

Lemma Forall_replay {A} (P : A → Prop) n (l : list A) :
  Forall P l → Forall P (mjoin (replicate n l)).
Proof. intros Hl. by apply Forall_join, Forall_replicate. Qed.

Lemma next_agg_replay idm n data :
  0 < n →
  foldl (next_step idm) ∅ (mjoin (replicate n data)) =
  (λ v, Edge (n * weight v) (sessions v)) <$> foldl (next_step idm) ∅ data.
Proof.
  intros Hn. apply map_eq. intros k.
  rewrite lookup_fmap, !aggregate_next_lookup.
  unfold hits. rewrite filter_replay.
  fold (hits idm k data). destruct (hits idm k data) as [|r hs] eqn:Hh.
  - rewrite !decide_True; [done|done|].
    clear. induction n as [|n IH]; [done|]. simpl. by rewrite IH.
  - rewrite !decide_False; [|done|].
    + simpl. rewrite length_replay, union_list_replay by done. done.
    + intros Hnil. apply (f_equal length) in Hnil.
      rewrite length_replay in Hnil. simpl in Hnil. lia.
Qed.

End replay_facts.

(** X9.  Feeding the script the same events [n ≥ 1] times over changes
    nothing but the weights: both identity tables, the ContainmentEdges and
    the evidence sets are those of a single pass, the edges are the same
    pairs, and every weight is multiplied by [n]. *)
Theorem replay_scales_weights (n : nat) (data : list event) (g : graph) :
  0 < n → build data = Ok g →
  ∃ g', build (mjoin (replicate n data)) = Ok g' ∧
        items_list g' = items_list g ∧ id_map g' = id_map g ∧
        sessions_list g' = sessions_list g ∧ session_map g' = session_map g ∧
        contains g' = contains g ∧
        next_agg g' = (λ v, Edge (n * weight v) (sessions v)) <$> next_agg g.
Proof.
  intros Hn. rewrite !build_closed_eq. unfold build_closed.
  case_decide as Hall; [|done].
  rewrite decide_True by (by apply Forall_replay).
  assert (item_identifiers (mjoin (replicate n data)) = item_identifiers data)
    as -> by (by apply union_list_replay).
  assert (session_identifiers (mjoin (replicate n data)) = session_identifiers data)
    as -> by (by apply union_list_replay).
  destruct (sorted_set (item_identifiers data)) as [l|e]; simpl; [|done].
  destruct (sorted_set (session_identifiers data)) as [sl|e]; simpl; [|done].
  intros [= <-]. eexists. split; [done|]. simpl.
  unfold contains_set. rewrite (union_list_replay _ n data Hn).
  do 5 (split; [done|]). by apply next_agg_replay.
Qed.

Lemma replay_scales_weights_witness :
  ∃ g g', build scenario = Ok g ∧
          build (mjoin (replicate 3 scenario)) = Ok g' ∧
          id_map g' = id_map g ∧
          next_agg g' = (λ v, Edge (3 * weight v) (sessions v)) <$> next_agg g.
Proof.
  eexists.
  match goal with |- ∃ g', build scenario = Ok ?g ∧ _ =>
    destruct (replay_scales_weights 3 scenario g) as (g' & Hg' & _ & Hid & _ & _ & _ & Hagg);
      [lia|reflexivity|]
  end.
  exists g'. split; [reflexivity|]. by split.
Defined.

(** ** driver.py: what a load is told of, whatever its outcome *)

(** X10.  Acknowledged writes, in order and once each.  Call a write
    acknowledged when its call of the write operation returned a summary.
    Whatever the outcome of a load and whatever the store answers, the
    acknowledged writes are, in the order of the calls, the chunks of a
    prefix of the chunk list: one acknowledgement per chunk, none for a
    chunk before all earlier chunks have theirs, so the acknowledged
    records are a prefix of the batch; [overall] holds the sums of the
    counters these acknowledgements reported, and of nothing else.  A load
    that returns had every chunk acknowledged and returns these sums; a
    load that fails had strictly fewer chunks acknowledged than there are.
    This is an account of the answers the loader got, not of the contents
    of the store. *)
Theorem acknowledged_writes_form_a_prefix {R : Type}
    (execute_write : nat → list R → Driver.outcome)
    (W M : nat) (batch : list R) :
  0 < W → 0 < M →
  let res := (Driver.execute_batch_with execute_write W M batch).1 in
  let st := (Driver.execute_batch_with execute_write W M batch).2 in
  let acknowledged := Driver.commits execute_write (Driver.submitted st) in
  acknowledged.*1 `prefix_of` Driver.chunk_list W batch ∧
  concat acknowledged.*1 `prefix_of` batch ∧
  Driver.nodes (Driver.overall st) =
    sum_list (Driver.nodes_created <$> acknowledged.*2) ∧
  Driver.rels (Driver.overall st) =
    sum_list (Driver.relationships_created <$> acknowledged.*2) ∧
  Driver.props (Driver.overall st) =
    sum_list (Driver.properties_set <$> acknowledged.*2) ∧
  (∀ c, res = Driver.Returned c →
     acknowledged.*1 = Driver.chunk_list W batch ∧
     concat acknowledged.*1 = batch ∧
     c = Driver.Counters (Driver.nodes (Driver.overall st))
                         (Driver.rels (Driver.overall st))
                         (Driver.props (Driver.overall st))) ∧
  (∀ f, res = Driver.LoadFailed f →
     length acknowledged < length (Driver.chunk_list W batch)).
Proof.
  intros HW HM. rewrite execute_batch_with_chunks by done.
  destruct (chunks_commits execute_write W M
              (Driver.py_range 0 (length batch) W) batch Driver.init HM)
    as [rest Hrest].
  fold (Driver.chunk_list W batch) in Hrest.
  destruct (Driver.chunks _ _ _ _ _ _) as [st|[f st]]; simpl in *;
    destruct Hrest as (-> & -> & Hrest);
    destruct (foldl_accumulate (Driver.Totals 0 0 0) rest.*2) as (Hn & Hr & Hp);
    simpl in Hn, Hr, Hp.
  - rewrite Hrest. split; [done|].
    split; [by rewrite chunk_list_concat|]. do 3 (split; [done|]).
    split; [|done]. intros c [= <-]. by rewrite chunk_list_concat.
  - destruct Hrest as (j & Hj & Hrest). rewrite Hrest.
    split; [apply prefix_take|].
    split.
    { rewrite <- (chunk_list_concat W batch) at 2 by done.
      apply prefix_concat, prefix_take. }
    do 3 (split; [done|]). split; [done|].
    intros f' _. rewrite <- (length_fmap fst), Hrest, length_take.
    unfold Driver.chunk_list. rewrite length_fmap. lia.
Qed.

Lemma acknowledged_writes_form_a_prefix_witness :
  let st := (Driver.execute_batch_with (flaky Driver.SessionExpired) 2 3
               [1; 2; 3; 4; 5]).2 in
  (Driver.commits (flaky Driver.SessionExpired) (Driver.submitted st)).*1
    `prefix_of` Driver.chunk_list 2 [1; 2; 3; 4; 5] ∧
  Driver.nodes (Driver.overall st) =
    sum_list (Driver.nodes_created <$>
      (Driver.commits (flaky Driver.SessionExpired) (Driver.submitted st)).*2).
Proof.
  pose proof (acknowledged_writes_form_a_prefix (flaky Driver.SessionExpired) 2 3
    [1; 2; 3; 4; 5] ltac:(lia) ltac:(lia)) as (Hpre & _ & Hnodes & _).
  split; [exact Hpre|exact Hnodes].
Defined.

(** X11.  The effort of a load is bounded, whatever the store does.  The
    calls of the write operation are the chunks of the batch in order,
    each between once and [MAX_RETRIES] times, possibly stopping early:
    every call gets between 1 and [CHUNK_SIZE] records, there are at most
    [MAX_RETRIES * ceil(N / CHUNK_SIZE)] calls, every wait is a power
    [2^a] with [a < MAX_RETRIES], there are no more waits than calls, the
    waits add up to at most [(2^MAX_RETRIES - 1) * ceil(N / CHUNK_SIZE)],
    and the write operation is called at all exactly when the batch is not
    empty. *)
Theorem load_effort_bounded {R : Type}
    (execute_write : nat → list R → Driver.outcome)
    (W M : nat) (batch : list R) :
  0 < W → 0 < M →
  let st := (Driver.execute_batch_with execute_write W M batch).2 in
  let cs := Driver.chunk_list W batch in
  (∃ rs, length rs ≤ length cs ∧ Forall (λ r, 1 ≤ r ≤ M) rs ∧
         Driver.submitted st = concat (zip_with replicate rs cs)) ∧
  Forall (λ c, c ∈ cs ∧ 1 ≤ length c ≤ W) (Driver.submitted st) ∧
  length (Driver.submitted st) ≤ M * Driver.ceil_div (length batch) W ∧
  length (Driver.slept st) ≤ length (Driver.submitted st) ∧
  Forall (λ w, ∃ a, a < M ∧ w = 2 ^ a) (Driver.slept st) ∧
  sum_list (Driver.slept st) ≤ (2 ^ M - 1) * Driver.ceil_div (length batch) W ∧
  (Driver.submitted st = [] ↔ batch = []).
Proof.
  intros HW HM. rewrite execute_batch_with_chunks by done.
  destruct (chunks_trace execute_write W M
              (Driver.py_range 0 (length batch) W) batch Driver.init HM)
    as (st & rs & sleeps & Hres & Hlen & Hrs & Hne & Hsub & Hsl & Hpow & Hn & Hsum).
  fold (Driver.chunk_list W batch) in Hsub. simpl in Hsub, Hsl.
  assert (length (Driver.py_range 0 (length batch) W) =
          Driver.ceil_div (length batch) W) as Hcs.
  { rewrite <- (chunk_list_length W batch HW).
    unfold Driver.chunk_list. by rewrite length_fmap. }
  rewrite Hcs in Hlen.
  assert ((Driver.chunks execute_write W M
             (Driver.py_range 0 (length batch) W) batch Driver.init
           = inl st ∨
           ∃ f, Driver.chunks execute_write W M
             (Driver.py_range 0 (length batch) W) batch Driver.init
           = inr (f, st))) as [->|[f ->]] by (destruct Hres as [[? _]|?]; eauto);
    cbn [snd].
  all: pose proof (sum_list_bounded rs M Hrs) as [Hlo Hhi].
  all: assert (length (Driver.submitted st) = sum_list rs) as Hcalls
         by (rewrite Hsub; apply length_replicated;
             rewrite chunk_list_length by done; lia).
  all: split; [exists rs; by rewrite chunk_list_length|].
  all: split;
    [apply Forall_forall; intros c Hc; rewrite Hsub in Hc;
     apply elem_of_replicated in Hc;
     split; [done|by apply (chunk_length_bounds W batch)]|].
  all: split; [rewrite Hcalls; nia|].
  all: split; [rewrite Hsl, Hcalls; lia|].
  all: split; [by rewrite Hsl|].
  all: split; [rewrite Hsl; nia|].
  all: split.
  all: try (intros Hnil; destruct batch as [|x batch]; [done|];
            exfalso; rewrite Hnil in Hcalls; simpl in Hcalls;
            destruct rs as [|r rs]; [|apply Forall_cons in Hrs as [? _]; simpl in Hcalls; lia];
            apply Hne; [|done];
            intros Hstarts; apply (f_equal length) in Hstarts;
            rewrite Hcs in Hstarts; simpl in Hstarts;
            pose proof (ceil_div_step (S (length batch)) W HW ltac:(lia)); lia).
  all: intros ->; rewrite Hsub, chunk_list_nil by done;
       by destruct rs.
Qed.

Lemma load_effort_bounded_witness :
  let st := (Driver.execute_batch_with (flaky Driver.SessionExpired) 2 3
               [1; 2; 3; 4; 5]).2 in
  length (Driver.submitted st) ≤ 3 * Driver.ceil_div 5 2 ∧
  sum_list (Driver.slept st) ≤ (2 ^ 3 - 1) * Driver.ceil_div 5 2.
Proof.
  pose proof (load_effort_bounded (flaky Driver.SessionExpired) 2 3
    [1; 2; 3; 4; 5] ltac:(lia) ltac:(lia)) as (_ & _ & Hcalls & _ & _ & Hsum & _).
  split; [exact Hcalls|exact Hsum].
Defined.

(** X12.  A load without faults: when the call number [j] succeeds on the
    chunk number [j], for every chunk, the write operation is called once
    per chunk, in order, nothing is slept, and the load returns the sums of
    the counters the calls reported. *)
Theorem fault_free_load {R : Type}
    (execute_write : nat → list R → Driver.outcome)
    (W M : nat) (batch : list R) :
  0 < W → 0 < M →
  (∀ j chunk, Driver.chunk_list W batch !! j = Some chunk →
     ∃ c, execute_write j chunk = Driver.Summary c) →
  ∃ c st,
    Driver.execute_batch_with execute_write W M batch = (Driver.Returned c, st) ∧
    Driver.submitted st = Driver.chunk_list W batch ∧
    Driver.slept st = [] ∧
    (Driver.commits execute_write (Driver.chunk_list W batch)).*1 =
      Driver.chunk_list W batch ∧
    Driver.nodes_created c =
      sum_list (Driver.nodes_created <$>
        (Driver.commits execute_write (Driver.chunk_list W batch)).*2) ∧
    Driver.relationships_created c =
      sum_list (Driver.relationships_created <$>
        (Driver.commits execute_write (Driver.chunk_list W batch)).*2) ∧
    Driver.properties_set c =
      sum_list (Driver.properties_set <$>
        (Driver.commits execute_write (Driver.chunk_list W batch)).*2).
Proof.
  intros HW HM Hok. rewrite execute_batch_with_chunks by done.
  destruct (chunks_fault_free execute_write W M
              (Driver.py_range 0 (length batch) W) batch Driver.init HM)
    as (st & Hrun & Hsub & Hsl); [exact Hok|].
  fold (Driver.chunk_list W batch) in Hsub. simpl in Hsub, Hsl.
  destruct (chunks_commits execute_write W M
              (Driver.py_range 0 (length batch) W) batch Driver.init HM)
    as [rest Hrest].
  rewrite Hrun in Hrest. destruct Hrest as (Hcommits & Hov & Hrest).
  rewrite Hsub in Hcommits. simpl in Hcommits, Hov.
  fold (Driver.chunk_list W batch) in Hrest.
  destruct (foldl_accumulate (Driver.Totals 0 0 0) rest.*2) as (Hn & Hr & Hp).
  rewrite Hrun, Hcommits. eexists _, st. split; [done|].
  split; [done|]. split; [done|]. split; [done|]. simpl.
  rewrite Hov. by split; [|split].
Qed.

Lemma fault_free_load_witness :
  ∃ c st,
    Driver.execute_batch_with
      (λ _ chunk, Driver.Summary (Driver.Counters (length chunk) 0 1))
      2 3 [1; 2; 3; 4; 5] = (Driver.Returned c, st) ∧
    Driver.submitted st = Driver.chunk_list 2 [1; 2; 3; 4; 5] ∧
    Driver.slept st = [].
Proof.
  destruct (fault_free_load
    (λ _ chunk, Driver.Summary (Driver.Counters (length chunk) 0 1))
    2 3 [1; 2; 3; 4; 5] ltac:(lia) ltac:(lia))
    as (c & st & Hres & Hsub & Hsl & _).
  - intros j chunk _. by eexists.
  - exists c, st. split; [exact Hres|]. split; [exact Hsub|exact Hsl].
Defined.

(** X13.  Why a load fails, and the balance of a load.  For every
    outcome, the number of calls is the number of commits plus the number
    of waits, plus one when the load failed with a fault outside the
    transient class.  A load fails only on a call of the write operation,
    and its cause is the fault of the very last call; when the cause is
    transient, the last [MAX_RETRIES] calls were all on the same chunk and
    all failed with a transient fault, and the last wait, [2^(MAX_RETRIES
    - 1)], was slept before giving up; when it is not, the calls on that
    chunk before it were fewer than [MAX_RETRIES] and all transient
    failures. *)
Theorem load_failure_cause {R : Type}
    (execute_write : nat → list R → Driver.outcome)
    (W M : nat) (batch : list R) :
  0 < W → 0 < M →
  let res := (Driver.execute_batch_with execute_write W M batch).1 in
  let st := (Driver.execute_batch_with execute_write W M batch).2 in
  length (Driver.submitted st) =
    length (Driver.commits execute_write (Driver.submitted st))
    + length (Driver.slept st)
    + match res with
      | Driver.LoadFailed f => if Driver.transient f then 0 else 1
      | Driver.Returned _ => 0
      end ∧
  (∀ f, res = Driver.LoadFailed f →
     ∃ trace chunk,
       Driver.submitted st = trace ++ [chunk] ∧
       chunk ∈ Driver.chunk_list W batch ∧
       execute_write (length trace) chunk = Driver.Fails f ∧
       (Driver.transient f = true →
          ∃ trace0,
            Driver.submitted st = trace0 ++ replicate M chunk ∧
            Driver.transient_run execute_write (length trace0) M chunk ∧
            last (Driver.slept st) = Some (2 ^ (M - 1))) ∧
       (Driver.transient f = false →
          ∃ trace0 k,
            k < M ∧ trace = trace0 ++ replicate k chunk ∧
            Driver.transient_run execute_write (length trace0) k chunk)).
Proof.
  intros HW HM. rewrite execute_batch_with_chunks by done.
  destruct (chunks_accounting execute_write W M
              (Driver.py_range 0 (length batch) W) batch Driver.init HM)
    as (st & extra & Hres & Hbal).
  simpl in Hbal.
  destruct (Driver.chunks _ _ _ _ _ _) as [st1|[f st1]] eqn:Hrun; simpl.
  - destruct Hres as [[[= <-] ->]|(f & ? & _)]; [|done].
    split; [lia|done].
  - destruct Hres as [[? _]|(f' & [= <- <-] & ->)]; [done|].
    split; [lia|]. intros f' [= <-].
    by apply (chunks_failure execute_write W M _ batch Driver.init).
Qed.

Lemma load_failure_cause_witness :
  let st := (Driver.execute_batch_with (flaky (Driver.OtherError 7)) 2 3
               [1; 2; 3; 4; 5]).2 in
  ∃ trace chunk,
    Driver.submitted st = trace ++ [chunk] ∧
    flaky (Driver.OtherError 7) (length trace) chunk
      = Driver.Fails (Driver.OtherError 7).
Proof.
  pose proof (load_failure_cause (flaky (Driver.OtherError 7)) 2 3
    [1; 2; 3; 4; 5] ltac:(lia) ltac:(lia)) as [_ Hcause].
  destruct (Hcause (Driver.OtherError 7) eq_refl)
    as (trace & chunk & Hsub & _ & Hf & _).
  exists trace, chunk. split; [exact Hsub|exact Hf].
Defined.

(** ** driver.py: the command line *)

Section cli_facts.
Import Driver Cli.
Context {R V S P : Type}.
Implicit Types (env : @environment R V S P) (args : @arguments P).
Implicit Types (t body : list (@effect R V S P)).











(** The [finally] block of [main] decides how [main] ends. *)
Lemma finally_close env (m : action unit) t s t' :
  m t = (s, t') →
  try_finally m (bind (close env) (λ _, return_ 0%Z)) t =
  (match driver_close env with
   | Some e => Raises unit e
   | None => Returns unit 0
   end, t' ++ [DriverClosed]).
Proof.
  intros Hm. unfold try_finally, bind, close, emit, check, raise, ret, return_.
  rewrite Hm. by destruct (driver_close env).
Qed.

Lemma main_cases env args :
  main env args [] =
  match nonempty (NEO4J_URI env), nonempty (NEO4J_USER env),
        nonempty (NEO4J_PASSWORD env) with
  | Some uri, Some user, Some password =>
      match verify_connectivity env with
      | Some e => (Raises unit e, [DriverCreated uri user password])
      | None =>
          try_finally
            (try_except env (command env args)
               (λ e, bind (emit (ErrorLogged e)) (λ _, return_ 1%Z)))
            (bind (close env) (λ _, return_ 0%Z))
            [DriverCreated uri user password]
      end
  | _, _, _ => (Raises unit ValueError, [])
  end.
Proof. unfold main, init. by repeat case_match. Qed.


End cli_facts.


(** X15.  No command.  When neither [--read] nor [--write] is given and
    [--batch] or [--query] is missing (an empty string counts as missing),
    [main] still creates the driver and checks the connection, prints the
    help, closes the driver, and returns 0: the [return 1] of that branch
    is replaced by the [return 0] of the [finally] block. *)
Theorem main_without_command {R V S P : Type}
    (env : @Cli.environment R V S P) (args : @Cli.arguments P)
    (uri user password : string) :
  Cli.nonempty (Cli.NEO4J_URI env) = Some uri →
  Cli.nonempty (Cli.NEO4J_USER env) = Some user →
  Cli.nonempty (Cli.NEO4J_PASSWORD env) = Some password →
  Cli.verify_connectivity env = None →
  Cli.nonempty (Cli.read args) = None →
  Cli.nonempty (Cli.write args) = None →
  Cli.nonempty (Cli.batch args) = None ∨ Cli.nonempty (Cli.query args) = None →
  Cli.command env args [Cli.DriverCreated uri user password] =
    (Cli.Returns unit 1,
     [Cli.DriverCreated uri user password; Cli.HelpPrinted]) ∧
  Cli.main env args [] =
    (match Cli.driver_close env with
     | Some e => Cli.Raises unit e
     | None => Cli.Returns unit 0
     end,
     [Cli.DriverCreated uri user password; Cli.HelpPrinted; Cli.DriverClosed]).
Proof.
  intros Huri Huser Hpw Hverify Hread Hwrite Hbatch.
  assert (Cli.command env args [Cli.DriverCreated uri user password] =
            (Cli.Returns unit 1,
             [Cli.DriverCreated uri user password; Cli.HelpPrinted])) as Hcmd.
  { unfold Cli.command. rewrite Hread, Hwrite.
    destruct Hbatch as [-> | ->]; [done|].
    by destruct (Cli.nonempty (Cli.batch args)). }
  split; [done|].
  rewrite main_cases, Huri, Huser, Hpw, Hverify.
  rewrite (finally_close env _ _ (Cli.Returns unit 1)
             [Cli.DriverCreated uri user password; Cli.HelpPrinted]); [done|].
  unfold Cli.try_except. by rewrite Hcmd.
Qed.

Lemma main_without_command_witness :
  Cli.main (refusing Driver.ServiceUnavailable)
    (Cli.Args None None (Some "MATCH (n) RETURN n") None tt) [] =
  (Cli.Returns unit 0,
   [Cli.DriverCreated "bolt://localhost:7687" "neo4j" "secret";
    Cli.HelpPrinted; Cli.DriverClosed]).
Proof.
  apply (main_without_command (refusing Driver.ServiceUnavailable)
           (Cli.Args None None (Some "MATCH (n) RETURN n") None tt)
           "bolt://localhost:7687" "neo4j" "secret");
    try reflexivity.
  left. reflexivity.
Defined.

(** X16.  A failed load behind the command line.  With [--batch] and
    [--query] given and the file read, when the load of [execute_batch]
    fails, [main] logs the fault if it is an [Exception] (and nothing
    otherwise), prints nothing, closes the driver and returns 0.  The
    store has been called exactly as [execute_batch] calls it. *)
Theorem main_failed_load {R V S P : Type}
    (env : @Cli.environment R V S P) (args : @Cli.arguments P)
    (uri user password path q : string) (batch_data : list R)
    (e : Driver.fault) (st : Driver.state) :
  Cli.nonempty (Cli.NEO4J_URI env) = Some uri →
  Cli.nonempty (Cli.NEO4J_USER env) = Some user →
  Cli.nonempty (Cli.NEO4J_PASSWORD env) = Some password →
  Cli.verify_connectivity env = None →
  Cli.nonempty (Cli.read args) = None →
  Cli.nonempty (Cli.write args) = None →
  Cli.nonempty (Cli.batch args) = Some path →
  Cli.nonempty (Cli.query args) = Some q →
  Cli.json_load env path = inr batch_data →
  Driver.execute_batch (Cli.execute_write env) batch_data
    = (Driver.LoadFailed e, st) →
  Cli.main env args [] =
    (match Cli.driver_close env with
     | Some e' => Cli.Raises unit e'
     | None => Cli.Returns unit 0
     end,
     [Cli.DriverCreated uri user password; Cli.FileOpened path;
      Cli.BatchRun q (Driver.submitted st) (Driver.slept st)]
     ++ (if Cli.is_Exception env e then [Cli.ErrorLogged e] else [])
     ++ [Cli.DriverClosed]).
Proof.
  intros Huri Huser Hpw Hverify Hread Hwrite Hbatch Hquery Hfile Hload.
  rewrite main_cases, Huri, Huser, Hpw, Hverify.
  assert (Cli.command env args [Cli.DriverCreated uri user password] =
            (Cli.Raises unit e,
             [Cli.DriverCreated uri user password; Cli.FileOpened path;
              Cli.BatchRun q (Driver.submitted st) (Driver.slept st)])) as Hcmd.
  { unfold Cli.command, Cli.execute_batch_call.
    rewrite Hread, Hwrite, Hbatch, Hquery.
    unfold Cli.bind, Cli.emit, Cli.lift, Cli.ret. rewrite Hfile, Hload. done. }
  destruct (Cli.is_Exception env e) eqn:Hexc.
  - rewrite (finally_close env _ _ (Cli.Returns unit 1)
               [Cli.DriverCreated uri user password; Cli.FileOpened path;
                Cli.BatchRun q (Driver.submitted st) (Driver.slept st);
                Cli.ErrorLogged e]); [done|].
    unfold Cli.try_except. by rewrite Hcmd, Hexc.
  - rewrite (finally_close env _ _ (Cli.Raises unit e)
               [Cli.DriverCreated uri user password; Cli.FileOpened path;
                Cli.BatchRun q (Driver.submitted st) (Driver.slept st)]); [done|].
    unfold Cli.try_except. by rewrite Hcmd, Hexc.
Qed.

Lemma main_failed_load_witness :
  Cli.main (refusing (Driver.OtherError 7))
    (Cli.Args None None (Some "UNWIND $batch AS r RETURN r")
       (Some "batch.json") tt) [] =
  (Cli.Returns unit 0,
   [Cli.DriverCreated "bolt://localhost:7687" "neo4j" "secret";
    Cli.FileOpened "batch.json";
    Cli.BatchRun "UNWIND $batch AS r RETURN r" [[1; 2; 3]] [];
    Cli.ErrorLogged (Driver.OtherError 7); Cli.DriverClosed]).
Proof.
  apply (main_failed_load (refusing (Driver.OtherError 7))
           (Cli.Args None None (Some "UNWIND $batch AS r RETURN r")
              (Some "batch.json") tt)
           "bolt://localhost:7687" "neo4j" "secret" "batch.json"
           "UNWIND $batch AS r RETURN r" [1; 2; 3] (Driver.OtherError 7)
           (Driver.State (Driver.Totals 0 0 0) [[1; 2; 3]] []));
    reflexivity.
Defined.

(** ** generate_batch.py: from rows to events *)

Section generate_facts.
Implicit Types (df : list GenerateBatch.row) (ks : list Z).

Lemma filter_all {A} (P : A → Prop) `{∀ x, Decision (P x)} (l : list A) :
  Forall P l → filter P l = l.
Proof.
  induction 1 as [|x l Hx _ IH]; [done|].
  rewrite filter_cons. destruct (decide (P x)); [by f_equal|done].
Qed.

Lemma filter_none {A} (P : A → Prop) `{∀ x, Decision (P x)} (l : list A) :
  Forall (λ x, ¬ P x) l → filter P l = [].
Proof.
  induction 1 as [|x l Hx _ IH]; [done|].
  rewrite filter_cons. by destruct (decide (P x)).
Qed.

Lemma StronglySorted_filter {A} (Rel : relation A) (P : A → Prop)
    `{∀ x, Decision (P x)} (l : list A) :
  StronglySorted Rel l → StronglySorted Rel (filter P l).
Proof.
  induction 1 as [|x l _ IH Hx]; [constructor|].
  rewrite filter_cons. destruct (decide (P x)); [|done].
  constructor; [done|]. apply Forall_forall. intros y Hy.
  apply list_elem_of_filter in Hy as [_ Hy].
  by eapply Forall_forall in Hx.
Qed.

Lemma StronglySorted_le_lt ks :
  StronglySorted Z.le ks → NoDup ks → StronglySorted Z.lt ks.
Proof.
  induction 1 as [|k ks _ IH Hk]; intros Hnd; [constructor|].
  apply NoDup_cons in Hnd as [Hfresh Hnd]. constructor; [by apply IH|].
  apply Forall_forall. intros s Hs.
  pose proof (proj1 (Forall_forall _ _) Hk s Hs).
  assert (s ≠ k) by (by intros ->). lia.
Qed.

(** The keys of [groupby]. *)
Lemma groupby_keys df :
  StronglySorted Z.lt
    (merge_sort Z.le (remove_dups (GenerateBatch.session_id <$> df))) ∧
  ∀ s, s ∈ merge_sort Z.le (remove_dups (GenerateBatch.session_id <$> df)) ↔
       ∃ r, r ∈ df ∧ GenerateBatch.session_id r = s.
Proof.
  split.
  - apply StronglySorted_le_lt; [apply StronglySorted_merge_sort; apply _|].
    rewrite merge_sort_Permutation. apply NoDup_remove_dups.
  - intros s. rewrite merge_sort_Permutation, elem_of_remove_dups.
    rewrite list_elem_of_fmap. naive_solver.
Qed.

Lemma session_sorted df :
  Sorted GenerateBatch.key_le df →
  StronglySorted
    (λ a b, (GenerateBatch.session_id a ≤ GenerateBatch.session_id b)%Z) df.
Proof.
  intros Hs. apply Sorted_StronglySorted.
  { intros a b c. lia. }
  induction Hs as [|r df _ IH Hhd]; constructor; [done|].
  destruct Hhd as [|r' df Hle]; constructor.
  unfold GenerateBatch.key_le in Hle. lia.
Qed.

(** In a frame sorted by session, the rows of the least session come
    first. *)
Lemma filter_session_sorted k df :
  StronglySorted
    (λ a b, (GenerateBatch.session_id a ≤ GenerateBatch.session_id b)%Z) df →
  Forall (λ r, (k ≤ GenerateBatch.session_id r)%Z) df →
  filter (λ r, GenerateBatch.session_id r = k) df ++
  filter (λ r, GenerateBatch.session_id r ≠ k) df = df.
Proof.
  induction 1 as [|r df Hs IH Hr]; intros Hall; [done|].
  apply Forall_cons in Hall as [Hk Hall]. rewrite !filter_cons.
  destruct (decide (GenerateBatch.session_id r = k)) as [Heq|Hne].
  - rewrite decide_False by tauto. simpl. f_equal. by apply IH.
  - rewrite decide_True by done.
    assert (Forall (λ r', GenerateBatch.session_id r' ≠ k) df) as Hlater.
    { eapply Forall_impl; [exact Hr|]. simpl. intros r' Hle. lia. }
    rewrite filter_none by exact Hlater.
    by rewrite filter_all.
Qed.

(** Grouping a frame sorted by session and chaining the groups gives the
    frame back. *)
Lemma group_concat ks : ∀ df,
  StronglySorted Z.lt ks →
  StronglySorted
    (λ a b, (GenerateBatch.session_id a ≤ GenerateBatch.session_id b)%Z) df →
  Forall (λ r, GenerateBatch.session_id r ∈ ks) df →
  mjoin ((λ s, filter (λ r, GenerateBatch.session_id r = s) df) <$> ks) = df.
Proof.
  induction ks as [|k ks IH]; intros df Hks Hdf Hin.
  { destruct df as [|r df]; [done|].
    apply Forall_cons in Hin as [Hr _]. by apply elem_of_nil in Hr. }
  apply StronglySorted_inv in Hks as [Hks Hlt].
  assert (Forall (λ r, (k ≤ GenerateBatch.session_id r)%Z) df) as Hmin.
  { eapply Forall_impl; [exact Hin|]. simpl. intros r Hr.
    apply elem_of_cons in Hr as [->|Hr]; [lia|].
    pose proof (proj1 (Forall_forall _ _) Hlt _ Hr). lia. }
  rewrite fmap_cons. cbn [mjoin list_join].
  etrans; [|exact (filter_session_sorted k df Hdf Hmin)]. f_equal.
  rewrite <- (IH (filter (λ r, GenerateBatch.session_id r ≠ k) df)); [|done| |].
  - f_equal. apply list_fmap_ext. intros _ s Hs%list_elem_of_lookup_2.
    rewrite list_filter_filter. apply list_filter_iff. intros r.
    pose proof (proj1 (Forall_forall _ _) Hlt s Hs). simpl. lia.
  - by apply StronglySorted_filter.
  - apply Forall_forall. intros r [Hne Hr]%list_elem_of_filter.
    pose proof (proj1 (Forall_forall _ _) Hin r Hr) as Hk.
    apply elem_of_cons in Hk as [Hk|Hk]; [done|done].
Qed.

End generate_facts.

Section batch_facts.
Context `{GenerateBatch.Sorting}.
Implicit Types (df : list GenerateBatch.row) (ks : list Z) (batch : list event).

Lemma fmap_mjoin {A B} (f : A → B) (ls : list (list A)) :
  f <$> mjoin ls = mjoin (fmap f <$> ls).
Proof.
  induction ls as [|l ls IH]; [done|].
  rewrite fmap_cons. simpl. by rewrite fmap_app, IH.
Qed.

Lemma session_events_lookup s (items : list Z) i :
  GenerateBatch.session_events s items !! i =
  (λ x, Event (Some (IInt s)) (Some (IInt x)) (IInt <$> items !! S i))
    <$> items !! i.
Proof.
  unfold GenerateBatch.session_events. rewrite list_lookup_imap.
  by rewrite Nat.add_1_r.
Qed.

Lemma session_events_length s (items : list Z) :
  length (GenerateBatch.session_events s items) = length items.
Proof. apply length_imap. Qed.

Lemma session_events_proj s (items : list Z) :
  (λ e, (session_id e, item_id e)) <$> GenerateBatch.session_events s items =
  (λ x, (Some (IInt s), Some (IInt x))) <$> items.
Proof.
  unfold GenerateBatch.session_events. rewrite fmap_imap.
  rewrite <- imap_const. by apply imap_ext.
Qed.

(** The batch as one block of events per session key. *)
Lemma generate_batch_blocks df :
  GenerateBatch.generate_batch df =
  mjoin ((λ g, GenerateBatch.session_events g.1 g.2) <$>
         ((λ s, (s, GenerateBatch.item_id <$>
                      filter (λ r, GenerateBatch.session_id r = s)
                             (GenerateBatch.sort_values df))) <$>
          merge_sort Z.le
            (remove_dups (GenerateBatch.session_id <$>
                          GenerateBatch.sort_values df)))).
Proof.
  unfold GenerateBatch.generate_batch, GenerateBatch.groupby.
  by rewrite <- !list_fmap_compose.
Qed.

Lemma generate_batch_proj df :
  (λ e, (session_id e, item_id e)) <$> GenerateBatch.generate_batch df =
  (λ r, (Some (IInt (GenerateBatch.session_id r)),
         Some (IInt (GenerateBatch.item_id r))))
    <$> GenerateBatch.sort_values df.
Proof.
  rewrite generate_batch_blocks, fmap_mjoin, <- !list_fmap_compose.
  destruct (groupby_keys (GenerateBatch.sort_values df)) as [Hks Hin].
  rewrite <- (group_concat _ (GenerateBatch.sort_values df) Hks) at 2.
  - rewrite fmap_mjoin, <- list_fmap_compose. f_equal.
    apply list_fmap_ext. intros _ s _. simpl.
    rewrite session_events_proj, <- list_fmap_compose.
    apply list_fmap_ext. intros _ r Hr%list_elem_of_lookup_2. simpl.
    by apply list_elem_of_filter in Hr as [-> _].
  - apply session_sorted, GenerateBatch.sort_values_sorted.
  - apply Forall_forall. intros r Hr. apply Hin. by exists r.
Qed.

(** Blocks of ascending sessions are chained. *)
Lemma chained_blocks (groups : list (Z * list Z)) :
  StronglySorted Z.lt groups.*1 →
  chained (mjoin ((λ g, GenerateBatch.session_events g.1 g.2) <$> groups)) ∧
  Forall (λ e, ∃ s, s ∈ groups.*1 ∧ session_id e = Some (IInt s))
         (mjoin ((λ g, GenerateBatch.session_events g.1 g.2) <$> groups)).
Proof.
  induction groups as [|[s items] groups IH]; intros Hs.
  { split; [by intros j e ?|constructor]. }
  rewrite fmap_cons in Hs. apply StronglySorted_inv in Hs as [Hs Hlt].
  destruct (IH Hs) as [Hch Hsess]. clear IH.
  rewrite fmap_cons. cbn [mjoin list_join fst snd].
  split.
  - intros j e Hj.
    destruct (decide (j < length (GenerateBatch.session_events s items)))
      as [Hin|Hout].
    + rewrite lookup_app_l in Hj by done.
      rewrite session_events_lookup in Hj.
      destruct (items !! j) as [x|] eqn:Hx; [|done]. injection Hj as <-.
      cbn [next_item_id session_id].
      destruct (items !! S j) as [y|] eqn:Hy.
      * rewrite lookup_app_l
          by (rewrite session_events_length; by eapply lookup_lt_Some).
        rewrite session_events_lookup, Hy. simpl.
        by rewrite decide_True.
      * apply lookup_ge_None in Hy.
        rewrite lookup_app_r by (rewrite session_events_length; lia).
        destruct (mjoin _ !! _) as [e'|] eqn:He'; [|done]. simpl in Hlt |- *.
        apply list_elem_of_lookup_2 in He'.
        destruct (proj1 (Forall_forall _ _) Hsess e' He') as (s' & Hs' & ->).
        pose proof (proj1 (Forall_forall _ _) Hlt s' Hs').
        rewrite decide_False; [done|]. intros [= ?]. lia.
    + rewrite lookup_app_r in Hj by lia.
      rewrite lookup_app_r by lia.
      rewrite (Hch _ _ Hj).
      by replace (S j - length (GenerateBatch.session_events s items))
        with (S (j - length (GenerateBatch.session_events s items))) by lia.
  - apply Forall_app. split.
    + apply Forall_forall. intros e (i & Hi)%list_elem_of_lookup.
      rewrite session_events_lookup in Hi.
      destruct (items !! i); [|done]. injection Hi as <-.
      exists s. split; [by left|done].
    + eapply Forall_impl; [exact Hsess|]. simpl.
      intros e (s' & Hs' & He). exists s'. split; [by right|done].
Qed.

End batch_facts.

(** X17.  Lines 13-26: the batch is the sorted frame, row by row.  For
    any way [sort_values] breaks ties, the batch has one event per row;
    the event number [i] carries the session and the item of the row
    number [i] of the sorted frame, both as integers; so the events are
    those of the input rows, rearranged, and their sessions ascend. *)
Theorem batch_follows_sorted_frame `{GenerateBatch.Sorting}
    (df : list GenerateBatch.row) :
  let batch := GenerateBatch.generate_batch df in
  (λ e, (session_id e, item_id e)) <$> batch =
    (λ r, (Some (IInt (GenerateBatch.session_id r)),
           Some (IInt (GenerateBatch.item_id r))))
      <$> GenerateBatch.sort_values df ∧
  length batch = length df ∧
  (λ e, (session_id e, item_id e)) <$> batch ≡ₚ
    (λ r, (Some (IInt (GenerateBatch.session_id r)),
           Some (IInt (GenerateBatch.item_id r)))) <$> df ∧
  (∀ i j e e' s s',
     i < j → batch !! i = Some e → batch !! j = Some e' →
     session_id e = Some (IInt s) → session_id e' = Some (IInt s') →
     (s ≤ s')%Z).
Proof.
  intros batch. subst batch. pose proof (generate_batch_proj df) as Hproj.
  split; [done|]. split.
  { rewrite <- (length_fmap (λ e, (session_id e, item_id e))), Hproj.
    by rewrite length_fmap, GenerateBatch.sort_values_perm. }
  split; [by rewrite Hproj, GenerateBatch.sort_values_perm|].
  intros i j e e' s s' Hij Hi Hj Hs Hs'.
  assert (∀ k e0 s0, GenerateBatch.generate_batch df !! k = Some e0 →
            session_id e0 = Some (IInt s0) →
            ∃ r, GenerateBatch.sort_values df !! k = Some r ∧
                 GenerateBatch.session_id r = s0) as Hrow.
  { intros k e0 s0 Hk Hs0.
    apply (f_equal (λ l, l !! k)) in Hproj.
    rewrite !list_lookup_fmap, Hk in Hproj. simpl in Hproj.
    destruct (GenerateBatch.sort_values df !! k) as [r|]; [|done].
    exists r. split; [done|]. simpl in Hproj. congruence. }
  destruct (Hrow i e s Hi Hs) as (r & Hr & <-).
  destruct (Hrow j e' s' Hj Hs') as (r' & Hr' & <-).
  apply (StronglySorted_lookup_lt _ _ i j r r'
           (session_sorted _ (GenerateBatch.sort_values_sorted df)) Hr Hr' Hij).
Qed.

Section chain_facts.
Context `{GenerateBatch.Sorting}.
Implicit Types (df : list GenerateBatch.row).

(** The one event of a session that points nowhere is its last. *)
Lemma session_events_ends s (items : list Z) :
  length (filter (λ e, next_item_id e = None)
                 (GenerateBatch.session_events s items)) =
  if decide (items = []) then 0 else 1.
Proof.
  destruct items as [|x items _] using rev_ind; [done|].
  rewrite decide_False by (by destruct items).
  unfold GenerateBatch.session_events. rewrite imap_app, filter_app.
  rewrite filter_none.
  - simpl. rewrite filter_cons, decide_True; [done|]. simpl.
    rewrite lookup_ge_None_2; [done|]. rewrite length_app. simpl. lia.
  - apply Forall_forall. intros e (i & Hi)%list_elem_of_lookup.
    rewrite list_lookup_imap in Hi.
    destruct (items !! i) as [y|] eqn:Hy; [|done]. injection Hi as <-.
    simpl. apply lookup_lt_Some in Hy.
    destruct (lookup_lt_is_Some_2 (items ++ [x]) (i + 1)) as [z ->]; [|done].
    rewrite length_app. simpl. lia.
Qed.

Lemma blocks_ends (groups : list (Z * list Z)) :
  Forall (λ g, g.2 ≠ []) groups →
  length (filter (λ e, next_item_id e = None)
            (mjoin ((λ g, GenerateBatch.session_events g.1 g.2) <$> groups))) =
  length groups.
Proof.
  induction 1 as [|[s items] groups Hne _ IH]; [done|].
  rewrite fmap_cons. cbn [mjoin list_join fst snd].
  rewrite filter_app, length_app, session_events_ends, decide_False by done.
  simpl. f_equal. exact IH.
Qed.

Lemma generate_batch_ends df :
  length (filter (λ e, next_item_id e = None) (GenerateBatch.generate_batch df)) =
  size (list_to_set (GenerateBatch.session_id <$> df) : gset Z).
Proof.
  rewrite generate_batch_blocks, blocks_ends.
  - rewrite length_fmap, merge_sort_Permutation.
    rewrite <- (size_list_to_set (C:=gset Z)) by apply NoDup_remove_dups.
    f_equal. apply set_eq. intros s.
    rewrite !elem_of_list_to_set, elem_of_remove_dups.
    by rewrite GenerateBatch.sort_values_perm.
  - apply Forall_fmap, Forall_forall. intros s Hs. simpl.
    apply (groupby_keys (GenerateBatch.sort_values df)) in Hs as (r & Hr & Hrs).
    intros Hnil. apply fmap_nil_inv in Hnil.
    eapply (filter_nil_not_elem_of _ _ r Hnil); done.
Qed.

Lemma generate_batch_chained df : chained (GenerateBatch.generate_batch df).
Proof.
  rewrite generate_batch_blocks. apply chained_blocks.
  rewrite <- list_fmap_compose.
  assert (∀ ks : list Z,
            fst ∘ (λ s, (s, GenerateBatch.item_id <$>
                              filter (λ r, GenerateBatch.session_id r = s)
                                     (GenerateBatch.sort_values df))) <$> ks
            = ks) as ->.
  { intros ks. induction ks as [|k ks IH]; [done|]. rewrite fmap_cons.
    simpl. by f_equal. }
  by apply groupby_keys.
Qed.

End chain_facts.

Section event_facts.
Context `{GenerateBatch.Sorting}.
Implicit Types (df : list GenerateBatch.row).

Lemma generate_batch_length df :
  length (GenerateBatch.generate_batch df) = length df.
Proof.
  rewrite <- (length_fmap (λ e, (session_id e, item_id e))), generate_batch_proj.
  by rewrite length_fmap, GenerateBatch.sort_values_perm.
Qed.

Lemma batch_event_shape df e :
  e ∈ GenerateBatch.generate_batch df →
  ∃ r, r ∈ df ∧ session_id e = Some (IInt (GenerateBatch.session_id r)) ∧
       item_id e = Some (IInt (GenerateBatch.item_id r)).
Proof.
  intros He.
  assert ((session_id e, item_id e) ∈
            (λ e, (session_id e, item_id e)) <$> GenerateBatch.generate_batch df)
    as Hp by (apply list_elem_of_fmap; by exists e).
  rewrite generate_batch_proj in Hp.
  apply list_elem_of_fmap in Hp as (r & [= Hs Hi] & Hr).
  exists r. split; [by rewrite <- (GenerateBatch.sort_values_perm df)|done].
Qed.

Lemma batch_row_event df r :
  r ∈ df →
  ∃ e, e ∈ GenerateBatch.generate_batch df ∧
       session_id e = Some (IInt (GenerateBatch.session_id r)) ∧
       item_id e = Some (IInt (GenerateBatch.item_id r)).
Proof.
  intros Hr. rewrite <- (GenerateBatch.sort_values_perm df) in Hr.
  assert ((Some (IInt (GenerateBatch.session_id r)),
           Some (IInt (GenerateBatch.item_id r))) ∈
            (λ e, (session_id e, item_id e)) <$> GenerateBatch.generate_batch df)
    as Hp by (rewrite generate_batch_proj; apply list_elem_of_fmap; by exists r).
  apply list_elem_of_fmap in Hp as (e & [= Hs Hi] & He).
  by exists e.
Qed.

Lemma batch_event_next df e :
  e ∈ GenerateBatch.generate_batch df →
  next_item_id e = None ∨
  ∃ e', e' ∈ GenerateBatch.generate_batch df ∧
        session_id e' = session_id e ∧ next_item_id e = item_id e'.
Proof.
  intros (j & Hj)%list_elem_of_lookup.
  rewrite (generate_batch_chained df j e Hj).
  destruct (GenerateBatch.generate_batch df !! S j) as [e'|] eqn:He'; [|by left].
  case_decide as Hsame; [|by left].
  right. exists e'. split; [by eapply list_elem_of_lookup_2|done].
Qed.

End event_facts.

(** X18.  Lines 18-26: the batch is a chain per session.  Every event
    holds integers; its [next_item_id] is the [item_id] of the event that
    follows it in the batch when that event is of the same session, and
    [None] when it is of another session or when there is none; so exactly
    one event per session, its last, has no successor, and every other
    successor is an item of the same session. *)
Theorem batch_is_chained `{GenerateBatch.Sorting} (df : list GenerateBatch.row) :
  let batch := GenerateBatch.generate_batch df in
  chained batch ∧
  Forall (λ e, ∃ s x, session_id e = Some (IInt s) ∧ item_id e = Some (IInt x) ∧
                      (next_item_id e = None ∨
                       ∃ y, next_item_id e = Some (IInt y))) batch ∧
  (∀ e, e ∈ batch → next_item_id e ≠ None →
     ∃ e', e' ∈ batch ∧ session_id e' = session_id e ∧
           item_id e' = next_item_id e) ∧
  length (filter (λ e, next_item_id e = None) batch) =
    size (list_to_set (GenerateBatch.session_id <$> df) : gset Z).
Proof.
  intros batch. subst batch.
  split; [apply generate_batch_chained|].
  split.
  { apply Forall_forall. intros e He.
    destruct (batch_event_shape df e He) as (r & _ & Hs & Hi).
    exists (GenerateBatch.session_id r), (GenerateBatch.item_id r).
    split; [done|]. split; [done|].
    destruct (batch_event_next df e He) as [Hn|(e' & He' & _ & Hn)]; [by left|].
    destruct (batch_event_shape df e' He') as (r' & _ & _ & Hi').
    right. exists (GenerateBatch.item_id r'). by rewrite Hn. }
  split; [|apply generate_batch_ends].
  intros e He Hnext.
  destruct (batch_event_next df e He) as [Hn|(e' & He' & Hs & Hn)]; [done|].
  by exists e'.
Qed.

(** X19.  [generate_batch.py] into [build_bulk.py].  On the batch of any
    frame the build raises nothing.  Its item table is built over exactly
    the items of the frame.  Its session table is built over the sessions
    of the frame other than session 0, which the truthiness tests of
    [build_bulk.py] take for a missing one.  When no item is 0, the
    weights of all TransitionEdges add up to the number of rows less the
    number of sessions. *)
Theorem batch_builds `{GenerateBatch.Sorting} (df : list GenerateBatch.row) :
  ∃ g, build (GenerateBatch.generate_batch df) = Ok g ∧
       dom (id_map g) =
         list_to_set ((λ r, IInt (GenerateBatch.item_id r)) <$> df) ∧
       dom (session_map g) =
         list_to_set ((λ r, IInt (GenerateBatch.session_id r)) <$>
                      filter (λ r, GenerateBatch.session_id r ≠ 0%Z) df) ∧
       (Forall (λ r, GenerateBatch.item_id r ≠ 0%Z) df →
        total_weight (next_agg g) + 
          size (list_to_set (GenerateBatch.session_id <$> df) : gset Z)
        = length df).
Proof.
  assert (∀ e x, e ∈ GenerateBatch.generate_batch df →
            item_id e = Some x ∨ present (next_item_id e) = Some x →
            ∃ r, r ∈ df ∧ x = IInt (GenerateBatch.item_id r)) as Hitems.
  { intros e x He [Hx|Hx].
    - destruct (batch_event_shape df e He) as (r & Hr & _ & Hi).
      exists r. split; [done|congruence].
    - apply present_Some in Hx as [Hx _].
      destruct (batch_event_next df e He) as [Hn|(e' & He' & _ & Hn)];
        [congruence|].
      destruct (batch_event_shape df e' He') as (r & Hr & _ & Hi).
      exists r. split; [done|congruence]. }
  destruct (build_succeeds (GenerateBatch.generate_batch df)) as [g Hg].
  { apply Forall_forall. intros e He.
    destruct (batch_event_shape df e He) as (r & _ & _ & ->). by eexists. }
  { left. intros x (e & He & Hx)%elem_of_item_identifiers.
    by destruct (Hitems e x He Hx) as (r & _ & ->). }
  { left. intros x (e & He & Hx)%elem_of_session_identifiers.
    apply present_Some in Hx as [Hx _].
    destruct (batch_event_shape df e He) as (r & _ & Hs & _).
    rewrite Hs in Hx. by injection Hx as <-. }
  exists g. split; [done|].
  pose proof (build_Ok _ _ Hg) as (_ & Hl & Hid & _ & Hss & Hsm & _).
  split.
  { rewrite Hid, (sorted_set_dom _ _ Hl). apply set_eq. intros x.
    rewrite elem_of_item_identifiers, elem_of_list_to_set, list_elem_of_fmap.
    split.
    - intros (e & He & Hx). destruct (Hitems e x He Hx) as (r & Hr & ->).
      by exists r.
    - intros (r & -> & Hr). destruct (batch_row_event df r Hr) as (e & He & _ & Hi).
      exists e. split; [done|by left]. }
  split.
  { rewrite Hsm, (sorted_set_dom _ _ Hss). apply set_eq. intros x.
    rewrite elem_of_session_identifiers, elem_of_list_to_set, list_elem_of_fmap.
    split.
    - intros (e & He & Hx). apply present_Some in Hx as [Hx Ht].
      destruct (batch_event_shape df e He) as (r & Hr & Hs & _).
      exists r. rewrite Hs in Hx. injection Hx as <-. split; [done|].
      apply list_elem_of_filter. split; [|done].
      rewrite Hs in Ht. simpl in Ht. intros Hz. by rewrite Hz in Ht.
    - intros (r & -> & [Hnz Hr]%list_elem_of_filter).
      destruct (batch_row_event df r Hr) as (e & He & Hs & _).
      exists e. split; [done|]. unfold present. rewrite Hs. simpl.
      by destruct (Z.eqb_spec (GenerateBatch.session_id r) 0). }
  intros Hnz. rewrite (total_weight_build _ _ Hg).
  rewrite <- (generate_batch_ends df), <- (generate_batch_length df).
  rewrite (filter_ext_Forall (λ e, truthy (next_item_id e) = true)
                             (λ e, ¬ next_item_id e = None)).
  - rewrite Nat.add_comm, <- length_app. by rewrite filter_app_complement.
  - apply Forall_forall. intros e He.
    destruct (batch_event_next df e He) as [Hn|(e' & He' & _ & Hn)].
    + rewrite Hn. simpl. split; [done|by intros []].
    + destruct (batch_event_shape df e' He') as (r & Hr & _ & Hi).
      rewrite Hn, Hi. simpl.
      pose proof (proj1 (Forall_forall _ _) Hnz r Hr).
      by destruct (Z.eqb_spec (GenerateBatch.item_id r) 0).
Qed.

Section sort_facts.
Implicit Types (df : list GenerateBatch.row).

#[global] Instance key_le_trans : Transitive GenerateBatch.key_le.
Proof. intros a b c. unfold GenerateBatch.key_le. lia. Qed.

Lemma NoDup_fmap_inj_on {A B} (f : A → B) (l : list A) x y :
  NoDup (f <$> l) → x ∈ l → y ∈ l → f x = f y → x = y.
Proof.
  induction l as [|a l IH]; intros Hnd Hx Hy Heq; [by apply elem_of_nil in Hx|].
  rewrite fmap_cons in Hnd. apply NoDup_cons in Hnd as [Hfresh Hnd].
  apply elem_of_cons in Hx as [->|Hx]; apply elem_of_cons in Hy as [->|Hy].
  - done.
  - exfalso. apply Hfresh. rewrite Heq. apply list_elem_of_fmap. by exists y.
  - exfalso. apply Hfresh. rewrite <- Heq. apply list_elem_of_fmap. by exists x.
  - by apply IH.
Qed.

(** With distinct sort keys there is one sorted frame. *)
Lemma sort_values_unique (S1 S2 : GenerateBatch.Sorting) df df' :
  NoDup ((λ r, (GenerateBatch.session_id r, GenerateBatch.position r)) <$> df) →
  df ≡ₚ df' →
  @GenerateBatch.sort_values S1 df = @GenerateBatch.sort_values S2 df'.
Proof.
  intros Hnd Hp.
  apply (Sorted_unique_strong GenerateBatch.key_le).
  - intros r1 r2 Hr1 Hr2 H12 H21.
    rewrite GenerateBatch.sort_values_perm in Hr1.
    rewrite GenerateBatch.sort_values_perm, <- Hp in Hr2.
    apply (NoDup_fmap_inj_on _ df r1 r2 Hnd Hr1 Hr2).
    unfold GenerateBatch.key_le in H12, H21. f_equal; lia.
  - apply GenerateBatch.sort_values_sorted.
  - apply GenerateBatch.sort_values_sorted.
  - by rewrite !GenerateBatch.sort_values_perm.
Qed.

End sort_facts.

(** X20.  When no two rows share both session and position, as is the
    case for a frame made by [sessionize], the batch depends neither on
    the order of the rows in the frame nor on how [sort_values] sorts. *)
Theorem batch_deterministic (S1 S2 : GenerateBatch.Sorting)
    (df df' : list GenerateBatch.row) :
  NoDup ((λ r, (GenerateBatch.session_id r, GenerateBatch.position r)) <$> df) →
  df ≡ₚ df' →
  @GenerateBatch.generate_batch S1 df = @GenerateBatch.generate_batch S2 df'.
Proof.
  intros Hnd Hp. unfold GenerateBatch.generate_batch.
  by rewrite (sort_values_unique S1 S2 df df' Hnd Hp).
Qed.

Lemma batch_deterministic_witness :
  GenerateBatch.generate_batch frame = GenerateBatch.generate_batch (reverse frame).
Proof.
  apply (batch_deterministic merge_sorting merge_sorting frame (reverse frame)).
  - apply (bool_decide_unpack _). vm_compute. exact I.
  - symmetry. apply reverse_Permutation.
Defined.

(** ** sessionizer.py: filters and positions *)

Section sessionize_facts.
Import Sessionizer.
Context `{Sessionizer.Sorting}.
Implicit Types (df : list click) (n m s : Z).

Lemma row_cumcount df : row <$> cumcount df = df.
Proof.
  unfold cumcount. rewrite fmap_imap.
  rewrite (imap_ext _ (const id)) by done.
  by rewrite imap_const, list_fmap_id.
Qed.

Lemma cumcount_lookup df j :
  cumcount df !! j =
  (λ r, Placed r (Z.of_nat (session_size (take j df) (session_id r)))) <$> df !! j.
Proof. unfold cumcount. by rewrite list_lookup_imap. Qed.

Lemma session_size_keep_sessions n df s :
  session_size (keep_sessions n df) s =
  if decide (n ≤ Z.of_nat (session_size df s))%Z then session_size df s else 0.
Proof.
  unfold keep_sessions, session_size at 1. rewrite list_filter_filter.
  case_decide as Hn.
  - transitivity (length (filter (λ r, session_id r = s) df)); [|done].
    f_equal. apply list_filter_iff. intros r.
    split; [tauto|]. intros Hr. split; [done|]. by rewrite Hr.
  - rewrite filter_none; [done|]. apply Forall_forall. intros r _ [Hr Hk].
    by rewrite Hr in Hk.
Qed.

Lemma keep_sessions_sublist n df : keep_sessions n df `sublist_of` df.
Proof. apply sublist_filter. Qed.

Lemma keep_items_sublist m df : keep_items m df `sublist_of` df.
Proof. apply sublist_filter. Qed.

Lemma click_session_sorted df :
  Sorted time_le df →
  StronglySorted (λ a b, (session_id a ≤ session_id b)%Z) df.
Proof.
  intros Hs. apply Sorted_StronglySorted.
  { intros a b c. lia. }
  induction Hs as [|r df _ IH Hhd]; constructor; [done|].
  destruct Hhd as [|r' df Hle]; constructor.
  unfold time_le in Hle. lia.
Qed.

Lemma click_time_sorted df :
  Sorted time_le df → StronglySorted time_le df.
Proof.
  apply Sorted_StronglySorted. intros a b c. unfold time_le. lia.
Qed.

(** The rows of a session before a row of that session are fewer than
    those before a later row. *)
Lemma session_size_take df j k r :
  j < k → df !! j = Some r →
  session_size (take j df) (session_id r) <
  session_size (take k df) (session_id r).
Proof.
  intros Hjk Hj.
  assert (take k df !! j = Some r) as Hj' by (by rewrite lookup_take_lt).
  rewrite <- (take_drop_middle (take k df) j r Hj').
  rewrite take_take, Nat.min_l by lia.
  unfold session_size. rewrite filter_app, filter_cons, decide_True by done.
  rewrite length_app. simpl. lia.
Qed.

(** The row number [k] of a session, and where it stands in the frame. *)
Lemma filter_lookup_take {A} (P : A → Prop) `{∀ x, Decision (P x)}
    (l : list A) k x :
  filter P l !! k = Some x →
  ∃ j, l !! j = Some x ∧ P x ∧ length (filter P (take j l)) = k.
Proof.
  revert k. induction l as [|a l IH]; intros k Hk; [done|].
  rewrite filter_cons in Hk. destruct (decide (P a)) as [Ha|Ha].
  - destruct k as [|k]; simpl in Hk.
    + injection Hk as <-. by exists 0.
    + destruct (IH k Hk) as (j & Hj & Hx & Hlen). exists (S j).
      split; [done|]. split; [done|]. simpl.
      rewrite filter_cons, decide_True by done. simpl. by f_equal.
  - destruct (IH k Hk) as (j & Hj & Hx & Hlen). exists (S j).
    split; [done|]. split; [done|]. simpl.
    by rewrite filter_cons, decide_False.
Qed.

End sessionize_facts.

Section sessionize_more.
Import Sessionizer.
Context `{Sessionizer.Sorting}.
Implicit Types (df : list click) (n m s : Z).

Lemma sessionize_rows n m df :
  row <$> sessionize n m df =
  keep_sessions n (keep_items m (keep_sessions n (sort_values df))).
Proof. unfold sessionize. apply row_cumcount. Qed.

Lemma sessionize_lookup n m df j p :
  sessionize n m df !! j = Some p →
  (row <$> sessionize n m df) !! j = Some (row p) ∧
  position p =
    Z.of_nat (session_size (take j (row <$> sessionize n m df))
                           (session_id (row p))).
Proof.
  intros Hj. split; [by rewrite list_lookup_fmap, Hj|].
  rewrite sessionize_rows. unfold sessionize in Hj.
  rewrite cumcount_lookup in Hj.
  destruct (_ !! j) as [r|]; [|done]. by injection Hj as <-.
Qed.

Lemma sessionize_sorted n m df :
  StronglySorted time_le (row <$> sessionize n m df).
Proof.
  rewrite sessionize_rows. unfold keep_sessions, keep_items.
  do 3 apply StronglySorted_filter.
  apply click_time_sorted, sort_values_sorted.
Qed.

(** Rows of the result in order: sessions ascend, and within a session
    positions grow strictly while time does not go back. *)
Lemma sessionize_strict n m df j k p q :
  j < k → sessionize n m df !! j = Some p → sessionize n m df !! k = Some q →
  (session_id (row p) < session_id (row q))%Z ∨
  (session_id (row p) = session_id (row q) ∧
   (position p < position q)%Z ∧
   (timestamp (row p) ≤ timestamp (row q))%Z).
Proof.
  intros Hjk Hj Hk.
  destruct (sessionize_lookup n m df j p Hj) as [Hrj Hpj].
  destruct (sessionize_lookup n m df k q Hk) as [Hrk Hpk].
  pose proof (StronglySorted_lookup_lt _ _ j k _ _
                (sessionize_sorted n m df) Hrj Hrk Hjk) as [Hlt|[Heq Hts]];
    [by left|].
  right. split; [done|]. split; [|done].
  rewrite Hpj, Hpk, <- Heq.
  pose proof (session_size_take _ j k _ Hjk Hrj). lia.
Qed.

Lemma StronglySorted_from_lookup {A} (Rel : relation A) (l : list A) :
  (∀ i j x y, i < j → l !! i = Some x → l !! j = Some y → Rel x y) →
  StronglySorted Rel l.
Proof.
  induction l as [|a l IH]; intros Hl; constructor.
  - apply IH. intros i j x y Hij Hi Hj. apply (Hl (S i) (S j)); [lia|done|done].
  - apply Forall_forall. intros y (j & Hj)%list_elem_of_lookup.
    apply (Hl 0 (S j)); [lia|done|done].
Qed.

Lemma sessionize_keys_NoDup n m df :
  NoDup ((λ r, (GenerateBatch.session_id r, GenerateBatch.position r)) <$>
         (read_parquet <$> sessionize n m df)).
Proof.
  apply NoDup_alt. intros i j key Hi Hj.
  rewrite !list_lookup_fmap in Hi, Hj.
  destruct (sessionize n m df !! i) as [p|] eqn:Hp; [|done].
  destruct (sessionize n m df !! j) as [q|] eqn:Hq; [|done].
  simpl in Hi, Hj. rewrite <- Hj in Hi. injection Hi as Hs Hpos.
  destruct (Nat.lt_trichotomy i j) as [Hlt|[->|Hgt]]; [|done|].
  - destruct (sessionize_strict _ _ df i j p q Hlt Hp Hq) as [?|(_ & ? & _)]; lia.
  - destruct (sessionize_strict _ _ df j i q p Hgt Hq Hp) as [?|(_ & ? & _)]; lia.
Qed.

Lemma sessionize_key_sorted n m df :
  Sorted GenerateBatch.key_le (read_parquet <$> sessionize n m df).
Proof.
  apply StronglySorted_Sorted, StronglySorted_from_lookup.
  intros i j x y Hij Hi Hj. rewrite list_lookup_fmap in Hi, Hj.
  destruct (sessionize n m df !! i) as [p|] eqn:Hp; [|done].
  destruct (sessionize n m df !! j) as [q|] eqn:Hq; [|done].
  injection Hi as <-. injection Hj as <-.
  unfold GenerateBatch.key_le, read_parquet. simpl.
  destruct (sessionize_strict _ _ df i j p q Hij Hp Hq) as [?|(? & ? & _)]; lia.
Qed.

End sessionize_more.

(** X21.  [sessionize], the filters (lines 76-93).  For any way
    [sort_values] breaks ties and any thresholds: the rows returned are
    rows of the input, none more often than there, in the order of the
    sorted frame; every session that is left has at least
    [min_session_length] rows left; and every item that is left occurred
    at least [min_item_freq] times among the rows of the sessions that
    passed the first length filter. *)
Theorem sessionize_filters `{Sessionizer.Sorting}
    (min_session_length min_item_freq : Z) (df : list Sessionizer.click) :
  let out := Sessionizer.sessionize min_session_length min_item_freq df in
  Sessionizer.row <$> out `sublist_of` Sessionizer.sort_values df ∧
  Sessionizer.row <$> out ⊆+ df ∧
  length out ≤ length df ∧
  (∀ p, p ∈ out →
     (min_session_length ≤
        Z.of_nat (Sessionizer.session_size (Sessionizer.row <$> out)
                    (Sessionizer.session_id (Sessionizer.row p))))%Z) ∧
  (∀ p, p ∈ out →
     (min_item_freq ≤
        Z.of_nat (Sessionizer.item_count
                    (Sessionizer.keep_sessions min_session_length
                       (Sessionizer.sort_values df))
                    (Sessionizer.item_id (Sessionizer.row p))))%Z).
Proof.
  intros out. subst out. rewrite sessionize_rows.
  assert (Sessionizer.keep_sessions min_session_length
            (Sessionizer.keep_items min_item_freq
               (Sessionizer.keep_sessions min_session_length
                  (Sessionizer.sort_values df)))
          `sublist_of` Sessionizer.sort_values df) as Hsub.
  { etrans; [apply keep_sessions_sublist|].
    etrans; [apply keep_items_sublist|apply keep_sessions_sublist]. }
  assert (Sessionizer.keep_sessions min_session_length
            (Sessionizer.keep_items min_item_freq
               (Sessionizer.keep_sessions min_session_length
                  (Sessionizer.sort_values df))) ⊆+ df) as Hmset.
  { etrans; [by apply sublist_submseteq|].
    apply Permutation_submseteq, Sessionizer.sort_values_perm. }
  split; [done|]. split; [done|].
  split.
  { rewrite <- (length_fmap Sessionizer.row), sessionize_rows.
    by apply submseteq_length. }
  split.
  - intros p Hp.
    assert (Sessionizer.row p ∈ Sessionizer.row <$>
              Sessionizer.sessionize min_session_length min_item_freq df) as Hr
      by (apply list_elem_of_fmap; by exists p).
    rewrite sessionize_rows in Hr.
    apply list_elem_of_filter in Hr as [Hlen _].
    rewrite session_size_keep_sessions. by rewrite decide_True.
  - intros p Hp.
    assert (Sessionizer.row p ∈ Sessionizer.row <$>
              Sessionizer.sessionize min_session_length min_item_freq df) as Hr
      by (apply list_elem_of_fmap; by exists p).
    rewrite sessionize_rows in Hr.
    apply list_elem_of_filter in Hr as [_ Hr].
    by apply list_elem_of_filter in Hr as [Hfreq _].
Qed.

(** X22.  [sessionize], the positions (line 98).  The position of a row
    is the number of rows of its session before it; so the positions of a
    session of [n] rows are exactly [0 .. n-1], no two rows share session
    and position, positions follow time within a session, and the frame
    is in the order [generate_batch.py] sorts it into. *)
Theorem sessionize_positions `{Sessionizer.Sorting}
    (min_session_length min_item_freq : Z) (df : list Sessionizer.click) :
  let out := Sessionizer.sessionize min_session_length min_item_freq df in
  (∀ j p, out !! j = Some p →
     Sessionizer.position p =
       Z.of_nat (Sessionizer.session_size (take j (Sessionizer.row <$> out))
                   (Sessionizer.session_id (Sessionizer.row p))) ∧
     (0 ≤ Sessionizer.position p <
        Z.of_nat (Sessionizer.session_size (Sessionizer.row <$> out)
                    (Sessionizer.session_id (Sessionizer.row p))))%Z) ∧
  (∀ s k, k < Sessionizer.session_size (Sessionizer.row <$> out) s →
     ∃ p, p ∈ out ∧ Sessionizer.session_id (Sessionizer.row p) = s ∧
          Sessionizer.position p = Z.of_nat k) ∧
  (∀ j k p q, j < k → out !! j = Some p → out !! k = Some q →
     Sessionizer.session_id (Sessionizer.row p) =
       Sessionizer.session_id (Sessionizer.row q) →
     (Sessionizer.position p < Sessionizer.position q)%Z ∧
     (Sessionizer.timestamp (Sessionizer.row p) ≤
        Sessionizer.timestamp (Sessionizer.row q))%Z) ∧
  NoDup ((λ r, (GenerateBatch.session_id r, GenerateBatch.position r)) <$>
         (read_parquet <$> out)) ∧
  Sorted GenerateBatch.key_le (read_parquet <$> out).
Proof.
  intros out. subst out.
  split.
  { intros j p Hj.
    destruct (sessionize_lookup _ _ df j p Hj) as [Hr Hpos].
    split; [done|]. rewrite Hpos. split; [lia|].
    pose proof (session_size_take _ j
                  (length (Sessionizer.row <$>
                     Sessionizer.sessionize min_session_length min_item_freq df))
                  _ (lookup_lt_Some _ _ _ Hr) Hr) as Hlt.
    rewrite firstn_all in Hlt. lia. }
  split.
  { intros s k Hk.
    destruct (lookup_lt_is_Some_2
                (filter (λ r, Sessionizer.session_id r = s)
                   (Sessionizer.row <$>
                    Sessionizer.sessionize min_session_length min_item_freq df))
                k Hk) as [r Hr].
    apply filter_lookup_take in Hr as (j & Hj & Hs & Hlen).
    rewrite list_lookup_fmap in Hj.
    destruct (Sessionizer.sessionize _ _ df !! j) as [p|] eqn:Hp; [|done].
    injection Hj as <-.
    exists p. split; [by eapply list_elem_of_lookup_2|]. split; [done|].
    destruct (sessionize_lookup _ _ df j p Hp) as [_ ->].
    unfold Sessionizer.session_size. by rewrite Hs, Hlen. }
  split.
  { intros j k p q Hjk Hj Hk Hsame.
    destruct (sessionize_strict _ _ df j k p q Hjk Hj Hk) as [Hlt|(_ & ? & ?)];
      [lia|done]. }
  split; [apply sessionize_keys_NoDup|apply sessionize_key_sorted].
Qed.

(** X23.  [sessionizer.py] into [generate_batch.py].  On the frame
    [sessionize] returns, sorting by session and position changes
    nothing, whatever the sort; so the batch lists the clicks that are
    left in the order of the frame, and every event points at the item
    clicked next in its session, or at nothing when the session ends
    there. *)
Theorem sessionize_then_batch `{Sessionizer.Sorting} `{GenerateBatch.Sorting}
    (min_session_length min_item_freq : Z) (df : list Sessionizer.click) :
  let out := Sessionizer.sessionize min_session_length min_item_freq df in
  let batch := GenerateBatch.generate_batch (read_parquet <$> out) in
  GenerateBatch.sort_values (read_parquet <$> out) = read_parquet <$> out ∧
  length batch = length out ∧
  (∀ j e, batch !! j = Some e →
     ∃ p, out !! j = Some p ∧
          session_id e =
            Some (IInt (Sessionizer.session_id (Sessionizer.row p))) ∧
          item_id e = Some (IInt (Sessionizer.item_id (Sessionizer.row p))) ∧
          next_item_id e =
            match out !! S j with
            | Some q =>
                if decide (Sessionizer.session_id (Sessionizer.row q) =
                           Sessionizer.session_id (Sessionizer.row p))
                then Some (IInt (Sessionizer.item_id (Sessionizer.row q)))
                else None
            | None => None
            end).
Proof.
  intros out batch. subst out batch.
  assert (GenerateBatch.sort_values
            (read_parquet <$>
             Sessionizer.sessionize min_session_length min_item_freq df) =
          read_parquet <$>
            Sessionizer.sessionize min_session_length min_item_freq df) as Hsort.
  { apply (Sorted_unique_strong GenerateBatch.key_le).
    - intros r1 r2 Hr1 Hr2 H12 H21.
      rewrite GenerateBatch.sort_values_perm in Hr1.
      apply (NoDup_fmap_inj_on _ _ r1 r2
               (sessionize_keys_NoDup min_session_length min_item_freq df)
               Hr1 Hr2).
      unfold GenerateBatch.key_le in H12, H21. f_equal; lia.
    - apply GenerateBatch.sort_values_sorted.
    - apply sessionize_key_sorted.
    - apply GenerateBatch.sort_values_perm. }
  split; [done|].
  split; [by rewrite generate_batch_length, length_fmap|].
  pose proof (generate_batch_proj
                (read_parquet <$>
                 Sessionizer.sessionize min_session_length min_item_freq df))
    as Hproj.
  rewrite Hsort, <- list_fmap_compose in Hproj.
  assert (∀ k e0,
            GenerateBatch.generate_batch
              (read_parquet <$>
               Sessionizer.sessionize min_session_length min_item_freq df)
              !! k = Some e0 →
            ∃ p, Sessionizer.sessionize min_session_length min_item_freq df
                   !! k = Some p ∧
                 session_id e0 =
                   Some (IInt (Sessionizer.session_id (Sessionizer.row p))) ∧
                 item_id e0 =
                   Some (IInt (Sessionizer.item_id (Sessionizer.row p)))) as Hrow.
  { intros k e0 Hk. apply (f_equal (λ l, l !! k)) in Hproj.
    rewrite !list_lookup_fmap, Hk in Hproj. simpl in Hproj.
    destruct (Sessionizer.sessionize _ _ df !! k) as [p|]; [|done].
    exists p. simpl in Hproj. injection Hproj as -> ->. done. }
  intros j e Hj. destruct (Hrow j e Hj) as (p & Hp & Hs & Hi).
  exists p. split; [done|]. split; [done|]. split; [done|].
  rewrite (generate_batch_chained _ j e Hj).
  destruct (GenerateBatch.generate_batch _ !! S j) as [e'|] eqn:He'.
  - destruct (Hrow (S j) e' He') as (q & -> & Hs' & Hi').
    rewrite Hs, Hs', Hi'.
    destruct (decide (Sessionizer.session_id (Sessionizer.row q) =
                      Sessionizer.session_id (Sessionizer.row p))) as [Heq|Hne].
    + by rewrite decide_True by (by rewrite Heq).
    + rewrite decide_False; [done|]. intros [= ?]. done.
  - apply lookup_ge_None in He'. rewrite generate_batch_length, length_fmap in He'.
    by rewrite lookup_ge_None_2.
Qed.

(** ** split.py: the temporal split *)

Section split_facts.
Import Split.
Context `{Split.Sorting}.
Implicit Types (df : list Sessionizer.placed) (series : list (Z * Z)).

Lemma session_max_ts_keys df :
  NoDup (session_max_ts df).*1 ∧
  (∀ s, s ∈ (session_max_ts df).*1 ↔ ∃ p, p ∈ df ∧ session_of p = s) ∧
  (∀ s v, (s, v) ∈ session_max_ts df → v = last_ts df s).
Proof.
  unfold session_max_ts.
  assert (∀ ks : list Z, ((λ s, (s, last_ts df s)) <$> ks).*1 = ks) as Hfst.
  { intros ks. induction ks as [|k ks IH]; [done|].
    rewrite !fmap_cons. simpl. by f_equal. }
  rewrite Hfst. split; [|split].
  - rewrite merge_sort_Permutation. apply NoDup_remove_dups.
  - intros s. rewrite merge_sort_Permutation, elem_of_remove_dups.
    rewrite list_elem_of_fmap. naive_solver.
  - intros s v (s' & [= -> ->] & _)%list_elem_of_fmap. done.
Qed.

Lemma column_max_ge (l : list Z) x : x ∈ l → (x ≤ column_max l)%Z.
Proof.
  destruct l as [|y l]; [by intros ?%elem_of_nil|]. simpl.
  revert y. induction l as [|z l IH]; intros y Hx.
  - apply list_elem_of_singleton in Hx as ->. simpl. lia.
  - simpl. apply elem_of_cons in Hx as [->|Hx].
    + pose proof (IH y ltac:(by left)). lia.
    + apply elem_of_cons in Hx as [->|Hx]; [lia|].
      pose proof (IH y ltac:(by right)). lia.
Qed.

Lemma last_ts_ge df p : p ∈ df → (time_of p ≤ last_ts df (session_of p))%Z.
Proof.
  intros Hp. apply column_max_ge, list_elem_of_fmap. exists p.
  split; [done|]. by apply list_elem_of_filter.
Qed.

(** The two slices of a series with distinct keys share no key, and
    every entry of the first is at most every entry of the second. *)
Lemma slices_apart series k :
  NoDup series.*1 →
  (list_to_set (take k series).*1 : gset Z) ## list_to_set (drop k series).*1 ∧
  (∀ s, s ∈ series.*1 ↔ s ∈ (take k series).*1 ∨ s ∈ (drop k series).*1).
Proof.
  intros Hnd. rewrite <- (take_drop k series), fmap_app in Hnd.
  apply NoDup_app in Hnd as (_ & Hapart & _). split.
  - intros s Hs1%elem_of_list_to_set Hs2%elem_of_list_to_set.
    by apply (Hapart s).
  - intros s. rewrite <- (take_drop k series) at 1.
    by rewrite fmap_app, elem_of_app.
Qed.

Lemma slices_ordered series k a b :
  Sorted value_le series →
  a ∈ take k series → b ∈ drop k series → (a.2 ≤ b.2)%Z.
Proof.
  intros Hs Ha Hb.
  assert (StronglySorted value_le series) as Hss.
  { apply Sorted_StronglySorted; [|done]. intros x y z. unfold value_le. lia. }
  rewrite <- (take_drop k series) in Hss.
  by apply (StronglySorted_app_1_elem_of _ _ _ a b Hss).
Qed.

End split_facts.

Section split_more.
Import Split.
Context `{Split.Sorting}.
Implicit Types (df : list Sessionizer.placed) (scale : nat → Z).

Lemma sorted_series_keys df :
  NoDup (sort_values (session_max_ts df)).*1 ∧
  (∀ s, s ∈ (sort_values (session_max_ts df)).*1 ↔
        ∃ p, p ∈ df ∧ session_of p = s) ∧
  (∀ s v, (s, v) ∈ sort_values (session_max_ts df) → v = last_ts df s).
Proof.
  destruct (session_max_ts_keys df) as (Hnd & Hin & Hval).
  split; [by rewrite sort_values_perm|].
  split; [intros s; by rewrite sort_values_perm|].
  intros s v. rewrite sort_values_perm. apply Hval.
Qed.

(** The assertion of line 46 holds. *)
Lemma temporal_split_Some scale df :
  let series := sort_values (session_max_ts df) in
  let k := slice_index (scale (length series)) (length series) in
  temporal_split scale df =
  Some (filter (λ p, session_of p ∈ (take k series).*1) df,
        filter (λ p, session_of p ∈ (drop k series).*1) df).
Proof.
  intros series k. unfold temporal_split. fold series. fold k.
  rewrite decide_True; [done|].
  apply slices_apart. apply (sorted_series_keys df).
Qed.

Lemma temporal_split_sides scale df p :
  let series := sort_values (session_max_ts df) in
  let k := slice_index (scale (length series)) (length series) in
  p ∈ df →
  (session_of p ∈ (take k series).*1 ∧ ¬ (session_of p ∈ (drop k series).*1)) ∨
  (¬ (session_of p ∈ (take k series).*1) ∧ session_of p ∈ (drop k series).*1).
Proof.
  intros series k Hp.
  destruct (sorted_series_keys df) as (Hnd & Hin & _).
  destruct (slices_apart series k Hnd) as [Hapart Hcover].
  assert (session_of p ∈ series.*1) as Hs by (apply Hin; by exists p).
  apply Hcover in Hs as [Hs|Hs].
  - left. split; [done|]. intros Hs'.
    apply (Hapart (session_of p)); by apply elem_of_list_to_set.
  - right. split; [|done]. intros Hs'.
    apply (Hapart (session_of p)); by apply elem_of_list_to_set.
Qed.

End split_more.

(** X24.  [temporal_split] partitions the frame by session.  For any
    cutoff index and any way the series is sorted, the assertion of line
    46 holds and the function returns; the two frames keep the order of
    the input, together they hold every row of the input exactly once, no
    session has rows in both, and a session with a row in one frame has
    all its rows there. *)
Theorem temporal_split_partition `{Split.Sorting} (scale : nat → Z)
    (df : list Sessionizer.placed) :
  ∃ train_df test_df,
    Split.temporal_split scale df = Some (train_df, test_df) ∧
    train_df `sublist_of` df ∧ test_df `sublist_of` df ∧
    train_df ++ test_df ≡ₚ df ∧
    (∀ p q, p ∈ train_df → q ∈ test_df → Split.session_of p ≠ Split.session_of q) ∧
    (∀ p q, p ∈ df → q ∈ train_df →
       Split.session_of p = Split.session_of q → p ∈ train_df) ∧
    (∀ p q, p ∈ df → q ∈ test_df →
       Split.session_of p = Split.session_of q → p ∈ test_df).
Proof.
  eexists _, _. split; [apply temporal_split_Some|].
  split; [apply sublist_filter|]. split; [apply sublist_filter|].
  split.
  { rewrite <- (filter_app_complement
                  (λ p, Split.session_of p ∈
                     (take (Split.slice_index
                              (scale (length (Split.sort_values (Split.session_max_ts df))))
                              (length (Split.sort_values (Split.session_max_ts df))))
                           (Split.sort_values (Split.session_max_ts df))).*1) df) at 3.
    f_equiv. apply reflexive_eq, filter_ext_Forall, Forall_forall. intros p Hp.
    destruct (temporal_split_sides scale df p Hp) as [[? ?]|[? ?]]; tauto. }
  split.
  { intros p q [Hp Hpin]%list_elem_of_filter [Hq Hqin]%list_elem_of_filter Heq.
    destruct (temporal_split_sides scale df p Hpin) as [[_ Hno]|[Hno _]];
      [rewrite Heq in Hno|]; done. }
  split.
  - intros p q Hp [Hq _]%list_elem_of_filter Heq.
    apply list_elem_of_filter. split; [by rewrite Heq|done].
  - intros p q Hp [Hq _]%list_elem_of_filter Heq.
    apply list_elem_of_filter. split; [by rewrite Heq|done].
Qed.

(** X25.  [temporal_split] is temporal.  Every session of the training
    frame ends no later than every session of the test frame ends; so no
    training row is later than the last row of any test session.  The
    training frame has the sessions before the cutoff index, counted as
    a slice counts. *)
Theorem temporal_split_order `{Split.Sorting} (scale : nat → Z)
    (df train_df test_df : list Sessionizer.placed) :
  Split.temporal_split scale df = Some (train_df, test_df) →
  (∀ p q, p ∈ train_df → q ∈ test_df →
     (Split.last_ts df (Split.session_of p) ≤
        Split.last_ts df (Split.session_of q))%Z ∧
     (Split.time_of p ≤ Split.last_ts df (Split.session_of q))%Z) ∧
  size (list_to_set (Split.session_of <$> train_df) : gset Z) =
    Split.slice_index
      (scale (size (list_to_set (Split.session_of <$> df) : gset Z)))
      (size (list_to_set (Split.session_of <$> df) : gset Z))
    `min` size (list_to_set (Split.session_of <$> df) : gset Z).
Proof.
  rewrite temporal_split_Some. intros [= <- <-].
  destruct (sorted_series_keys df) as (Hnd & Hin & Hval).
  split.
  - intros p q [Hp Hpin]%list_elem_of_filter [Hq Hqin]%list_elem_of_filter.
    apply list_elem_of_fmap in Hp as ([s v] & Hs & Hp).
    apply list_elem_of_fmap in Hq as ([s' v'] & Hs' & Hq).
    simpl in Hs, Hs'. subst s s'.
    pose proof (slices_ordered _ _ _ _ (Split.sort_values_sorted _) Hp Hq) as Hle.
    apply elem_of_take in Hp as (i & Hp & _). apply list_elem_of_lookup_2 in Hp.
    apply list_elem_of_lookup in Hq as (j & Hq). rewrite lookup_drop in Hq.
    apply list_elem_of_lookup_2 in Hq.
    apply Hval in Hp, Hq. simpl in Hle. subst v v'.
    split; [done|]. etrans; [by apply last_ts_ge|done].
  - set (series := Split.sort_values (Split.session_max_ts df)) in *.
    assert (length series =
            size (list_to_set (Split.session_of <$> df) : gset Z)) as Hlen.
    { rewrite <- (length_fmap fst).
      rewrite <- (size_list_to_set (C:=gset Z) series.*1 Hnd).
      f_equal. apply set_eq. intros s.
      rewrite !elem_of_list_to_set, Hin, list_elem_of_fmap. naive_solver. }
    rewrite <- Hlen.
    set (k := Split.slice_index (scale (length series)) (length series)).
    assert ((list_to_set
               (Split.session_of <$>
                filter (λ p, Split.session_of p ∈ (take k series).*1) df)
             : gset Z) = list_to_set (take k series).*1) as ->.
    { apply set_eq. intros s.
      rewrite !elem_of_list_to_set, list_elem_of_fmap. split.
      - intros (p & -> & [Hp _]%list_elem_of_filter). done.
      - intros Hs.
        assert (s ∈ series.*1) as Hs'.
        { apply list_elem_of_fmap in Hs as (e & -> & He).
          apply list_elem_of_fmap. exists e. split; [done|].
          apply elem_of_take in He as (i & He & _).
          by eapply list_elem_of_lookup_2. }
        apply Hin in Hs' as (p & Hp & <-). exists p. split; [done|].
        by apply list_elem_of_filter. }
    rewrite size_list_to_set.
    + by rewrite length_fmap, length_take.
    + rewrite <- (take_drop k series), fmap_app in Hnd.
      by apply NoDup_app in Hnd as (? & _).
Qed.

Lemma temporal_split_order_witness :
  let df := Sessionizer.sessionize 2 1 clicks in
  let series := Split.sort_values (Split.session_max_ts df) in
  let k := Split.slice_index (four_fifths (length series)) (length series) in
  let sessions := size (list_to_set (Split.session_of <$> df) : gset Z) in
  size (list_to_set
          (Split.session_of <$>
           filter (λ p, Split.session_of p ∈ (take k series).*1) df) : gset Z) =
  Split.slice_index (four_fifths sessions) sessions `min` sessions.
Proof.
  intros df series k sessions.
  apply (temporal_split_order four_fifths df _ _
           (temporal_split_Some four_fifths df)).
Defined.

(** ** models: scores as dictionaries *)

Section dict_facts.
Import Recommender.
Context {F : Type}.
Implicit Types (d rows : list (Z * F)) (k i : Z) (v : F).

Lemma dict_get_set k v d i :
  dict_get i (dict_set k v d) = if decide (k = i) then Some v else dict_get i d.
Proof.
  induction d as [|[k' v'] d IH]; simpl; [done|].
  destruct (decide (k' = k)) as [->|Hne]; simpl.
  - by destruct (decide (k = i)).
  - rewrite IH. destruct (decide (k' = i)) as [->|]; [|done].
    by rewrite decide_False by done.
Qed.

Lemma dict_set_keys k v d :
  (dict_set k v d).*1 = if decide (k ∈ d.*1) then d.*1 else d.*1 ++ [k].
Proof.
  induction d as [|[k' v'] d IH].
  { rewrite decide_False; [done|]. by intros ?%elem_of_nil. }
  cbn [dict_set]. rewrite (fmap_cons fst (k', v') d). cbn [fst].
  destruct (decide (k' = k)) as [->|Hne].
  - rewrite fmap_cons. cbn [fst]. rewrite decide_True; [done|]. by left.
  - rewrite fmap_cons, IH. cbn [fst].
    destruct (decide (k ∈ d.*1)) as [Hin|Hout].
    + rewrite decide_True; [done|]. by right.
    + rewrite decide_False; [done|].
      intros [?|?]%elem_of_cons; [by subst|done].
Qed.

Lemma dict_set_NoDup k v d : NoDup d.*1 → NoDup (dict_set k v d).*1.
Proof.
  intros Hnd. rewrite dict_set_keys. case_decide; [done|].
  apply NoDup_app. split; [done|]. split; [|apply NoDup_singleton].
  intros x Hx ->%list_elem_of_singleton. done.
Qed.

Lemma dict_set_elem k v d i : i ∈ (dict_set k v d).*1 ↔ i = k ∨ i ∈ d.*1.
Proof.
  rewrite dict_set_keys. case_decide as Hin.
  - split; [by right|]. by intros [->|?].
  - rewrite elem_of_app, list_elem_of_singleton. tauto.
Qed.

Lemma dict_get_is_Some d i : is_Some (dict_get i d) ↔ i ∈ d.*1.
Proof.
  induction d as [|[k' v'] d IH]; simpl.
  { split; [by intros [? ?]|by intros ?%elem_of_nil]. }
  destruct (decide (k' = i)) as [->|Hne].
  - split; [intros _; by left|by eexists].
  - rewrite IH, elem_of_cons. naive_solver.
Qed.

Lemma dict_get_elem d i v : NoDup d.*1 → dict_get i d = Some v ↔ (i, v) ∈ d.
Proof.
  induction d as [|[k' v'] d IH]; simpl; intros Hnd.
  { split; [done|by intros ?%elem_of_nil]. }
  apply NoDup_cons in Hnd as [Hfresh Hnd].
  destruct (decide (k' = i)) as [->|Hne].
  - split; [intros [= ->]; by left|].
    intros [[= ->]|Hin]%elem_of_cons; [done|].
    exfalso. apply Hfresh. apply list_elem_of_fmap. by exists (i, v).
  - rewrite (IH Hnd), elem_of_cons. split; [by right|].
    intros [[= ? ?]|?]; [by subst|done].
Qed.

(** What the comprehension of [HSPModel.score] leaves under a key: the
    weight of the last row that names it. *)
Lemma foldl_set_get rows : ∀ d i,
  dict_get i (foldl (λ d r, dict_set r.1 r.2 d) d rows) =
  match last (filter (λ r, r.1 = i) rows) with
  | Some r => Some r.2
  | None => dict_get i d
  end.
Proof.
  induction rows as [|r rows IH] using rev_ind; intros d i; [done|].
  rewrite foldl_snoc, dict_get_set, filter_app, filter_cons, filter_nil.
  destruct (decide (r.1 = i)) as [Hr|Hr].
  - by rewrite last_snoc.
  - rewrite app_nil_r. apply IH.
Qed.

Lemma foldl_set_keys (g : list (Z * F) → Z * F → F) rows : ∀ d,
  NoDup d.*1 →
  NoDup (foldl (λ d r, dict_set r.1 (g d r) d) d rows).*1 ∧
  ∀ i, i ∈ (foldl (λ d r, dict_set r.1 (g d r) d) d rows).*1 ↔
       i ∈ d.*1 ∨ i ∈ rows.*1.
Proof.
  induction rows as [|r rows IH] using rev_ind; intros d Hnd.
  { split; [done|]. intros i. rewrite elem_of_nil. tauto. }
  rewrite foldl_snoc. destruct (IH d Hnd) as [Hnd' Hin].
  split; [by apply dict_set_NoDup|].
  intros i. rewrite dict_set_elem, Hin, fmap_app, elem_of_app.
  change ([r].*1) with [r.1]. rewrite list_elem_of_singleton. tauto.
Qed.

End dict_facts.

Section model_facts.
Import Recommender.
Context {F : Type} (fzero : F) (fadd fdiv : F → F → F) (is_zero : F → bool).
Context (read_query : nat → Z → result (list (Z * F))).
Implicit Types (d rows raw : list (Z * F)) (items : list Z) (i : Z).

(** What the loop of [RICModel.score] leaves under a key: the weights of
    the rows that name it, added in order of arrival to what was there. *)
Lemma foldl_add_row_get rows : ∀ d i,
  dict_get i (foldl (add_row fzero fadd) d rows) =
  if decide ((filter (λ r, r.1 = i) rows).*2 = []) then dict_get i d
  else Some (foldl fadd (default fzero (dict_get i d))
                   (filter (λ r, r.1 = i) rows).*2).
Proof.
  induction rows as [|r rows IH] using rev_ind; intros d i; [done|].
  rewrite foldl_snoc. unfold add_row at 1.
  rewrite dict_get_set, filter_app, filter_cons, filter_nil, fmap_app.
  destruct (decide (r.1 = i)) as [Hr|Hr].
  - rewrite decide_False by (by destruct ((filter _ rows).*2)).
    rewrite Hr, IH. change ([r].*2) with [r.2]. rewrite foldl_snoc.
    by case_decide as Hws; [rewrite Hws|].
  - rewrite !app_nil_r. apply IH.
Qed.

Lemma ric_loop_spec items : ∀ d queried,
  (∃ rowss,
     ric_loop fzero fadd read_query items d queried =
       (Ok (foldl (add_row fzero fadd) d (concat rowss)), queried ++ items) ∧
     length rowss = length items ∧
     ∀ j item rows, items !! j = Some item → rowss !! j = Some rows →
       read_query (length queried + j) item = Ok rows) ∨
  (∃ j item e,
     items !! j = Some item ∧
     read_query (length queried + j) item = Raise e ∧
     ric_loop fzero fadd read_query items d queried =
       (Raise e, queried ++ take (S j) items)).
Proof.
  induction items as [|item items IH]; intros d queried.
  { left. exists []. by rewrite app_nil_r. }
  cbn [ric_loop].
  destruct (read_query (length queried) item) as [rows|e] eqn:Hread.
  - destruct (IH (foldl (add_row fzero fadd) d rows) (queried ++ [item]))
      as [(rowss & -> & Hlen & Hreads)|(j & item' & e & Hj & He & ->)].
    + left. exists (rows :: rowss). rewrite <- (assoc_L (++)). simpl.
      rewrite foldl_app. split; [done|]. split; [by f_equal|].
      intros [|j] item' rows' Hj Hrows; simpl in Hj, Hrows.
      * injection Hj as <-. injection Hrows as <-. by rewrite Nat.add_0_r.
      * rewrite <- (Hreads j item' rows' Hj Hrows), length_app. simpl.
        f_equal. lia.
    + right. exists (S j), item', e. split; [done|]. split.
      * rewrite <- He, length_app. simpl. f_equal. lia.
      * by rewrite <- (assoc_L (++)).
  - right. exists 0, item, e. split; [done|]. split; [by rewrite Nat.add_0_r|].
    simpl. by rewrite take_0.
Qed.

Lemma foldl_dict_pop items : ∀ d,
  foldl (λ d i, dict_pop i d) d items = filter (λ p, p.1 ∉ items) d.
Proof.
  induction items as [|i items IH]; intros d; cbn [foldl].
  - rewrite filter_all; [done|]. apply Forall_forall. intros p _.
    apply not_elem_of_nil.
  - rewrite IH. unfold dict_pop, scores. rewrite list_filter_filter.
    apply list_filter_iff. intros p. rewrite not_elem_of_cons. tauto.
Qed.

Lemma normalize_keys d : (normalize fzero fadd fdiv is_zero d).*1 = d.*1.
Proof.
  unfold normalize. destruct (is_zero _); [done|].
  rewrite <- list_fmap_compose. by apply list_fmap_ext.
Qed.

Lemma normalize_elem d i v :
  (i, v) ∈ normalize fzero fadd fdiv is_zero d ↔
  ∃ w, (i, w) ∈ d ∧
       v = if is_zero (foldl fadd fzero d.*2) then w
           else fdiv w (foldl fadd fzero d.*2).
Proof.
  unfold normalize. destruct (is_zero _).
  - split; [intros ?; by exists v|by intros (w & ? & ->)].
  - rewrite list_elem_of_fmap. split.
    + intros ([i' w] & [= -> ->] & Hin). by exists w.
    + intros (w & Hin & ->). by exists (i, w).
Qed.

Lemma Sorted_take {A} (Rel : relation A) (l : list A) n :
  Sorted Rel l → Sorted Rel (take n l).
Proof.
  intros Hs. revert n. induction Hs as [|x l Hs IH Hhd]; intros [|n]; simpl;
    try constructor; [apply IH|].
  destruct Hhd as [|y l Hxy]; [by destruct n; constructor|].
  destruct n; by constructor.
Qed.

End model_facts.

Lemma recommend_nonempty {F : Type} (fzero : F) (fadd fdiv : F → F → F)
    (is_zero : F → bool) {fle : F → F → Prop} `{!Recommender.Ranking fle}
    (score : list Z → result (list (Z * F)) * list Z)
    (session_items : list Z) (k : Z) :
  session_items ≠ [] →
  Recommender.recommend fzero fadd fdiv is_zero score session_items k =
  match score session_items with
  | (Ok raw, queried) =>
      match filter (λ p, p.1 ∉ session_items)
                   (Recommender.normalize fzero fadd fdiv is_zero raw) with
      | [] => (Raise (KeyError (IStr "score")), queried)
      | p :: rest =>
          (Ok (Recommender.head k (Recommender.sort_values (p :: rest))), queried)
      end
  | (Raise e, queried) => (Raise e, queried)
  end.
Proof.
  intros Hne. unfold Recommender.recommend.
  destruct session_items as [|i0 items]; [done|].
  destruct (score (i0 :: items)) as [[raw|e] queried]; [|done].
  cbv zeta. unfold Recommender.scores.
  rewrite (foldl_dict_pop fzero fadd fdiv is_zero).
  by destruct (filter _ _).
Qed.

Lemma Sorted_perm_unique {A} (Rel : relation A) `{!Transitive Rel}
    (l1 l2 : list A) :
  (∀ a b, a ∈ l1 → b ∈ l1 → Rel a b → Rel b a → a = b) →
  Sorted Rel l1 → Sorted Rel l2 → l1 ≡ₚ l2 → l1 = l2.
Proof.
  intros Hanti Hs1 Hs2.
  apply Sorted_StronglySorted in Hs1; [|done].
  apply Sorted_StronglySorted in Hs2; [|done].
  revert l2 Hs2. induction Hs1 as [|x l1 Hs1 IH Hx]; intros l2 Hs2 Hperm.
  { by apply Permutation_nil in Hperm. }
  destruct Hs2 as [|y l2 Hs2 Hy].
  { symmetry in Hperm. by apply Permutation_nil in Hperm. }
  assert (x = y) as <-.
  { assert (x ∈ y :: l2) as Hxin by (rewrite <- Hperm; left).
    assert (y ∈ x :: l1) as Hyin by (rewrite Hperm; left).
    apply elem_of_cons in Hxin as [->|Hxin]; [done|].
    apply elem_of_cons in Hyin as [->|Hyin]; [done|].
    apply Hanti; [left|by right| |].
    - rewrite Forall_forall in Hx. by apply Hx.
    - rewrite Forall_forall in Hy. by apply Hy. }
  f_equal. apply IH; [|done|by apply Permutation_cons_inv in Hperm].
  intros a b Ha Hb. apply Hanti; by right.
Qed.

(** X26.  [BaseRecommender.recommend], for any scoring, any float
    arithmetic and comparison, and any order among rows of equal score.
    An empty session gives an empty frame and no scoring, whatever the
    scoring would do.  For a session with items: the reads are those of
    the scoring; an exception of the scoring is raised as it is; and
    when the scoring returns scores, the call raises [KeyError] on
    ["score"] exactly when every scored item is in the session (also
    when nothing is scored), and raises nothing else.  Otherwise the
    frame is the first [head(k)] rows of the remaining rows sorted by
    descending score: its items are distinct, none of the session, each a
    scored one; no row has a lower score than the next; when the
    comparison is transitive, no row left out has a higher score than
    one that is in; and when, besides, no two remaining rows compare as
    equal, the frame is the same for every way of sorting.  The score of
    a row is its raw score divided by the sum of all raw scores, those of
    the session items included, or the raw score itself when that sum is
    zero. *)
Theorem recommend_spec {F : Type} (fzero : F) (fadd fdiv : F → F → F)
    (is_zero : F → bool) (fle : F → F → Prop) `{!Recommender.Ranking fle}
    (score : list Z → result (list (Z * F)) * list Z)
    (session_items : list Z) (k : Z) :
  let r := Recommender.recommend fzero fadd fdiv is_zero score session_items k in
  (session_items = [] → r = (Ok [], [])) ∧
  (session_items ≠ [] →
     r.2 = (score session_items).2 ∧
     (∀ e, (score session_items).1 = Raise e → r.1 = Raise e) ∧
     (∀ raw, (score session_items).1 = Ok raw →
        let remaining :=
          filter (λ p, p.1 ∉ session_items)
                 (Recommender.normalize fzero fadd fdiv is_zero raw) in
        let s := foldl fadd fzero raw.*2 in
        (r.1 = Raise (KeyError (IStr "score")) ↔
           ∀ i, i ∈ raw.*1 → i ∈ session_items) ∧
        (∀ e, r.1 = Raise e → e = KeyError (IStr "score")) ∧
        (∀ rows, r.1 = Ok rows →
           rows = Recommender.head k (Recommender.sort_values remaining) ∧
           (NoDup raw.*1 → NoDup rows.*1) ∧
           (∀ i, i ∈ rows.*1 → i ∈ raw.*1 ∧ i ∉ session_items) ∧
           length rows =
             Split.slice_index k (length remaining) `min` length remaining ∧
           Sorted (λ a b, fle b.2 a.2) rows ∧
           (∀ i v, (i, v) ∈ rows →
              ∃ w, (i, w) ∈ raw ∧
                   v = if is_zero s then w else fdiv w s) ∧
           (Transitive fle →
              ∀ a b, a ∈ rows → b ∈ remaining → b ∉ rows → fle b.2 a.2) ∧
           (Transitive fle →
            (∀ a b, a ∈ remaining → b ∈ remaining →
               fle a.2 b.2 → fle b.2 a.2 → a = b) →
            ∀ other : Recommender.Ranking fle,
              @Recommender.recommend F fzero fadd fdiv is_zero fle other
                score session_items k = r)))).
Proof.
  intros r. subst r.
  split; [by intros ->|]. intros Hne.
  rewrite recommend_nonempty by done.
  destruct (score session_items) as [[raw|e] queried] eqn:Hscore; simpl.
  2: { split; [done|]. split; [by intros e' [= <-]|done]. }
  split; [by destruct (filter _ _)|].
  split; [by destruct (filter _ _)|].
  intros raw' [= <-].
  set (remaining := filter (λ p, p.1 ∉ session_items)
                      (Recommender.normalize fzero fadd fdiv is_zero raw)).
  set (s := foldl fadd fzero raw.*2).
  assert (∀ p, p ∈ remaining → p.1 ∈ raw.*1 ∧ p.1 ∉ session_items) as Hin.
  { intros p [Hp Hpin]%list_elem_of_filter. split; [|done].
    rewrite <- (normalize_keys fzero fadd fdiv is_zero raw).
    apply list_elem_of_fmap. by exists p. }
  destruct remaining as [|p0 rest] eqn:Hremaining.
  - simpl. split.
    { split; [|done]. intros _ i Hi.
      destruct (decide (i ∈ session_items)) as [|Hout]; [done|]. exfalso.
      rewrite <- (normalize_keys fzero fadd fdiv is_zero raw) in Hi.
      apply list_elem_of_fmap in Hi as (p & -> & Hp).
      by apply (filter_nil_not_elem_of _ _ p Hremaining). }
    split; [by intros e [= <-]|done].
  - rewrite <- Hremaining in *. simpl. split.
    { split; [done|]. intros Hall. exfalso.
      destruct (Hin p0) as [Hraw Hout]; [rewrite Hremaining; by left|].
      by apply Hout, Hall. }
    split; [done|]. intros rows [= <-].
    split; [done|]. unfold Recommender.head.
    rewrite (Permutation_length (Recommender.sort_values_perm remaining)).
    split.
    { intros Hnd. eapply sublist_NoDup; [|apply fmap_sublist, sublist_take].
      rewrite Recommender.sort_values_perm.
      eapply sublist_NoDup; [|apply fmap_sublist, sublist_filter].
      by rewrite normalize_keys. }
    split.
    { intros i (p & -> & Hp)%list_elem_of_fmap.
      apply elem_of_take in Hp as (j & Hp%list_elem_of_lookup_2 & _).
      rewrite Recommender.sort_values_perm in Hp. by apply Hin. }
    split.
    { by rewrite length_take,
        (Permutation_length (Recommender.sort_values_perm remaining)). }
    split; [apply Sorted_take, Recommender.sort_values_sorted|].
    split.
    { intros i v Hp.
      apply elem_of_take in Hp as (j & Hp%list_elem_of_lookup_2 & _).
      rewrite Recommender.sort_values_perm in Hp.
      rewrite Hremaining in Hp. rewrite <- Hremaining in Hp.
      subst remaining. apply list_elem_of_filter in Hp as [_ Hp].
      by apply normalize_elem in Hp. }
    assert (Transitive fle → Transitive (λ a b : Z * F, fle b.2 a.2)) as Htrans.
    { intros Hfle a b c Hab Hbc. by transitivity b.2. }
    split.
    + intros Hfle a b Ha Hb Hout.
      pose proof (Recommender.sort_values_sorted remaining) as Hsorted.
      apply (Sorted_StronglySorted _ (Transitive0:=Htrans Hfle)) in Hsorted.
      rewrite <- (take_drop (Split.slice_index k (length remaining))
                    (Recommender.sort_values remaining)) in Hsorted.
      apply (StronglySorted_app_1_elem_of _ _ _ a b Hsorted Ha).
      rewrite <- Recommender.sort_values_perm in Hb.
      rewrite <- (take_drop (Split.slice_index k (length remaining))
                    (Recommender.sort_values remaining)) in Hb.
      apply elem_of_app in Hb as [Hb|Hb]; [by destruct Hout|exact Hb].
    + intros Hfle Hties other. rewrite recommend_nonempty, Hscore by done.
      fold remaining. rewrite Hremaining. rewrite <- Hremaining.
      unfold Recommender.head.
      rewrite !(Permutation_length (Recommender.sort_values_perm remaining)).
      do 3 f_equal.
      apply (Sorted_perm_unique (λ a b : Z * F, fle b.2 a.2)
               (Transitive0:=Htrans Hfle)).
      * intros a b Ha Hb Hab Hba.
        rewrite Recommender.sort_values_perm in Ha, Hb. by apply Hties.
      * apply Recommender.sort_values_sorted.
      * apply Recommender.sort_values_sorted.
      * by rewrite !Recommender.sort_values_perm.
Qed.

Lemma recommend_spec_witness :
  let r := Recommender.recommend (QArith_base.Qmake 0 1) QArith_base.Qplus
             QArith_base.Qdiv (QArith_base.Qeq_bool (QArith_base.Qmake 0 1))
             (Recommender.hsp_score followers) [1; 2]%Z 1 in
  r = (Ok [(4%Z, QArith_base.Qmake 3 4)], [2%Z]) ∧
  ∀ other : Recommender.Ranking QArith_base.Qle,
    @Recommender.recommend _ (QArith_base.Qmake 0 1) QArith_base.Qplus
      QArith_base.Qdiv (QArith_base.Qeq_bool (QArith_base.Qmake 0 1))
      QArith_base.Qle other (Recommender.hsp_score followers) [1; 2]%Z 1 = r.
Proof.
  split; [reflexivity|].
  pose proof (recommend_spec (QArith_base.Qmake 0 1) QArith_base.Qplus
                QArith_base.Qdiv (QArith_base.Qeq_bool (QArith_base.Qmake 0 1))
                QArith_base.Qle
                (Recommender.hsp_score followers) [1; 2]%Z 1) as [_ Hspec].
  destruct (Hspec ltac:(done)) as (_ & _ & Hraw).
  destruct (Hraw [(3%Z, QArith_base.Qmake 1 1); (4%Z, QArith_base.Qmake 3 1)]
              eq_refl) as (_ & _ & Hrows).
  destruct (Hrows [(4%Z, QArith_base.Qmake 3 4)] eq_refl)
    as (_ & _ & _ & _ & _ & _ & _ & Hsame).
  apply Hsame.
  - intros a b c. apply QArith_base.Qle_trans.
  - intros a b Ha Hb.
    apply list_elem_of_In in Ha, Hb. vm_compute in Ha, Hb.
    destruct Ha as [<-|[<-|[]]], Hb as [<-|[<-|[]]]; try done;
      unfold QArith_base.Qle; simpl; lia.
Defined.

(** X27.  [RICModel.score].  The store is read once per session item, in
    the order of the session, an item that occurs twice being read
    twice; a read that raises ends the scoring with that exception, the
    later items not being read.  When every read returns, the scored
    items are exactly the items named by some row, each once, and the
    score of an item is the sum, in order of arrival and starting from
    0, of the weights of all rows that name it. *)
Theorem ric_score_spec {F : Type} (fzero : F) (fadd : F → F → F)
    (read_query : nat → Z → result (list (Z * F))) (session_items : list Z) :
  let r := Recommender.ric_score fzero fadd read_query session_items in
  r.2 `prefix_of` session_items ∧
  (∀ d, r.1 = Ok d →
     r.2 = session_items ∧ NoDup d.*1 ∧
     ∃ rowss,
       length rowss = length session_items ∧
       (∀ j item rows, session_items !! j = Some item → rowss !! j = Some rows →
          read_query j item = Ok rows) ∧
       (∀ i, i ∈ d.*1 ↔ i ∈ (concat rowss).*1) ∧
       (∀ i, i ∈ d.*1 →
          Recommender.dict_get i d =
            Some (foldl fadd fzero (filter (λ r, r.1 = i) (concat rowss)).*2))) ∧
  (∀ e, r.1 = Raise e →
     ∃ j item, session_items !! j = Some item ∧ read_query j item = Raise e ∧
               r.2 = take (S j) session_items).
Proof.
  intros r. subst r. unfold Recommender.ric_score.
  destruct (ric_loop_spec fzero fadd read_query session_items [] [])
    as [(rowss & -> & Hlen & Hreads)|(j & item & e & Hj & He & ->)]; simpl.
  - split; [done|]. split; [|done]. intros d [= <-].
    split; [done|].
    destruct (foldl_set_keys
                (λ d r, fadd (default fzero (Recommender.dict_get r.1 d)) r.2)
                (concat rowss) [] (NoDup_nil_2)) as [Hnd Hkeys].
    split; [exact Hnd|]. exists rowss. split; [done|].
    split; [exact Hreads|].
    split.
    { intros i. etrans; [apply Hkeys|]. rewrite elem_of_nil. tauto. }
    intros i Hi. apply dict_get_is_Some in Hi as [v Hv].
    rewrite foldl_add_row_get in Hv |- *. simpl in *.
    by case_decide.
  - split; [apply prefix_take|]. split; [done|]. intros e' [= <-].
    by exists j, item.
Qed.

(** X28.  [HSPModel.score].  Only the last item of the session matters:
    the store is read once, for that item, and the earlier items are not
    looked at.  The scored items are the items the rows name, each once,
    and when an item is named by several rows its score is the weight of
    the last of them. *)
Theorem hsp_score_spec {F : Type}
    (read_query : nat → Z → result (list (Z * F))) (session_items : list Z) :
  let r := Recommender.hsp_score read_query session_items in
  match last session_items with
  | None => r = (Ok [], [])
  | Some last_item =>
      r.2 = [last_item] ∧
      match read_query 0 last_item with
      | Ok rows =>
          ∃ d, r.1 = Ok d ∧ NoDup d.*1 ∧
               (∀ i, i ∈ d.*1 ↔ i ∈ rows.*1) ∧
               (∀ i, Recommender.dict_get i d =
                     snd <$> last (filter (λ r, r.1 = i) rows))
      | Raise e => r.1 = Raise e
      end
  end ∧
  (∀ earlier earlier' last_item,
     Recommender.hsp_score read_query (earlier ++ [last_item]) =
     Recommender.hsp_score read_query (earlier' ++ [last_item])).
Proof.
  intros r. subst r. unfold Recommender.hsp_score, Recommender.scores. split.
  - destruct (last session_items) as [last_item|]; [|done].
    destruct (read_query 0 last_item) as [rows|e]; [|done]. simpl.
    split; [done|]. eexists. split; [done|].
    destruct (foldl_set_keys (λ _ r, r.2) rows [] (NoDup_nil_2)) as [Hnd Hkeys].
    split; [exact Hnd|]. split.
    + intros i. etrans; [apply Hkeys|]. rewrite elem_of_nil. tauto.
    + intros i. rewrite foldl_set_get. by destruct (last _).
  - intros earlier earlier' last_item. by rewrite !last_snoc.
Qed.

(** ** models: recommending with the two models *)

Section recommend_models.
Import Recommender.
Context {F : Type} (fzero : F) (fadd fdiv : F → F → F) (is_zero : F → bool).
Context {fle : F → F → Prop} `{!Recommender.Ranking fle}.
Implicit Types (score : list Z → result (list (Z * F)) * list Z).
Implicit Types (raw rows : list (Z * F)) (session_items queried : list Z).

Lemma recommend_Raise score session_items k e :
  session_items ≠ [] →
  (recommend fzero fadd fdiv is_zero score session_items k).1 = Raise e →
  e = KeyError (IStr "score") ∨ (score session_items).1 = Raise e.
Proof.
  intros Hne. rewrite recommend_nonempty by done.
  destruct (score session_items) as [[raw|e'] queried]; simpl; [|by right].
  destruct (filter _ _); simpl; [|done]. intros [= <-]. by left.
Qed.

Lemma recommend_Ok score session_items k rows :
  session_items ≠ [] →
  (recommend fzero fadd fdiv is_zero score session_items k).1 = Ok rows →
  ∃ raw, (score session_items).1 = Ok raw ∧
         (recommend fzero fadd fdiv is_zero score session_items k).2 =
           (score session_items).2 ∧
         (NoDup raw.*1 → NoDup rows.*1) ∧
         ∀ i, i ∈ rows.*1 → i ∈ raw.*1 ∧ i ∉ session_items.
Proof.
  intros Hne. rewrite recommend_nonempty by done.
  destruct (score session_items) as [[raw|e'] queried]; simpl; [|done].
  destruct (filter _ _) as [|p rest] eqn:Hrem; simpl; [done|].
  intros [= <-]. exists raw. split; [done|]. split; [done|].
  rewrite <- Hrem. unfold head. split.
  - intros Hnd. eapply sublist_NoDup; [|apply fmap_sublist, sublist_take].
    rewrite sort_values_perm.
    eapply sublist_NoDup; [|apply fmap_sublist, sublist_filter].
    by rewrite normalize_keys.
  - intros i (q & -> & Hq)%list_elem_of_fmap.
    apply elem_of_take in Hq as (j & Hq%list_elem_of_lookup_2 & _).
    rewrite sort_values_perm in Hq.
    apply list_elem_of_filter in Hq as [Hout Hq]. split; [|done].
    rewrite <- (normalize_keys fzero fadd fdiv is_zero raw).
    apply list_elem_of_fmap. by exists q.
Qed.

Lemma elem_of_concat_fst (rowss : list (list (Z * F))) i :
  i ∈ (concat rowss).*1 → ∃ j rows, rowss !! j = Some rows ∧ i ∈ rows.*1.
Proof.
  induction rowss as [|rows rowss IH]; simpl; [by intros ?%elem_of_nil|].
  rewrite fmap_app, elem_of_app. intros [Hi|Hi].
  - by exists 0, rows.
  - destruct (IH Hi) as (j & rows' & Hj & Hi'). by exists (S j), rows'.
Qed.

End recommend_models.

(** X29.  Recommending with the two models, for a session with items.
    With [HSPModel] the store is read once, for the last item; with
    [RICModel] once per item while the reads return.  Either way the call
    raises what a read raised or [KeyError] on ["score"], and nothing
    else; and a frame it returns holds distinct items, none of the
    session, each named by a row the store returned. *)
Theorem recommend_with_models {F : Type} (fzero : F) (fadd fdiv : F → F → F)
    (is_zero : F → bool) {fle : F → F → Prop} `{!Recommender.Ranking fle}
    (read_query : nat → Z → result (list (Z * F)))
    (session_items : list Z) (k : Z) :
  session_items ≠ [] →
  (let r := Recommender.recommend fzero fadd fdiv is_zero
              (Recommender.hsp_score read_query) session_items k in
   (∃ last_item, last session_items = Some last_item ∧ r.2 = [last_item]) ∧
   (∀ e, r.1 = Raise e →
      e = KeyError (IStr "score") ∨
      ∃ last_item, last session_items = Some last_item ∧
                   read_query 0 last_item = Raise e) ∧
   (∀ rows, r.1 = Ok rows →
      NoDup rows.*1 ∧
      ∀ i, i ∈ rows.*1 →
        (i ∉ session_items) ∧
        ∃ last_item found, last session_items = Some last_item ∧
                           read_query 0 last_item = Ok found ∧ i ∈ found.*1)) ∧
  (let r := Recommender.recommend fzero fadd fdiv is_zero
              (Recommender.ric_score fzero fadd read_query) session_items k in
   r.2 `prefix_of` session_items ∧
   (∀ e, r.1 = Raise e →
      e = KeyError (IStr "score") ∨
      ∃ j item, session_items !! j = Some item ∧ read_query j item = Raise e) ∧
   (∀ rows, r.1 = Ok rows →
      r.2 = session_items ∧ NoDup rows.*1 ∧
      ∀ i, i ∈ rows.*1 →
        (i ∉ session_items) ∧
        ∃ j item found, session_items !! j = Some item ∧
                        read_query j item = Ok found ∧ i ∈ found.*1)).
Proof.
  intros Hne. split.
  - intros r. subst r.
    destruct (last session_items) as [last_item|] eqn:Hlast;
      [|by apply last_None in Hlast].
    assert (Recommender.hsp_score read_query session_items =
            match read_query 0 last_item with
            | Ok rows =>
                (Ok (foldl (λ d r, Recommender.dict_set r.1 r.2 d) [] rows),
                 [last_item])
            | Raise e => (Raise e, [last_item])
            end) as Hscore
      by (unfold Recommender.hsp_score; by rewrite Hlast).
    split.
    { exists last_item. split; [done|]. rewrite recommend_nonempty by done.
      rewrite Hscore. destruct (read_query 0 last_item); [|done].
      by destruct (filter _ _). }
    split.
    { intros e He. apply recommend_Raise in He as [->|He]; [by left| |done].
      right. exists last_item. split; [done|]. rewrite Hscore in He.
      by destruct (read_query 0 last_item). }
    intros rows Hrows.
    apply recommend_Ok in Hrows as (raw & Hraw & _ & Hnd & Hin); [|done].
    rewrite Hscore in Hraw.
    destruct (read_query 0 last_item) as [found|e] eqn:Hread; [|done].
    simpl in Hraw. injection Hraw as <-.
    destruct (foldl_set_keys (λ _ r, r.2) found [] (NoDup_nil_2)) as [Hnd' Hkeys].
    split; [by apply Hnd|]. intros i Hi. destruct (Hin i Hi) as [Hraw Hout].
    split; [done|]. exists last_item, found. split; [done|]. split; [done|].
    apply Hkeys in Hraw as [?%elem_of_nil|?]; done.
  - intros r. subst r. unfold Recommender.ric_score.
    destruct (ric_loop_spec fzero fadd read_query session_items [] [])
      as [(rowss & Hloop & Hlen & Hreads)|(j & item & e & Hj & He & Hloop)];
      simpl in Hloop.
    + split.
      { rewrite recommend_nonempty by done. unfold Recommender.ric_score.
        rewrite Hloop. by destruct (filter _ _). }
      split.
      { intros e He. apply recommend_Raise in He as [->|He]; [by left| |done].
        unfold Recommender.ric_score in He. by rewrite Hloop in He. }
      intros rows Hrows.
      apply recommend_Ok in Hrows as (raw & Hraw & Hq & Hnd & Hin); [|done].
      unfold Recommender.ric_score in Hraw, Hq. rewrite Hloop in Hraw, Hq.
      simpl in Hraw, Hq. injection Hraw as <-.
      destruct (foldl_set_keys
                  (λ d r, fadd (default fzero (Recommender.dict_get r.1 d)) r.2)
                  (concat rowss) [] (NoDup_nil_2)) as [Hnd' Hkeys].
      split; [done|]. split; [by apply Hnd|].
      intros i Hi. destruct (Hin i Hi) as [Hraw Hout]. split; [done|].
      apply Hkeys in Hraw as [?%elem_of_nil|Hraw]; [done|].
      apply elem_of_concat_fst in Hraw as (j & found & Hj & Hfound).
      destruct (lookup_lt_is_Some_2 session_items j) as [item Hitem].
      { rewrite <- Hlen. by eapply lookup_lt_Some. }
      exists j, item, found. split; [done|]. split; [|done].
      by apply (Hreads j item found).
    + split.
      { rewrite recommend_nonempty by done. unfold Recommender.ric_score.
        rewrite Hloop. apply prefix_take. }
      split.
      { intros e' He'.
        apply recommend_Raise in He' as [->|He']; [by left| |done]. right.
        unfold Recommender.ric_score in He'. rewrite Hloop in He'.
        injection He' as <-. by exists j, item. }
      intros rows Hrows.
      apply recommend_Ok in Hrows as (raw & Hraw & _); [|done].
      unfold Recommender.ric_score in Hraw. by rewrite Hloop in Hraw.
Qed.

Lemma recommend_with_models_witness :
  let r := Recommender.recommend 0%Z Z.add Z.div (Z.eqb 0)
             (Recommender.ric_score 0%Z Z.add neighbours) [1; 2]%Z 20 in
  r.2 `prefix_of` [1; 2]%Z.
Proof.
  destruct (recommend_with_models 0%Z Z.add Z.div (Z.eqb 0) neighbours
              [1; 2]%Z 20 ltac:(done)) as [_ [Hprefix _]].
  exact Hprefix.
Defined.
